(** * SOILWAT: daily soil-water and soil-temperature routines

    A shallow embedding of the flow library (SW_Flow_lib.c) and of the
    Markov weather generator (SW_Markov.c).  C doubles are read as exact
    rationals ([Q]); a C array parameter is a pointer into a buffer and is
    read as a total map from offsets to cells, so that an access at an
    offset beyond the number of layers is an access to whatever cell the
    buffer holds there.  Functions writing through pointer arguments
    return the values written.  Division is the total division of [Q]
    ([x / 0 = 0]); where C would produce an infinity or a NaN the embedding
    says nothing, except in the temperature draw of the weather generator,
    where the NaN of [sqrt] is part of the model ([Markov.double]).  Where
    the code narrows a double to float, and where the number of turns of a
    loop depends on the rounding of its counter, the narrowing and the
    rounding are parameters.  A [while] loop carries a bound on its turns;
    [SoilTemperature.returns] says that a routine returns within some
    bound and every larger one. *)

From Stdlib Require Import QArith Qround Lqa Lia List Bool Arith ZArith.
Import ListNotations.

Local Open Scope Q_scope.

(* ================================================================= *)
(** ** Comparison macros and libm helpers *)

Module Generic.

(** Modelled from the spec: generic.h (macros GT, LT, LE, GE, EQ, ZRO and
    squared) is not among the sources; the spec reads the comparison macros
    as the exact order relations, which is what is written here. *)
Definition GT (x y : Q) : bool := negb (Qle_bool x y).
Definition LT (x y : Q) : bool := negb (Qle_bool y x).
Definition LE (x y : Q) : bool := Qle_bool x y.
Definition GE (x y : Q) : bool := Qle_bool y x.
Definition EQ (x y : Q) : bool := Qeq_bool x y.
Definition ZRO (x : Q) : bool := Qeq_bool x 0.
Definition squared (x : Q) : Q := x * x.

(** math.h *)
Definition fmax (x y : Q) : Q := if Qle_bool x y then y else x.
Definition fmin (x y : Q) : Q := if Qle_bool x y then x else y.

End Generic.

Import Generic.

(* ================================================================= *)
(** ** Arrays *)

Definition arr := nat -> Q.
Definition mat := nat -> nat -> Q.

Definition upd (a : arr) (i : nat) (v : Q) : arr :=
  fun k => if Nat.eqb k i then v else a k.

Definition mupd (m : mat) (i j : nat) (v : Q) : mat :=
  fun r c => if Nat.eqb r i && Nat.eqb c j then v else m r c.

(** The buffer holding the listed cells, zero-filled beyond them. *)
Definition buffer (l : list Q) : arr := fun k => nth k l 0.

(** C [for (i = lo; i < hi; i++)] over a state. *)
Definition for_up {S : Type} (lo hi : nat) (body : S -> nat -> S) (s : S) : S :=
  fold_left body (seq lo (hi - lo)) s.

(** [sum_{k < n} f k], as the accumulation loops compute it. *)
Definition sumQ (f : nat -> Q) (n : nat) : Q :=
  for_up 0 n (fun acc k => acc + f k) 0.

(* ================================================================= *)
(** ** Interception by canopy and litter *)

Module Interception.

Section Pools.

(** The pool limits are macros of SW_Flow_lib.h, which is not among the
    sources; they are taken as given. *)
Variables MAX_WINTSTCR MAX_WINTFOR MAX_WINTLIT : Q.

(** Each routine returns [( *pptleft, *wint )]. *)
Definition grass_intercepted_water (ppt vegcov scale a b c d : Q) : Q * Q :=
  if GT vegcov 0 && GT ppt 0 then
    let intcpt := b * vegcov + a in
    let slope := d * vegcov + c in
    let wintgrass := (intcpt + slope * ppt) * scale in
    let wintgrass := fmin wintgrass ppt in
    let wintgrass := fmin wintgrass MAX_WINTSTCR in
    (fmax (ppt - wintgrass) 0, wintgrass)
  else (ppt, 0).

Definition shrub_intercepted_water (ppt vegcov scale a b c d : Q) : Q * Q :=
  if GT vegcov 0 && GT ppt 0 then
    let intcpt := b * vegcov + a in
    let slope := d * vegcov + c in
    let wintshrub := (intcpt + slope * ppt) * scale in
    let wintshrub := fmin wintshrub ppt in
    let wintshrub := fmin wintshrub MAX_WINTSTCR in
    (fmax (ppt - wintshrub) 0, wintshrub)
  else (ppt, 0).

Definition tree_intercepted_water (ppt LAI scale a b c d : Q) : Q * Q :=
  if GT LAI 0 && GT ppt 0 then
    let intcpt := b * LAI + a in
    let slope := d * LAI + c in
    let wintfor := (intcpt + slope * ppt) * scale in
    let wintfor := fmin wintfor ppt in
    let wintfor := fmin wintfor MAX_WINTFOR in
    (fmax (ppt - wintfor) 0, wintfor)
  else (ppt, 0).

Definition forb_intercepted_water (ppt vegcov scale a b c d : Q) : Q * Q :=
  if GT vegcov 0 && GT ppt 0 then
    let intcpt := b * vegcov + a in
    let slope := d * vegcov + c in
    let wintforb := (intcpt + slope * ppt) * scale in
    let wintforb := fmin wintforb ppt in
    let wintforb := fmin wintforb MAX_WINTSTCR in
    (fmax (ppt - wintforb) 0, wintforb)
  else (ppt, 0).

(** [pptleft] is read and written through the same pointer. *)
Definition litter_intercepted_water (pptleft blitter scale a b c d : Q) : Q * Q :=
  if ZRO blitter then (pptleft, 0)
  else if GT pptleft 0 then
    let intcpt := b * blitter + a in
    let slope := d * blitter + c in
    let wintlit := (intcpt + slope * pptleft) * scale in
    let wintlit := fmin pptleft wintlit in
    let wintlit := fmin wintlit MAX_WINTLIT in
    let pptleft := pptleft - wintlit in
    (fmax pptleft 0, wintlit)
  else (0, 0).

(** The five interception operations under one name. *)
Inductive interceptor := Grass | Shrub | Tree | Forb | Litter.

Definition intercept (k : interceptor) (ppt cov scale a b c d : Q) : Q * Q :=
  match k with
  | Grass => grass_intercepted_water ppt cov scale a b c d
  | Shrub => shrub_intercepted_water ppt cov scale a b c d
  | Tree => tree_intercepted_water ppt cov scale a b c d
  | Forb => forb_intercepted_water ppt cov scale a b c d
  | Litter => litter_intercepted_water ppt cov scale a b c d
  end.

Definition MAX_pool (k : interceptor) : Q :=
  match k with
  | Grass | Shrub | Forb => MAX_WINTSTCR
  | Tree => MAX_WINTFOR
  | Litter => MAX_WINTLIT
  end.

(** The linear interception expression of the spec. *)
Definition linear_interception (ppt cov scale a b c d : Q) : Q :=
  scale * ((a + b * cov) + (c + d * cov) * ppt).

(** Clamping [x] into [[lo, hi]]. *)
Definition clamp (lo hi x : Q) : Q := fmax lo (fmin x hi).

End Pools.

End Interception.

(* ================================================================= *)
(** ** Water flow through the soil profile *)

Module SoilWater.

(** The cells the infiltration routines write: [swc[]], [drain[]],
    [*drainout] and [*standingWater]. *)
Record flow_state := mkFlow {
  swc : arr;
  drain : arr;
  drainout : Q;
  standingWater : Q
}.

(** The cells [remove_from_soil] writes: [swc[]], [qty[]] and [*aet]. *)
Record removal_state := mkRemoval {
  r_swc : arr;
  qty : arr;
  aet : Q
}.

(** Indices visited by [for (j = hi; j >= 0; j--)] with [j] a signed int. *)
Definition down_from (hi : nat) : list nat := rev (seq 0 (S hi)).

Definition for_down {S : Type} (hi : nat) (body : S -> nat -> S) (s : S) : S :=
  fold_left body (down_from hi) s.

(** The sweep down to layer 1, i.e. all of it but the last iteration. *)
Definition for_down_to_1 {S : Type} (hi : nat) (body : S -> nat -> S) (s : S) : S :=
  fold_left body (rev (seq 1 hi)) s.

Section Flow.

(** [st->lyrFrozen], the frozen flags kept in the module-level [stValues]. *)
Variable lyrFrozen : nat -> nat.

(** libm [exp]; [powe] of generic.h; [SWCbulk2SWPmatric] of SW_SoilWater.c
    and the gravel fraction [SW_Site.lyr[i]->fractionVolBulk_gravel]: none
    of them is among the sources. *)
Variable exp : Q -> Q.
Variable powe : Q -> Q -> Q.
Variable SWCbulk2SWPmatric : Q -> Q -> nat -> Q.
Variable fractionVolBulk_gravel : nat -> Q.

(** Body of the saturated-percolation loop of [infiltrate_water_high]. *)
Definition saturated_percolation (nlyrs : nat) (swcfc impermeability : arr)
    (s : flow_state) (i : nat) : flow_state :=
  let ksat_rel := if Nat.eqb (lyrFrozen i) 1 then 1 # 100 else 1 in
  let d_i := fmax 0 (ksat_rel * (1 - impermeability i) * (swc s i - swcfc i)) in
  let drain1 := upd (drain s) i d_i in
  if (i <? nlyrs - 1)%nat then
    let swc1 := upd (swc s) (i + 1) (swc s (i + 1)%nat + d_i) in
    let swc2 := upd swc1 i (swc1 i - d_i) in
    mkFlow swc2 drain1 (drainout s) (standingWater s)
  else
    mkFlow (upd (swc s) i (swc s i - d_i)) drain1 d_i (standingWater s).

(** Body of the loop that pushes water upwards out of over-saturated
    layers; [pool old push] is what layer 0 leaves in [*standingWater]
    ([= push] in [infiltrate_water_high], [+= push] in
    [infiltrate_water_low]). *)
Definition push_upwards (pool : Q -> Q -> Q) (swcsat : arr)
    (s : flow_state) (j : nat) : flow_state :=
  if GT (swc s j) (swcsat j) then
    let push := swc s j - swcsat j in
    let swc1 := upd (swc s) j (swc s j - push) in
    if (0 <? j)%nat then
      let drain1 := upd (drain s) (j - 1) (drain s (j - 1)%nat - push) in
      let swc2 := upd swc1 (j - 1) (swc1 (j - 1)%nat + push) in
      mkFlow swc2 drain1 (drainout s) (standingWater s)
    else
      mkFlow swc1 (drain s) (drainout s) (pool (standingWater s) push)
  else s.

Definition infiltrate_water_high (s : flow_state) (pptleft : Q) (nlyrs : nat)
    (swcfc swcsat impermeability : arr) : flow_state :=
  (* Infiltration *)
  let s0 := mkFlow (upd (swc s) 0 (swc s 0%nat + pptleft)) (drain s) (drainout s) 0 in
  (* Saturated percolation *)
  let s1 := for_up 0 nlyrs (saturated_percolation nlyrs swcfc impermeability) s0 in
  (* for (j = nlyrs; j >= 0; j--) *)
  for_down nlyrs (push_upwards (fun _ push => push) swcsat) s1.

Definition remove_from_soil (s : removal_state) (nlyrs : nat) (coeff : arr)
    (rate : Q) (swcmin : arr) : removal_state :=
  let swpfrac : arr := fun i =>
    coeff i / SWCbulk2SWPmatric (fractionVolBulk_gravel i) (r_swc s i) i in
  let sumswp := for_up 0 nlyrs (fun acc i => acc + swpfrac i) 0 in
  if ZRO sumswp then s
  else
    for_up 0 nlyrs (fun s i =>
      if Nat.eqb (lyrFrozen i) 0 then
        let q := (swpfrac i / sumswp) * rate in
        let swc_avail := fmax 0 (r_swc s i - swcmin i) in
        let qty_i := fmin q swc_avail in
        mkRemoval (upd (r_swc s) i (r_swc s i - qty_i))
                  (upd (qty s) i qty_i)
                  (aet s + qty_i)
      else s) s.

(** Body of the unsaturated-percolation loop of [infiltrate_water_low]. *)
Definition unsaturated_percolation (nlyrs : nat) (sdrainpar sdraindpth : Q)
    (swcfc width swcmin impermeability : arr)
    (s : flow_state) (i : nat) : flow_state :=
  let d_i :=
    if LE (swc s i) (swcmin i) then 0
    else
      let kunsat_rel := if Nat.eqb (lyrFrozen i) 1 then 1 # 100 else 1 in
      let swc_avail := fmax 0 (swc s i - swcmin i) in
      let drainpot :=
        if GT (swc s i) (swcfc i) then sdrainpar
        else sdrainpar * exp ((swc s i - swcfc i) * sdraindpth / width i) in
      kunsat_rel * (1 - impermeability i) * fmin swc_avail drainpot in
  let drain1 := upd (drain s) i (drain s i + d_i) in
  if (i <? nlyrs - 1)%nat then
    let swc1 := upd (swc s) (i + 1) (swc s (i + 1)%nat + d_i) in
    let swc2 := upd swc1 i (swc1 i - d_i) in
    mkFlow swc2 drain1 (drainout s) (standingWater s)
  else
    let drainlw := fmax d_i 0 in
    mkFlow (upd (swc s) i (swc s i - drainlw)) drain1
           (drainout s + drainlw) (standingWater s).

Definition infiltrate_water_low (s : flow_state) (nlyrs : nat)
    (sdrainpar sdraindpth : Q)
    (swcfc width swcmin swcsat impermeability : arr) : flow_state :=
  (* Unsaturated percolation *)
  let s1 := for_up 0 nlyrs
              (unsaturated_percolation nlyrs sdrainpar sdraindpth
                 swcfc width swcmin impermeability) s in
  (* for (j = nlyrs; j >= 0; j--) *)
  for_down nlyrs (push_upwards (fun old push => old + push) swcsat) s1.

(** The state of [infiltrate_water_high] on entry to the last iteration
    ([j = 0]) of its upward sweep. *)
Definition high_before_surface (s : flow_state) (pptleft : Q) (nlyrs : nat)
    (swcfc swcsat impermeability : arr) : flow_state :=
  for_down_to_1 nlyrs (push_upwards (fun _ push => push) swcsat)
    (for_up 0 nlyrs (saturated_percolation nlyrs swcfc impermeability)
       (mkFlow (upd (swc s) 0 (swc s 0%nat + pptleft)) (drain s) (drainout s) 0)).

(** The same for [infiltrate_water_low]. *)
Definition low_before_surface (s : flow_state) (nlyrs : nat)
    (sdrainpar sdraindpth : Q)
    (swcfc width swcmin swcsat impermeability : arr) : flow_state :=
  for_down_to_1 nlyrs (push_upwards (fun old push => old + push) swcsat)
    (for_up 0 nlyrs
       (unsaturated_percolation nlyrs sdrainpar sdraindpth
          swcfc width swcmin impermeability) s).

(** *** Hydraulic redistribution *)

Section Hydred.

Variables swc0 swcwp lyrRootCo : arr.
Variable nlyrs : nat.
Variables maxCondroot swp50 shapeCond : Q.

Definition hr_swp : arr :=
  fun i => SWCbulk2SWPmatric (fractionVolBulk_gravel i) (swc0 i) i.
Definition hr_relCondroot : arr :=
  fun i => fmin 1 (fmax 0 (1 / (1 + powe (hr_swp i / swp50) shapeCond))).
Definition hr_swpwp : arr :=
  fun i => SWCbulk2SWPmatric (fractionVolBulk_gravel i) (swcwp i) i.

(** First loop: row 0 and column 0 are cleared. *)
Definition hydredmat_top (m : mat) : mat :=
  for_up 0 nlyrs (fun m i => mupd (mupd m i 0 0) 0 i 0) m.

(** The pairs between which water moves: at least one layer above
    wilting point and neither layer frozen. *)
Definition pair_active (i j : nat) : bool :=
  (LT (hr_swp i) (hr_swpwp i) || LT (hr_swp j) (hr_swpwp j))
  && Nat.eqb (lyrFrozen i) 0 && Nat.eqb (lyrFrozen j) 0.

(** The flux written to [hydredmat[i][j]] for an active pair.  Where
    [Rx] is 1 (the layer holds all the roots) the code divides by zero and
    the flux is an infinity or a NaN; the total division of [Q] does not
    follow it there, and what is stated of the fluxes of all layers
    excludes that case. *)
Definition pair_flux (i j : nat) : Q :=
  let Rx := if GT (swc0 i) (swc0 j) then lyrRootCo i else lyrRootCo j in
  maxCondroot * 10 / 24 * (hr_swp j - hr_swp i)
    * fmax (hr_relCondroot i) (hr_relCondroot j)
    * (lyrRootCo i * lyrRootCo j / (1 - Rx)).

(** Second loop, over the pairs [1 <= i < j < nlyrs]; it also clears
    [hydred[i]] and the diagonal. *)
Definition hydredmat_pairs (hm : arr * mat) : arr * mat :=
  for_up 1 nlyrs (fun hm i =>
    let hydred1 := upd (fst hm) i 0 in
    let m1 := mupd (snd hm) i i 0 in
    (hydred1,
     for_up (i + 1) nlyrs (fun m j =>
       if pair_active i j then
         let m' := mupd m i j (pair_flux i j) in
         mupd m' j i (- m' i j)
       else mupd (mupd m j i 0) i j 0) m1)) hm.

Definition row_sum (m : mat) (i : nat) : Q :=
  for_up 0 nlyrs (fun acc j => acc + m i j) 0.

(** Third loop: a row extracting more than the layer's available water is
    scaled down, together with its column. *)
Definition hydredmat_scale (m : mat) : mat :=
  for_up 0 nlyrs (fun m i =>
    let hydred_sum := row_sum m i in
    let swa := fmax 0 (swc0 i - swcwp i) in
    if LT hydred_sum 0 && GT (- hydred_sum) swa then
      for_up 0 nlyrs (fun m j =>
        let m' := mupd m i j (m i j * (swa / - hydred_sum)) in
        mupd m' j i (m' j i * (swa / - hydred_sum))) m
    else m) m.

(** [hydredmat] as it stands before and after the available-water
    scaling; [hydredmat0] is the uninitialised automatic array. *)
Definition hydredmat_before (hydredmat0 : mat) (hydred : arr) : mat :=
  snd (hydredmat_pairs (upd hydred 0 0, hydredmat_top hydredmat0)).

Definition hydredmat_after (hydredmat0 : mat) (hydred : arr) : mat :=
  hydredmat_scale (hydredmat_before hydredmat0 hydred).

(** Returns [(swc, hydred)]. *)
Definition hydraulic_redistribution (hydredmat0 : mat) (hydred : arr)
    (scale : Q) : arr * arr :=
  let hydred0 := upd hydred 0 0 in
  let m0 := hydredmat_top hydredmat0 in
  let hm := hydredmat_pairs (hydred0, m0) in
  let m := hydredmat_scale (snd hm) in
  for_up 0 nlyrs (fun sh i =>
    let hydred1 :=
      for_up 0 nlyrs (fun h j => upd h i (h i + m i j * scale)) (snd sh) in
    (upd (fst sh) i (fst sh i + hydred1 i), hydred1)) (swc0, fst hm).

(** What the first two loops leave in [hydredmat[a][b]]. *)
Definition pair_entry (a b : nat) : Q :=
  if Nat.eqb a 0 || Nat.eqb b 0 || Nat.eqb a b then 0
  else if (a <? b)%nat then
    if pair_active a b then pair_flux a b else 0
  else
    if pair_active b a then - pair_flux b a else 0.

End Hydred.

End Flow.


(** *** Vocabulary of the statements about soil water *)

(** The tolerance of the soil-water invariant. *)
Definition eps : Q := 1 # 1000000000.

(** The soil-water invariant of the spec: every layer within
    [[swcmin - eps, swcsat + eps]]. *)
Definition in_band (nlyrs : nat) (swcmin swcsat a : arr) : Prop :=
  forall i, (i < nlyrs)%nat -> swcmin i - eps <= a i /\ a i <= swcsat i + eps.

(** The per-layer parameter constraints of the data model. *)
Definition data_model (nlyrs : nat)
    (swcmin swcfc swcwp swcsat impermeability : arr) : Prop :=
  forall i, (i < nlyrs)%nat ->
    0 <= swcmin i /\ swcmin i <= swcfc i /\ swcwp i <= swcsat i
    /\ 0 <= impermeability i <= 1.

(** The lower edge of the band. *)
Definition band_floor (swcmin : arr) : arr := fun k => swcmin k - eps.

(** A lower profile [lo] under the first [nlyrs] cells of [a]. *)
Definition above (nlyrs : nat) (lo a : arr) : Prop :=
  forall k, (k < nlyrs)%nat -> lo k <= a k.

(** [drain[k]] as far as a percolation loop has written it on entry to
    iteration [i]. *)
Definition written (i : nat) (d : arr) (k : nat) : Q :=
  if (k <? i)%nat then d k else 0.

(** The cells of row and column [i] beyond the diagonal, up to [J]. *)
Definition on_cross (i J a b : nat) : bool :=
  (Nat.eqb a i && (i <? b)%nat && (b <? J)%nat)
  || (Nat.eqb b i && (i <? a)%nat && (a <? J)%nat).

End SoilWater.

(* ================================================================= *)
(** ** Soil temperature *)

Module SoilTemperature.

(** Modelled from the spec: SW_Defines.h is not among the sources; the spec
    gives the freezing threshold (-1 C), the saturation-proximity threshold
    (0.13) and the time step (86400 s). *)
Definition FREEZING_TEMP_C : Q := - (1).
Definition MIN_VWC_TO_FREEZE : Q := 13 # 100.
Definition SEC_PER_DAY : Q := 86400.

(** The module-level [stValues]; the struct is declared in SW_Flow_lib.h
    and is given the fields the routines use. *)
Record ST_RGR_VALUES := mkST {
  depths : arr;
  depthsR : arr;
  fcR : arr;
  wpR : arr;
  bDensityR : arr;
  oldsFusionPool_actual : arr;
  oldsTempR : arr;
  lyrFrozen : nat -> nat;
  tlyrs_by_slyrs : mat
}.

(** [stValues] and the three global latches. *)
Record globals := mkGlobals {
  stValues : ST_RGR_VALUES;
  soil_temp_error : nat;
  soil_temp_init : nat;
  fusion_pool_init : nat
}.

Definition set_depths (st : ST_RGR_VALUES) (v : arr) :=
  mkST v (depthsR st) (fcR st) (wpR st) (bDensityR st)
       (oldsFusionPool_actual st) (oldsTempR st) (lyrFrozen st) (tlyrs_by_slyrs st).
Definition set_depthsR (st : ST_RGR_VALUES) (v : arr) :=
  mkST (depths st) v (fcR st) (wpR st) (bDensityR st)
       (oldsFusionPool_actual st) (oldsTempR st) (lyrFrozen st) (tlyrs_by_slyrs st).
Definition set_fcR (st : ST_RGR_VALUES) (v : arr) :=
  mkST (depths st) (depthsR st) v (wpR st) (bDensityR st)
       (oldsFusionPool_actual st) (oldsTempR st) (lyrFrozen st) (tlyrs_by_slyrs st).
Definition set_wpR (st : ST_RGR_VALUES) (v : arr) :=
  mkST (depths st) (depthsR st) (fcR st) v (bDensityR st)
       (oldsFusionPool_actual st) (oldsTempR st) (lyrFrozen st) (tlyrs_by_slyrs st).
Definition set_bDensityR (st : ST_RGR_VALUES) (v : arr) :=
  mkST (depths st) (depthsR st) (fcR st) (wpR st) v
       (oldsFusionPool_actual st) (oldsTempR st) (lyrFrozen st) (tlyrs_by_slyrs st).
Definition set_oldsFusionPool_actual (st : ST_RGR_VALUES) (v : arr) :=
  mkST (depths st) (depthsR st) (fcR st) (wpR st) (bDensityR st)
       v (oldsTempR st) (lyrFrozen st) (tlyrs_by_slyrs st).
Definition set_oldsTempR (st : ST_RGR_VALUES) (v : arr) :=
  mkST (depths st) (depthsR st) (fcR st) (wpR st) (bDensityR st)
       (oldsFusionPool_actual st) v (lyrFrozen st) (tlyrs_by_slyrs st).
Definition set_lyrFrozen (st : ST_RGR_VALUES) (v : nat -> nat) :=
  mkST (depths st) (depthsR st) (fcR st) (wpR st) (bDensityR st)
       (oldsFusionPool_actual st) (oldsTempR st) v (tlyrs_by_slyrs st).
Definition set_tlyrs_by_slyrs (st : ST_RGR_VALUES) (v : mat) :=
  mkST (depths st) (depthsR st) (fcR st) (wpR st) (bDensityR st)
       (oldsFusionPool_actual st) (oldsTempR st) (lyrFrozen st) v.

Definition set_stValues (g : globals) (st : ST_RGR_VALUES) :=
  mkGlobals st (soil_temp_error g) (soil_temp_init g) (fusion_pool_init g).
Definition set_soil_temp_error (g : globals) (v : nat) :=
  mkGlobals (stValues g) v (soil_temp_init g) (fusion_pool_init g).
Definition set_soil_temp_init (g : globals) (v : nat) :=
  mkGlobals (stValues g) (soil_temp_error g) v (fusion_pool_init g).
Definition set_fusion_pool_init (g : globals) (v : nat) :=
  mkGlobals (stValues g) (soil_temp_error g) (soil_temp_init g) v.

Definition updn (a : nat -> nat) (i v : nat) : nat -> nat :=
  fun k => if Nat.eqb k i then v else a k.

(** [while (cond) body] with a bound on the number of iterations; [None]
    when the bound is hit with the condition still true. *)
Fixpoint while {S : Type} (fuel : nat) (cond : S -> bool) (body : S -> S)
    (s : S) : option S :=
  match fuel with
  | O => if cond s then None else Some s
  | Datatypes.S n => if cond s then while n cond body (body s) else Some s
  end.

(** A [for] loop whose body may run out of iterations. *)
Fixpoint for_each_opt {S : Type} (l : list nat) (body : S -> nat -> option S)
    (s : S) : option S :=
  match l with
  | [] => Some s
  | i :: l' =>
      match body s i with
      | Some s' => for_each_opt l' body s'
      | None => None
      end
  end.

Definition for_up_opt {S : Type} (lo hi : nat) (body : S -> nat -> option S)
    (s : S) : option S :=
  for_each_opt (seq lo (hi - lo)) body s.

(** plain C [<] on doubles *)
Definition Qltb (x y : Q) : bool := negb (Qle_bool y x).

(** Determines the average temperature of the soil surface under snow
    (Parton et al. 1998, eqs. 5 and 6).  [tSoilAvg0] stands for the
    uninitialised local that is returned when no branch assigns it. *)
Definition surface_temperature_under_snow (tSoilAvg0 : Q)
    (airTempAvg snow : Q) : Q :=
  if Qeq_bool snow 0 then 0
  else if Qltb 0 snow && Qle_bool 0 airTempAvg then - (2)
  else if Qltb 0 snow && Qltb airTempAvg 0 then
    let kSnow := fmax (- (15 # 100) * snow + 1) 0 in
    (3 # 10) * airTempAvg * kSnow + - (2)
  else tSoilAvg0.

Definition set_frozen_unfrozen (nlyrs : nat) (sTemp swc swc_sat width : arr)
    (st : ST_RGR_VALUES) : ST_RGR_VALUES :=
  set_lyrFrozen st
    (for_up 0 nlyrs (fun fr i =>
       if LE (sTemp i) FREEZING_TEMP_C
          && GT (swc i) (swc_sat i - width i * MIN_VWC_TO_FREEZE)
       then updn fr i 1
       else updn fr i 0) (lyrFrozen st)).

Section Grid.

(** [interpolation] of generic.c is not among the sources. *)
Variable interpolation : Q -> Q -> Q -> Q -> Q -> Q.

(** Contents of uninitialised automatic storage: the [k]-th local array
    of the module, and the local [tSoilAvg]. *)
Variable uninit : nat -> arr.
Variable tSoilAvg0 : Q.

(** Indices of [surfaceTemp[2]] (enum TwoDays of SW_Defines.h). *)
Variables Yesterday Today : nat.

Record t2l_state := mkT2L {
  t2l_sTemp : Q;
  t2l_acc : Q;
  t2l_n : nat;
  t2l_i : nat;
  t2l_break : bool
}.

Definition lyrTemp_to_lyrSoil_temperature (fuel : nat) (cor : mat)
    (nlyrTemp : nat) (depth_Temp sTempR : arr) (nlyrSoil : nat)
    (depth_Soil width_Soil sTemp : arr) : option arr :=
  option_map fst
    (for_up_opt 0 (nlyrSoil + 1) (fun si j =>
       match
         while fuel
           (fun w => negb (t2l_break w)
                     && LT (t2l_acc w) (width_Soil j)
                     && (t2l_i w <=? nlyrTemp + 1)%nat)
           (fun w =>
              let i := if EQ (cor (t2l_i w) j) 0
                       then (t2l_i w + 1)%nat else t2l_i w in
              if GT (cor i j) 0 then
                let use := negb (Nat.eqb i 0
                                 && LT (t2l_acc w + cor i j) (width_Soil j)) in
                let sT := if use then
                            t2l_sTemp w
                            + interpolation
                                (if (0 <? i)%nat then depth_Temp (i - 1)%nat else 0)
                                (depth_Temp i) (sTempR i) (sTempR (i + 1)%nat)
                                (depth_Soil j)
                          else t2l_sTemp w in
                let n := if use then (t2l_n w + 1)%nat else t2l_n w in
                let acc := t2l_acc w + cor i j in
                mkT2L sT acc n
                      (if LT acc (width_Soil j) then (i + 1)%nat else i) false
              else if LT (cor i j) 0 then
                mkT2L (t2l_sTemp w) (t2l_acc w) (t2l_n w) i true
              else
                mkT2L (t2l_sTemp w) (t2l_acc w) (t2l_n w) i false)
           (mkT2L 0 0 0 (snd si) false)
       with
       | None => None
       | Some w =>
           let v := if (0 <? t2l_n w)%nat
                    then t2l_sTemp w / inject_Z (Z.of_nat (t2l_n w))
                    else t2l_sTemp w in
           Some (upd (fst si) j v, t2l_i w)
       end) (sTemp, 0%nat)).

Definition lyrSoil_to_lyrTemp_temperature (fuel : nat) (nlyrSoil : nat)
    (depth_Soil sTemp : arr) (endTemp : Q) (nlyrTemp : nat)
    (depth_Temp : arr) (maxTempDepth : Q) (sTempR : arr) : option arr :=
  (* transfer data to include bottom conditions *)
  let depth_Soil2 :=
    upd (for_up 0 nlyrSoil (fun a i => upd a i (depth_Soil i)) (uninit 0))
        nlyrSoil maxTempDepth in
  let sTemp2 :=
    upd (for_up 0 nlyrSoil (fun a i => upd a i (sTemp i)) (uninit 1))
        nlyrSoil endTemp in
  match
    for_up_opt 0 nlyrTemp (fun rj i =>
      match
        while fuel
          (fun j1 => LT (depth_Soil2 (j1 + 1)%nat) (depth_Temp i)
                     && (j1 + 1 <? nlyrSoil)%nat)
          (fun j1 => (j1 + 1)%nat) (snd rj)
      with
      | None => None
      | Some j1 =>
          match
            while fuel
              (fun j2 => LE (depth_Soil2 (j2 + 1)%nat) (depth_Temp i)
                         && (j2 + 1 <? nlyrSoil + 1)%nat)
              (fun j2 => (j2 + 1)%nat) (j1 + 1)%nat
          with
          | None => None
          | Some j2 =>
              Some (upd (fst rj) (i + 1)
                      (interpolation (depth_Soil2 j1) (depth_Soil2 j2)
                         (sTemp2 j1) (sTemp2 j2) (depth_Temp i)),
                    j1)
          end
      end) (sTempR, 0%nat)
  with
  | None => None
  | Some rj => Some (upd (fst rj) (nlyrTemp + 1) endTemp)
  end.

Record l2t_state := mkL2T {
  l2t_res : Q;
  l2t_acc : Q;
  l2t_sum : Q;
  l2t_j : nat
}.

Definition lyrSoil_to_lyrTemp (fuel : nat) (cor : mat) (nlyrSoil : nat)
    (width_Soil var : arr) (nlyrTemp : nat) (width_Temp : Q)
    (res : arr) : option arr :=
  option_map fst
    (for_up_opt 0 (nlyrTemp + 1) (fun rj i =>
       match
         while fuel
           (fun w => LT (l2t_acc w) width_Temp
                     && (l2t_j w <? nlyrSoil + 1)%nat)
           (fun w =>
              let j := l2t_j w in
              if GE (cor i j) 0 then
                (* there are soil layers to add *)
                let ratio := cor i j / width_Soil j in
                let acc := l2t_acc w + cor i j in
                mkL2T (l2t_res w + var j * ratio) acc (l2t_sum w + ratio)
                      (if LT acc width_Temp then (j + 1)%nat else j)
              else if LT (cor i j) 0 then
                (* copying values from deepest soil layer *)
                let ratio := (- cor i j) / width_Soil (j - 1)%nat in
                mkL2T (l2t_res w + var (j - 1)%nat * ratio)
                      (l2t_acc w + (- cor i j)) (l2t_sum w + ratio) j
              else w)
           (mkL2T 0 0 0 (snd rj))
       with
       | None => None
       | Some w => Some (upd (fst rj) i (l2t_res w / l2t_sum w), l2t_j w)
       end) (res, 0%nat)).

Record cor_state := mkCor {
  c_x1 : nat;
  c_x2 : nat;
  c_j : nat;
  c_d1 : Q;
  c_d2 : Q;
  c_acc : Q;
  c_cor : mat
}.

(** The part of [soil_temperature_init] that runs before the depth check:
    the latch, the clearing of the regression arrays and the two depth
    profiles. *)
Definition soil_temperature_init_reset (width : arr) (nlyrs : nat)
    (deltaX : Q) (nRgr : nat) (g : globals) : globals :=
  let g := set_soil_temp_init g 1 in
  (* init st *)
  let st :=
    for_up 0 (nRgr + 1) (fun st i =>
      let st := set_fcR st (upd (fcR st) i 0) in
      let st := set_wpR st (upd (wpR st) i 0) in
      let st := set_bDensityR st (upd (bDensityR st) i 0) in
      let st := set_oldsTempR st (upd (oldsTempR st) i 0) in
      for_up 0 (nlyrs + 1) (fun st j =>
        set_tlyrs_by_slyrs st (mupd (tlyrs_by_slyrs st) i j 0)) st)
      (stValues g) in
  (* copy depths of soil layer profile *)
  let st :=
    snd (for_up 0 (nlyrs + 1) (fun ast j =>
           let acc := fst ast + width j in
           (acc, set_depths (snd ast) (upd (depths (snd ast)) j acc)))
           (0, st)) in
  (* calculate evenly spaced depths of soil temperature profile *)
  let st :=
    snd (for_up 0 (nRgr + 1) (fun ast i =>
           let acc := fst ast + deltaX in
           (acc, set_depthsR (snd ast) (upd (depthsR (snd ast)) i acc)))
           (0, st)) in
  set_stValues g st.

(** The correspondence [tlyrs_by_slyrs] between soil profile layers and
    soil temperature layers. *)
Definition soil_temperature_init_cor (fuel : nat) (width : arr) (nlyrs : nat)
    (deltaX : Q) (nRgr : nat) (st : ST_RGR_VALUES) (j0 : nat) : option mat :=
  option_map c_cor
    (for_up_opt 0 (nRgr + 1) (fun c i =>
       match
         while fuel
           (fun c => (c_x2 c <? nlyrs)%nat && Qltb (c_acc c) deltaX)
           (fun c =>
              let c' :=
                if GT (c_d1 c) 0 then
                  (* add from previous (x1) soil layer *)
                  if GT (c_d1 c) deltaX then
                    mkCor (c_x1 c) (c_x2 c) (c_x1 c)
                          (c_d1 c - deltaX) deltaX (c_acc c) (c_cor c)
                  else
                    mkCor (c_x1 c) (c_x2 c + 1) (c_x1 c)
                          0 (c_d1 c) (c_acc c) (c_cor c)
                else
                  (* add from next (x2) soil layer *)
                  if LT (depthsR st i) (depths st (c_x2 c)) then
                    let d2 := fmax (deltaX - c_acc c) 0 in
                    mkCor (c_x1 c) (c_x2 c) (c_x2 c)
                          (width (c_x2 c) - d2) d2 (c_acc c) (c_cor c)
                  else
                    mkCor (c_x1 c) (c_x2 c + 1) (c_x2 c)
                          0 (width (c_x2 c)) (c_acc c) (c_cor c) in
              mkCor (c_x1 c') (c_x2 c') (c_j c') (c_d1 c') (c_d2 c')
                    (c_acc c' + c_d2 c')
                    (mupd (c_cor c') i (c_j c') (c_d2 c')))
           (mkCor (c_x1 c) (c_x2 c) (c_j c) (c_d1 c) (c_d2 c) 0 (c_cor c))
       with
       | None => None
       | Some c =>
           Some (mkCor (c_x2 c) (c_x2 c) (c_j c) (c_d1 c) (c_d2 c) (c_acc c)
                   (if (nlyrs <=? c_x2 c)%nat
                    then mupd (c_cor c) i (c_x2 c) (- (deltaX - c_acc c))
                    else c_cor c))
       end) (mkCor 0 0 j0 0 0 0 (tlyrs_by_slyrs st))).

Definition soil_temperature_init (fuel : nat) (bDensity width : arr)
    (surfaceTemp : Q) (oldsTemp : arr) (meanAirTemp : Q) (nlyrs : nat)
    (fc wp : arr) (deltaX theMaxDepth : Q) (nRgr : nat)
    (g : globals) : option globals :=
  let g := soil_temperature_init_reset width nlyrs deltaX nRgr g in
  let st := stValues g in
  (* if soil temperature max depth is less than soil layer depth then quit *)
  if LT theMaxDepth (depths st (nlyrs - 1)%nat) then
    Some (if Nat.eqb (soil_temp_error g) 0 then set_soil_temp_error g 1 else g)
  else
    match soil_temperature_init_cor fuel width nlyrs deltaX nRgr st (nlyrs + 1) with
    | None => None
    | Some cor =>
      let st := set_tlyrs_by_slyrs st cor in
      match lyrSoil_to_lyrTemp fuel (tlyrs_by_slyrs st) nlyrs width bDensity
              nRgr deltaX (bDensityR st) with
      | None => None
      | Some bR =>
        let st := set_bDensityR st bR in
        match lyrSoil_to_lyrTemp_temperature fuel nlyrs (depths st) oldsTemp
                meanAirTemp nRgr (depthsR st) theMaxDepth (oldsTempR st) with
        | None => None
        | Some oR =>
          let st := set_oldsTempR st oR in
          let fc_vwc := for_up 0 nlyrs (fun a i => upd a i (fc i / width i)) (uninit 2) in
          let wp_vwc := for_up 0 nlyrs (fun a i => upd a i (wp i / width i)) (uninit 3) in
          match lyrSoil_to_lyrTemp fuel (tlyrs_by_slyrs st) nlyrs width fc_vwc
                  nRgr deltaX (fcR st) with
          | None => None
          | Some fR =>
            let st := set_fcR st fR in
            match lyrSoil_to_lyrTemp fuel (tlyrs_by_slyrs st) nlyrs width wp_vwc
                    nRgr deltaX (wpR st) with
            | None => None
            | Some wR => Some (set_stValues g (set_wpR st wR))
            end
          end
        end
      end
    end.

(** The fusion-pool routine is not operational: it only arms its latch
    and reports that no temperature was adjusted. *)
Definition adjust_Tsoil_by_freezing_and_thawing (oldsTemp sTemp : arr)
    (shParam : Q) (nlyrs : nat) (vwc bDensity : arr)
    (g : globals) : nat * globals :=
  let g :=
    if Nat.eqb (fusion_pool_init g) 0 then
      let st := stValues g in
      let st := set_oldsFusionPool_actual st
                  (for_up 0 nlyrs (fun a i => upd a i 0)
                     (oldsFusionPool_actual st)) in
      set_fusion_pool_init (set_stValues g st) 1
    else g in
  (0%nat, g).

(** T1, the average daily soil surface temperature. *)
Definition surface_T1 (airTemp pet aet biomass bmLimiter
    t1Param1 t1Param2 t1Param3 snowdepth snow : Q) : Q :=
  if GT snowdepth 0 then
    surface_temperature_under_snow tSoilAvg0 airTemp snow
  else if LE biomass bmLimiter then
    airTemp + (t1Param1 * pet * (1 - (aet / pet)) * (1 - (biomass / bmLimiter)))
  else
    airTemp + ((t1Param2 * (biomass - bmLimiter)) / t1Param3).

(** Body of the loop over the regression layers [i = 1 .. nRgr]; the state
    is [sTempR] and [soil_temp_error]. *)
Definition stability_parts (st : ST_RGR_VALUES) (deltaX csParam1 csParam2
    shParam : Q) (vwcR : arr) (k : nat) : Q :=
  let part1 := SEC_PER_DAY / squared deltaX in
  let pe := (vwcR k - wpR st k) / (fcR st k - wpR st k) in
  let cs := csParam1 + (pe * csParam2) in
  let sh := vwcR k + shParam * (1 - vwcR k) in
  part1 * cs / (sh * bDensityR st k).

Definition heat_step (st : ST_RGR_VALUES) (deltaX csParam1 csParam2
    shParam : Q) (vwcR : arr) (s : arr * nat) (i : nat) : arr * nat :=
  let sTempR := fst s in
  let k := (i - 1)%nat in
  let parts := stability_parts st deltaX csParam1 csParam2 shParam vwcR k in
  let part2 := sTempR (i - 1)%nat - 2 * oldsTempR st i
               + oldsTempR st (i + 1)%nat in
  let err := if GT parts 1 then 1%nat else snd s in
  (upd sTempR i (oldsTempR st i + parts * part2), err).

(** The block of [soil_temperature] guarded by [!soil_temp_init]; returns
    [surfaceTemp[]] and the globals. *)
Definition soil_temperature_first_call (fuel : nat) (airTemp : Q)
    (swc swc_sat bDensity width oldsTemp surfaceTemp : arr)
    (nlyrs : nat) (fc wp : arr) (meanAirTemp deltaX theMaxDepth : Q)
    (nRgr : nat) (g : globals) : option (arr * globals) :=
  if Nat.eqb (soil_temp_init g) 0 then
    let surfaceTemp := upd surfaceTemp Today airTemp in
    let g := set_stValues g
               (set_frozen_unfrozen nlyrs oldsTemp swc swc_sat width
                  (stValues g)) in
    match soil_temperature_init fuel bDensity width (surfaceTemp Today)
            oldsTemp meanAirTemp nlyrs fc wp deltaX theMaxDepth nRgr g with
    | None => None
    | Some g => Some (surfaceTemp, g)
    end
  else Some (surfaceTemp, g).

(** The loop over the regression layers, from [sTempR[0] = T1]. *)
Definition heat_profile (st : ST_RGR_VALUES) (deltaX csParam1 csParam2
    shParam : Q) (vwcR : arr) (nRgr : nat) (T1 : Q) (err : nat) : arr * nat :=
  for_up 1 (nRgr + 1) (heat_step st deltaX csParam1 csParam2 shParam vwcR)
    (upd (uninit 6) 0 T1, err).

(** What [soil_temperature] leaves behind: [sTemp[]], [surfaceTemp[2]] and
    the globals. *)
Record temperature_result := mkTemp {
  sTemp_out : arr;
  surfaceTemp_out : arr;
  globals_out : globals
}.

Definition soil_temperature (fuel : nat) (airTemp pet aet biomass : Q)
    (swc swc_sat bDensity width oldsTemp sTemp surfaceTemp : arr)
    (nlyrs : nat) (fc wp : arr)
    (bmLimiter t1Param1 t1Param2 t1Param3 csParam1 csParam2 shParam
     snowdepth meanAirTemp deltaX theMaxDepth : Q) (nRgr : nat) (snow : Q)
    (g : globals) : option temperature_result :=
  let vwc := for_up 0 nlyrs (fun a i => upd a i (swc i / width i)) (uninit 4) in
  match
    soil_temperature_first_call fuel airTemp swc swc_sat bDensity width
      oldsTemp surfaceTemp nlyrs fc wp meanAirTemp deltaX theMaxDepth nRgr g
  with
  | None => None
  | Some (surfaceTemp, g) =>
    let st := stValues g in
    (* calculating T1, the average daily soil surface temperature *)
    let T1 := surface_T1 airTemp pet aet biomass bmLimiter
                t1Param1 t1Param2 t1Param3 snowdepth snow in
    (* calculate volumetric soil water content for soil temperature layers *)
    match lyrSoil_to_lyrTemp fuel (tlyrs_by_slyrs st) nlyrs width vwc
            nRgr deltaX (uninit 5) with
    | None => None
    | Some vwcR =>
      (* calculate the new soil temperature for each layer *)
      let se := heat_profile st deltaX csParam1 csParam2 shParam vwcR nRgr
                  T1 (soil_temp_error g) in
      let g := set_soil_temp_error g (snd se) in
      let sTempR := upd (fst se) (nRgr + 1) meanAirTemp in
      (* convert soil temperature of soil temperature profile to soil layers *)
      let surfaceTemp := upd surfaceTemp Yesterday (surfaceTemp Today) in
      let surfaceTemp := upd surfaceTemp Today T1 in
      match lyrTemp_to_lyrSoil_temperature fuel (tlyrs_by_slyrs st) nRgr
              (depthsR st) sTempR nlyrs (depths st) width sTemp with
      | None => None
      | Some sTemp =>
        let '(sFadjusted_sTemp, g) :=
          adjust_Tsoil_by_freezing_and_thawing oldsTemp sTemp shParam nlyrs
            vwc bDensity g in
        let st := stValues g in
        (* update sTempR if sTemp were changed due to soil freezing/thawing *)
        match
          (if Nat.eqb sFadjusted_sTemp 0 then Some sTempR
           else lyrSoil_to_lyrTemp_temperature fuel nlyrs (depths st) sTemp
                  meanAirTemp nRgr (depthsR st) theMaxDepth sTempR)
        with
        | None => None
        | Some sTempR =>
          (* determine frozen/unfrozen status of soil layers *)
          let st := set_frozen_unfrozen nlyrs sTemp swc swc_sat width st in
          (* updating the values of yesterdays temperature *)
          let st := set_oldsTempR st
                      (for_up 0 (nRgr + 2) (fun a i => upd a i (sTempR i))
                         (oldsTempR st)) in
          Some (mkTemp sTemp surfaceTemp (set_stValues g st))
        end
      end
    end
  end.

End Grid.


(** *** Vocabulary of the statements about the temperature grid *)

(** [stValues] as static storage starts out: all cells zero. *)
Definition stValues_zero : ST_RGR_VALUES :=
  mkST (fun _ => 0) (fun _ => 0) (fun _ => 0) (fun _ => 0) (fun _ => 0)
       (fun _ => 0) (fun _ => 0) (fun _ => 0%nat) (fun _ _ => 0).

(** Linear interpolation between [(x1, y1)] and [(x2, y2)], standing in
    for [interpolation] of generic.c in the examples. *)
Definition linear_interpolation (x1 x2 y1 y2 x : Q) : Q :=
  y1 + (y2 - y1) / (x2 - x1) * (x - x1).

Definition globals_zero : globals :=
  mkGlobals stValues_zero 0 0 0.

(** Globals whose arrays hold 5 in every cell. *)
Definition globals_fives : globals :=
  mkGlobals
    (mkST (fun _ => 5) (fun _ => 5) (fun _ => 5) (fun _ => 5) (fun _ => 5)
          (fun _ => 5) (fun _ => 5) (fun _ => 0%nat) (fun _ _ => 5))
    0 0 0.

(** What [soil_temperature_init] has done to the globals when it reaches
    its depth check. *)
Definition reset_state (width : arr) (nlyrs : nat) (deltaX : Q) (nRgr : nat)
    (g g' : globals) : Prop :=
  let st := stValues g in
  let st' := stValues g' in
  soil_temp_init g' = 1%nat
  /\ fusion_pool_init g' = fusion_pool_init g
  /\ (forall k, fcR st' k = if (k <? nRgr + 1)%nat then 0 else fcR st k)
  /\ (forall k, wpR st' k = if (k <? nRgr + 1)%nat then 0 else wpR st k)
  /\ (forall k, bDensityR st' k
                = if (k <? nRgr + 1)%nat then 0 else bDensityR st k)
  /\ (forall k, oldsTempR st' k
                = if (k <? nRgr + 1)%nat then 0 else oldsTempR st k)
  /\ (forall r c, tlyrs_by_slyrs st' r c
                  = if (r <? nRgr + 1)%nat && (c <? nlyrs + 1)%nat then 0
                    else tlyrs_by_slyrs st r c)
  /\ (forall k, depths st' k
                = if (k <? nlyrs + 1)%nat then sumQ width (S k)
                  else depths st k)
  /\ (forall k, depthsR st' k
                = if (k <? nRgr + 1)%nat then sumQ (fun _ => deltaX) (S k)
                  else depthsR st k)
  /\ lyrFrozen st' = lyrFrozen st
  /\ oldsFusionPool_actual st' = oldsFusionPool_actual st.

(** Some band among the first [n] has a stability coefficient above 1. *)
Definition unstable (st : ST_RGR_VALUES) (deltaX csParam1 csParam2 shParam : Q)
    (vwcR : arr) (n : nat) : bool :=
  existsb (fun k => GT (stability_parts st deltaX csParam1 csParam2 shParam vwcR k) 1)
    (seq 0 n).

(** A routine with bounded loops returns [r]: within some bound on the
    turns of its loops, and within every larger one. *)
Definition returns {A : Type} (f : nat -> option A) (r : A) : Prop :=
  exists fuel0, forall fuel, (fuel0 <= fuel)%nat -> f fuel = Some r.

(** Names for the condition and the body of the [while] loops, as they
    are written in [lyrSoil_to_lyrTemp], in [soil_temperature_init_cor]
    and in [lyrTemp_to_lyrSoil_temperature]. *)
Definition l2t_cond (nlyrSoil : nat) (width_Temp : Q) (w : l2t_state) : bool :=
  LT (l2t_acc w) width_Temp && (l2t_j w <? nlyrSoil + 1)%nat.

Definition l2t_step (cor : mat) (width_Soil var : arr) (width_Temp : Q)
    (i : nat) (w : l2t_state) : l2t_state :=
  let j := l2t_j w in
  if GE (cor i j) 0 then
    let ratio := cor i j / width_Soil j in
    let acc := l2t_acc w + cor i j in
    mkL2T (l2t_res w + var j * ratio) acc (l2t_sum w + ratio)
          (if LT acc width_Temp then (j + 1)%nat else j)
  else if LT (cor i j) 0 then
    let ratio := (- cor i j) / width_Soil (j - 1)%nat in
    mkL2T (l2t_res w + var (j - 1)%nat * ratio)
          (l2t_acc w + (- cor i j)) (l2t_sum w + ratio) j
  else w.

Definition cor_cond (nlyrs : nat) (deltaX : Q) (c : cor_state) : bool :=
  (c_x2 c <? nlyrs)%nat && Qltb (c_acc c) deltaX.

Definition cor_step (width : arr) (deltaX : Q) (st : ST_RGR_VALUES)
    (i : nat) (c : cor_state) : cor_state :=
  let c' :=
    if GT (c_d1 c) 0 then
      if GT (c_d1 c) deltaX then
        mkCor (c_x1 c) (c_x2 c) (c_x1 c)
              (c_d1 c - deltaX) deltaX (c_acc c) (c_cor c)
      else
        mkCor (c_x1 c) (c_x2 c + 1) (c_x1 c)
              0 (c_d1 c) (c_acc c) (c_cor c)
    else
      if LT (depthsR st i) (depths st (c_x2 c)) then
        let d2 := fmax (deltaX - c_acc c) 0 in
        mkCor (c_x1 c) (c_x2 c) (c_x2 c)
              (width (c_x2 c) - d2) d2 (c_acc c) (c_cor c)
      else
        mkCor (c_x1 c) (c_x2 c + 1) (c_x2 c)
              0 (width (c_x2 c)) (c_acc c) (c_cor c) in
  mkCor (c_x1 c') (c_x2 c') (c_j c') (c_d1 c') (c_d2 c')
        (c_acc c' + c_d2 c')
        (mupd (c_cor c') i (c_j c') (c_d2 c')).

Definition t2l_cond (nlyrTemp : nat) (width_Soil : arr) (j : nat)
    (w : t2l_state) : bool :=
  negb (t2l_break w) && LT (t2l_acc w) (width_Soil j)
  && (t2l_i w <=? nlyrTemp + 1)%nat.

Definition t2l_step (interpolation : Q -> Q -> Q -> Q -> Q -> Q) (cor : mat)
    (depth_Temp sTempR depth_Soil width_Soil : arr) (j : nat)
    (w : t2l_state) : t2l_state :=
  let i := if EQ (cor (t2l_i w) j) 0
           then (t2l_i w + 1)%nat else t2l_i w in
  if GT (cor i j) 0 then
    let use := negb (Nat.eqb i 0
                     && LT (t2l_acc w + cor i j) (width_Soil j)) in
    let sT := if use then
                t2l_sTemp w
                + interpolation
                    (if (0 <? i)%nat then depth_Temp (i - 1)%nat else 0)
                    (depth_Temp i) (sTempR i) (sTempR (i + 1)%nat)
                    (depth_Soil j)
              else t2l_sTemp w in
    let n := if use then (t2l_n w + 1)%nat else t2l_n w in
    let acc := t2l_acc w + cor i j in
    mkT2L sT acc n
          (if LT acc (width_Soil j) then (i + 1)%nat else i) false
  else if LT (cor i j) 0 then
    mkT2L (t2l_sTemp w) (t2l_acc w) (t2l_n w) i true
  else
    mkT2L (t2l_sTemp w) (t2l_acc w) (t2l_n w) i false.

End SoilTemperature.

(* ================================================================= *)
(** ** Potential evapotranspiration and the evaporation rates *)

Module Evapotranspiration.

Section Rates.

(** libm; [powe] of generic.h; the macro [tanfunc] of SW_Flow_subs.h;
    [SWCbulk2SWPmatric] of SW_SoilWater.c and the gravel fraction of
    [SW_Site]: none of them is among the sources. *)
Variables exp log sqrt sin cos tan : Q -> Q.
Variable atan2 : Q -> Q -> Q.
Variable powe : Q -> Q -> Q.
Variable tanfunc : Q -> Q -> Q -> Q -> Q -> Q.
Variable SWCbulk2SWPmatric : Q -> Q -> nat -> Q.
Variable fractionVolBulk_gravel : nat -> Q.

(** The rounding to double of the arithmetic on the hour angle that
    counts the turns of the summation in [petfunc].  It is kept because
    the number of turns depends on it: summed exactly, [-ahou] plus 48
    steps of [ahou / 24] is [ahou]; summed in doubles it may come out
    above. *)
Variable rnd : Q -> Q.

(** Saturation vapor pressure of water (Clausius-Clapeyron). *)
Definition svapor (temp : Q) : Q :=
  let par1 := 1 / (temp + 273) in
  let par2 := log 6.11 + 5418.38 * (0.00366 - par1) in
  exp par2 * 0.75.

(** The solar declination of [petfunc] (Spencer 1971). *)
Definition petfunc_declin (doy : nat) : Q :=
  let dayAngle := 6.283185 * (inject_Z (Z.of_nat doy) - 1) / 365 in
  0.006918 - 0.399912 * cos dayAngle + 0.070257 * sin dayAngle
  - 0.006758 * cos (2 * dayAngle) + 0.000907 * sin (2 * dayAngle)
  - 0.002697 * cos (3 * dayAngle) + 0.00148 * sin (3 * dayAngle).

(** The sunset hour angle [ahou] of [petfunc]. *)
Definition petfunc_ahou (doy : nat) (rlat : Q) : Q :=
  let declin := petfunc_declin doy in
  let par2 := - tan rlat * tan declin in
  let par1 := sqrt (1 - (par2 * par2)) in
  fmax (atan2 par1 par2) 0.

(** The loop variable [hou] and the sum [solrad]. *)
Record sun_state := mkSun {
  sun_hou : Q;
  sun_solrad : Q
}.

(** Body of the summation over the hour angles (Sellers 1965, eqn. 3.15). *)
Definition petfunc_sum_step (declin rlat stepSize azmthSlope rslope : Q)
    (s : sun_state) : sun_state :=
  let hou := sun_hou s in
  let cosZ := sin rlat * sin declin + cos rlat * cos declin * cos hou in
  let sinZ := sqrt (1 - (cosZ * cosZ)) in
  let cosA := (sin rlat * cosZ - sin declin) / (cos rlat * sinZ) in
  let sinA := (cos declin * sin hou) / sinZ in
  let azmth := atan2 sinA cosA in
  mkSun (rnd (hou + stepSize))
        (sun_solrad s
         + stepSize * (cosZ * cos rslope
                       + sinZ * sin rslope * cos (azmth - azmthSlope))).

(** [solrad] of [petfunc] before it is scaled by the solar constant: the
    sum over the hour angles on a slope, the closed form on level ground.
    [None] when the summation loop exceeds the iteration bound. *)
Definition petfunc_solrad (fuel : nat) (doy : nat) (rlat slope aspect : Q)
    : option Q :=
  let declin := petfunc_declin doy in
  let ahou := petfunc_ahou doy rlat in
  if negb (Qeq_bool slope 0) then
    let stepSize := rnd (ahou / 24) in
    let azmthSlope := 6.283185 * (aspect - 180) / 360 in
    let rslope := 6.283185 * slope / 360 in
    (* for (hou = -ahou; hou <= ahou; hou += stepSize) *)
    option_map sun_solrad
      (SoilTemperature.while fuel
         (fun s => Qle_bool (sun_hou s) ahou)
         (petfunc_sum_step declin rlat stepSize azmthSlope rslope)
         (mkSun (- ahou) 0))
  else
    let solrad := ahou * sin rlat * sin declin
                  + cos rlat * cos declin * sin ahou in
    Some (solrad * 2).

(** The rest of [petfunc]: Penman (1948) from the radiation sum. *)
Definition petfunc_penman (solrad avgtemp elev reflec humid windsp cloudcov
    transcoeff : Q) : Q :=
  let solrad := (1440 / 6.283185) * 1.952 * solrad * transcoeff in
  let shwave := solrad * 0.0168 / transcoeff in
  (* calculate long wave radiation *)
  let kelvin := avgtemp + 273.15 in
  let ftemp := kelvin * 0.01 in
  let ftemp := ftemp * ftemp * ftemp * ftemp * 11.71 * 0.0168 in
  (* calculate the PET using Penman (1948) *)
  let vapor := svapor avgtemp in
  let arads := 4098 * vapor / ((avgtemp + 237.3) * (avgtemp + 237.3)) * 5 / 9 in
  let clrsky := 1 - cloudcov / 100 in
  let humid := humid * (vapor / 100) in
  let windsp := windsp * 53.70 in
  let par1 := 0.35 * (vapor - humid) * (1 + 0.0098 * windsp) in
  let par2 := (1 - reflec) * shwave * (0.18 + 0.55 * clrsky)
              - ftemp * (0.56 - 0.092 * sqrt humid) * (0.10 + 0.90 * clrsky) in
  let P := 101.3 * powe ((293 - 0.0065 * elev) / 293) 5.26 in
  let gamma := 0.000665 * P * 760 / 101.325 * 5 / 9 in
  let result := ((arads * par2 + gamma * par1) / (arads + gamma)) / 10 in
  fmax result 0.01.

(** Potential evapotranspiration by Penman's equation. *)
Definition petfunc (fuel : nat) (doy : nat) (avgtemp rlat elev slope aspect
    reflec humid windsp cloudcov transcoeff : Q) : option Q :=
  match petfunc_solrad fuel doy rlat slope aspect with
  | None => None
  | Some solrad =>
      Some (petfunc_penman solrad avgtemp elev reflec humid windsp cloudcov
              transcoeff)
  end.

(** The soil water potential summed over the layers of region [r] and the
    sum of their coefficients. *)
Definition region_sums (n_layers : nat) (tr_regions : nat -> nat)
    (tr_coeff swc : arr) (r : nat) : Q * Q :=
  for_up 0 n_layers (fun ss i =>
    if Nat.eqb (tr_regions i) r then
      (fst ss + tr_coeff i
                * SWCbulk2SWPmatric (fractionVolBulk_gravel i) (swc i) i,
       snd ss + tr_coeff i)
    else ss) (0, 0).

(** The weighted average of region [r], as the body of the loop over the
    regions leaves it in [swp]. *)
Definition region_avg (n_layers : nat) (tr_regions : nat -> nat)
    (tr_coeff swc : arr) (r : nat) : Q :=
  let ss := region_sums n_layers tr_regions tr_coeff swc r in
  fst ss / (if GT (snd ss) 0 then snd ss else 1).

(** Weighted average of soil water potential for transpiration; returns
    [*swp_avg]. *)
Definition transp_weighted_avg (n_tr_rgns n_layers : nat)
    (tr_regions : nat -> nat) (tr_coeff swc : arr) : Q :=
  for_up 1 (n_tr_rgns + 1) (fun swp_avg r =>
    let swp := region_avg n_layers tr_regions tr_coeff swc r in
    (* use smallest weighted average of regions *)
    if Nat.eqb r 1 then swp else fmin swp swp_avg) 0.

(** Each partitioning routine returns [( *fbse, *fbst )]. *)
Definition grass_EsT_partitioning (blivelai lai_param : Q) : Q * Q :=
  let bsemax := 0.995 in
  let fbse := exp (- lai_param * blivelai) in
  let fbse := fmin fbse bsemax in
  (fbse, 1 - fbse).

Definition shrub_EsT_partitioning (blivelai lai_param : Q) : Q * Q :=
  let bsemax := 0.995 in
  let fbse := exp (- lai_param * blivelai) in
  let fbse := fmin fbse bsemax in
  (fbse, 1 - fbse).

Definition tree_EsT_partitioning (blivelai lai_param : Q) : Q * Q :=
  let bsemax := 0.995 in
  let fbse := exp (- lai_param * blivelai) in
  let fbse := fmin fbse bsemax in
  (fbse, 1 - fbse).

Definition forb_EsT_partitioning (blivelai lai_param : Q) : Q * Q :=
  let bsemax := 0.995 in
  let fbse := exp (- lai_param * blivelai) in
  let fbse := fmin fbse bsemax in
  (fbse, 1 - fbse).

(** The x-value of the inflection point that [watrate] hands to
    [tanfunc]. *)
Definition watrate_par1 (petday : Q) : Q :=
  if LT petday 0.2 then 3.0
  else if LT petday 0.4 then (0.4 - petday) * - (10) + 5
  else if LT petday 0.6 then (0.6 - petday) * - (15) + 8
  else 8.

(** The ratio of the evaporation (or transpiration) rate to PET. *)
Definition watrate (swp petday shift shape inflec range : Q) : Q :=
  let par1 := watrate_par1 petday in
  let par2 := shift - swp in
  let result := tanfunc par2 par1 inflec range shape in
  fmin (fmax result 0) 1.

(** The average soil water potential of the evaporation layers, weighted
    by width and coefficient. *)
Definition evap_avswp (nelyrs : nat) (ecoeff width swc : arr) : Q :=
  let '(sumwidth, avswp) :=
    for_up 0 nelyrs (fun sa i =>
      let x := width i * ecoeff i in
      (fst sa + x,
       snd sa + x * SWCbulk2SWPmatric (fractionVolBulk_gravel i) (swc i) i))
      (0, 0) in
  avswp / sumwidth.

(** Potential bare-soil evaporation rate; returns [*bserate]. *)
Definition pot_soil_evap (nelyrs : nat) (ecoeff : arr) (totagb fbse petday
    shift shape inflec range : Q) (width swc : arr) (Es_param_limit : Q) : Q :=
  let avswp := evap_avswp nelyrs ecoeff width swc in
  if GE totagb Es_param_limit then 0
  else
    petday * watrate avswp petday shift shape inflec range
    * (1 - (totagb / Es_param_limit)) * fbse.

(** The same for bare ground. *)
Definition pot_soil_evap_bs (nelyrs : nat) (ecoeff : arr) (petday
    shift shape inflec range : Q) (width swc : arr) : Q :=
  let avswp := evap_avswp nelyrs ecoeff width swc in
  petday * watrate avswp petday shift shape inflec range.

(** The shade effect of [pot_transp]. *)
Definition pot_transp_shadeaf (biolive biodead shade_scale shade_deadmax
    shade_xinflex shade_slope shade_yinflex shade_range : Q) : Q :=
  if GE biodead shade_deadmax then
    let par1 := tanfunc biolive shade_xinflex shade_yinflex shade_range
                  shade_slope in
    let par2 := tanfunc biodead shade_xinflex shade_yinflex shade_range
                  shade_slope in
    let shadeaf := (par1 / par2) * (1 - shade_scale) + shade_scale in
    fmin shadeaf 1
  else 1.

(** Potential transpiration rate; returns [*bstrate]. *)
Definition pot_transp (swpavg biolive biodead fbst petday swp_shift swp_shape
    swp_inflec swp_range shade_scale shade_deadmax shade_xinflex shade_slope
    shade_yinflex shade_range : Q) : Q :=
  if LE biolive 0 then 0
  else
    let shadeaf := pot_transp_shadeaf biolive biodead shade_scale
                     shade_deadmax shade_xinflex shade_slope shade_yinflex
                     shade_range in
    watrate swpavg petday swp_shift swp_shape swp_inflec swp_range
    * shadeaf * petday * fbst.

End Rates.

(** The cells [evap_fromSurface] writes through its pointers. *)
Record surface_pool := mkSurface {
  water_pool : Q;
  evap_rate : Q;
  surface_aet : Q
}.

(** Evaporates from one surface water pool (intercepted or standing
    water). *)
Definition evap_fromSurface (s : surface_pool) : surface_pool :=
  if GT (water_pool s) (evap_rate s) then
    (* potential rate is smaller than available water *)
    mkSurface (water_pool s - evap_rate s) (evap_rate s)
              (surface_aet s + evap_rate s)
  else
    (* potential rate is larger than available water *)
    mkSurface 0 (water_pool s) (surface_aet s + water_pool s).

(** A region in [1 .. n_tr_rgns] none of whose layers is listed in
    [tr_regions]. *)
Definition empty_region (n_layers : nat) (tr_regions : nat -> nat) (r : nat)
    : Prop :=
  forall i, (i < n_layers)%nat -> tr_regions i <> r.

End Evapotranspiration.

(* ================================================================= *)
(** ** Markov weather generator *)

Module Markov.

(** [SW_Markov], with the fields [SW_MKV_today] reads and writes. *)
Record SW_MARKOV := mkMarkov {
  wetprob : arr;
  dryprob : arr;
  avg_ppt : arr;
  std_ppt : arr;
  cfxw : arr;
  cfxd : arr;
  cfnw : arr;
  cfnd : arr;
  u_cov : nat -> nat -> Q;
  v_cov : nat -> nat -> nat -> Q;
  ppt_events : nat
}.

Definition count_ppt_event (m : SW_MARKOV) : SW_MARKOV :=
  mkMarkov (wetprob m) (dryprob m) (avg_ppt m) (std_ppt m)
           (cfxw m) (cfxd m) (cfnw m) (cfnd m) (u_cov m) (v_cov m)
           (ppt_events m + 1).

(** A double of the temperature draw: a number, or the NaN that libm's
    [sqrt] returns for a negative argument ([SW_MKV_read_cov] accepts any
    finite variance).  NaN is contagious in arithmetic, every comparison
    with it is false, and [fmin] returns its other argument. *)
Inductive double := Num (x : Q) | NaN.

Coercion Num : Q >-> double.

Definition dadd (x y : double) : double :=
  match x, y with Num a, Num b => Num (a + b) | _, _ => NaN end.

Definition dsub (x y : double) : double :=
  match x, y with Num a, Num b => Num (a - b) | _, _ => NaN end.

Definition dmul (x y : double) : double :=
  match x, y with Num a, Num b => Num (a * b) | _, _ => NaN end.

Definition ddiv (x y : double) : double :=
  match x, y with Num a, Num b => Num (a / b) | _, _ => NaN end.

Definition dGT (x y : double) : bool :=
  match x, y with Num a, Num b => GT a b | _, _ => false end.

Definition dEQ (x y : double) : bool :=
  match x, y with Num a, Num b => EQ a b | _, _ => false end.

Definition dfmin (x y : double) : double :=
  match x, y with
  | Num a, Num b => Num (fmin a b)
  | Num a, NaN => Num a
  | NaN, y => y
  end.

(** [x <= y] on doubles: false when an operand is NaN. *)
Definition dle (x y : double) : Prop :=
  match x, y with Num a, Num b => a <= b | _, _ => False end.

Definition temp_correct_wetdry (tmax tmin : double) (rain
    cfmax_wet cfmax_dry cfmin_wet cfmin_dry : Q) : double * double :=
  if GT rain 0 then
    (* today is wet: use wet-day correction factors *)
    let tmax := dadd tmax cfmax_wet in
    (tmax, dfmin tmax (dadd tmin cfmin_wet))
  else
    (* today is dry: use dry-day correction factors *)
    let tmax := dadd tmax cfmax_dry in
    (tmax, dfmin tmax (dadd tmin cfmin_dry)).

Section Generator.

(** The generator state [markov_rng] and the draws of rands.c, libm's
    [sqrt] on the non-negative numbers and [doy2week] of Times.h: none of
    them is among the sources.  A draw returns its value and the advanced
    generator state. *)
Variable rng : Type.
Variable RandNorm : Q -> Q -> rng -> Q * rng.
Variable RandUni : rng -> Q * rng.
Variable sqrt : Q -> Q.
Variable doy2week : nat -> nat.

(** The narrowing of a double to [RealF] (float) when it is assigned to
    one of the locals [prob], [p] and [x] of [SW_MKV_today]. *)
Variable RealF : Q -> Q.

(** libm's [sqrt]: NaN for a negative argument. *)
Definition dsqrt (x : double) : double :=
  match x with
  | Num a => if LT a 0 then NaN else Num (sqrt a)
  | NaN => NaN
  end.

(** Returns [( *tmax, *tmin )] and the generator state; [None] is the
    fatal [LogError]. *)
Definition mvnorm (wTmax wTmin wTmax_var wTmin_var wT_covar : Q)
    (g : rng) : option (double * double * rng) :=
  let (z1, g) := RandNorm 0 1 g in
  let (z2, g) := RandNorm 0 1 g in
  let wTmax_sd := dsqrt wTmax_var in
  let vc10 := if dGT wTmax_sd 0 then ddiv wT_covar wTmax_sd else Num 0 in
  let s := dmul vc10 vc10 in
  if dGT s wTmin_var then None
  else
    let vc11 := if dEQ wTmin_var s then Num 0
                else dsqrt (dsub wTmin_var s) in
    (* mvnorm = mean + A * z *)
    let tmax := dadd (dmul wTmax_sd z1) wTmax in
    Some (tmax,
          dfmin tmax (dadd (dadd (dmul vc10 z1) (dmul vc11 z2)) wTmin),
          g).

Record weather_today := mkToday {
  tmax : double;
  tmin : double;
  rain : Q;
  markov : SW_MARKOV;
  markov_rng : rng
}.

(** Enter with [rain0] yesterday's precipitation; leave with today's. *)
Definition SW_MKV_today (doy0 : nat) (rain0 : Q) (m : SW_MARKOV)
    (g : rng) : option weather_today :=
  let prob := RealF (if GT rain0 0 then wetprob m doy0 else dryprob m doy0) in
  let (p, g) := RandUni g in
  let p := RealF p in
  let (rain1, g) :=
    if LE p prob then
      let (x, g) := RandNorm (avg_ppt m doy0) (std_ppt m doy0) g in
      let x := RealF x in
      (fmax 0 x, g)
    else (0, g) in
  let m := if GT rain1 0 then count_ppt_event m else m in
  (* Calculate temperature *)
  let week := doy2week (doy0 + 1) in
  match mvnorm (u_cov m week 0%nat) (u_cov m week 1%nat)
          (v_cov m week 0%nat 0%nat) (v_cov m week 1%nat 1%nat)
          (v_cov m week 1%nat 0%nat) g with
  | None => None
  | Some (tmax1, tmin1, g) =>
      let (tmax2, tmin2) :=
        temp_correct_wetdry tmax1 tmin1 rain1
          (cfxw m week) (cfxd m week) (cfnw m week) (cfnd m week) in
      Some (mkToday tmax2 tmin2 rain1 m g)
  end.

(** The value the fatal check of [mvnorm] compares with the variance of
    the minimum temperature, for a variance of the maximum that is not
    negative. *)
Definition vc10_squared (wTmax_var wT_covar : Q) : Q :=
  let wTmax_sd := sqrt wTmax_var in
  let vc10 := if GT wTmax_sd 0 then wT_covar / wTmax_sd else 0 in
  vc10 * vc10.

End Generator.

Arguments tmax {rng} _.
Arguments tmin {rng} _.
Arguments rain {rng} _.
Arguments markov {rng} _.
Arguments markov_rng {rng} _.


(** *** Setting up the tables *)

(** A line of the probability file as [sscanf] leaves it: the number of
    items converted and the five values. *)
Record prob_line := mkProbLine {
  p_items : nat;
  p_day : Z;
  p_wet : Q;
  p_dry : Q;
  p_avg : Q;
  p_std : Q
}.

(** A line of the covariance file: the number of items converted and the
    eleven values. *)
Record cov_line := mkCovLine {
  c_items : nat;
  c_week : Z;
  c_t1 : Q;
  c_t2 : Q;
  c_t3 : Q;
  c_t4 : Q;
  c_t5 : Q;
  c_t6 : Q;
  c_cfxw : Q;
  c_cfxd : Q;
  c_cfnw : Q;
  c_cfnd : Q
}.

Definition upd3 (v : nat -> nat -> nat -> Q) (w i j : nat) (x : Q)
    : nat -> nat -> nat -> Q :=
  fun a b c => if Nat.eqb a w && Nat.eqb b i && Nat.eqb c j then x else v a b c.

Section Setup.

(** [MAX_DAYS] and [MAX_WEEKS] of Times.h and [RandSeed] of rands.c are not
    among the sources.  A file is the list of its lines that are neither
    blank nor comments, as [GetALine] hands them out, or [None] when it
    cannot be opened; a value read is finite. *)
Variables MAX_DAYS MAX_WEEKS : nat.
Variable rng : Type.
Variable RandSeed : Z -> rng -> rng.

(** The arrays come from [Mem_Calloc], zero-filled. *)
Definition SW_MKV_construct (m : SW_MARKOV) (g : rng) : SW_MARKOV * rng :=
  (mkMarkov (fun _ => 0) (fun _ => 0) (fun _ => 0) (fun _ => 0)
            (fun _ => 0) (fun _ => 0) (fun _ => 0) (fun _ => 0)
            (u_cov m) (v_cov m) 0,
   RandSeed 0 g).

(** The checks on one line of the probability file; [true] where
    [msg_type] is set to [LOGFATAL]. *)
Definition prob_line_fatal (l : prob_line) : bool :=
  (* Too few values *)
  (p_items l <? 5)%nat
  (* day is a real calendar day *)
  || (p_day l <? 1)%Z || (Z.of_nat MAX_DAYS <? p_day l)%Z
  (* Probabilities are in [0, 1] *)
  || LT (p_wet l) 0 || GT (p_wet l) 1 || LT (p_dry l) 0 || GT (p_dry l) 1
  (* Mean and SD of daily precipitation are >= 0 *)
  || LT (p_avg l) 0 || LT (p_std l) 0.

Definition store_prob (m : SW_MARKOV) (l : prob_line) : SW_MARKOV :=
  (* base1 -> base0 *)
  let day := Z.to_nat (p_day l - 1) in
  mkMarkov (upd (wetprob m) day (p_wet l)) (upd (dryprob m) day (p_dry l))
           (upd (avg_ppt m) day (p_avg l)) (upd (std_ppt m) day (p_std l))
           (cfxw m) (cfxd m) (cfnw m) (cfnd m) (u_cov m) (v_cov m)
           (ppt_events m).

(** The loop over the lines; [None] is the fatal [LogError]. *)
Fixpoint read_prob_lines (lines : list prob_line) (lineno : nat)
    (m : SW_MARKOV) : option SW_MARKOV :=
  match lines with
  | [] => Some m
  | l :: rest =>
      (* skip extra lines *)
      if Nat.eqb lineno MAX_DAYS then Some m
      else if prob_line_fatal l then None
      else read_prob_lines rest (S lineno) (store_prob m l)
  end.

(** Returns [swFALSE] when the file cannot be opened. *)
Definition SW_MKV_read_prob (file : option (list prob_line)) (m : SW_MARKOV)
    : option (bool * SW_MARKOV) :=
  match file with
  | None => Some (false, m)
  | Some lines =>
      match read_prob_lines lines 0 m with
      | None => None
      | Some m' => Some (true, m')
      end
  end.

Definition cov_line_fatal (l : cov_line) : bool :=
  (* Too few values *)
  (c_items l <? 11)%nat
  (* week is a real calendar week *)
  || (c_week l <? 1)%Z || (Z.of_nat MAX_WEEKS <? c_week l)%Z.

Definition store_cov (m : SW_MARKOV) (l : cov_line) : SW_MARKOV :=
  (* base1 -> base0 *)
  let week := Z.to_nat (c_week l - 1) in
  let u := mupd (mupd (u_cov m) week 0 (c_t1 l)) week 1 (c_t2 l) in
  let v := upd3 (v_cov m) week 0 0 (c_t3 l) in
  let v := upd3 v week 0 1 (c_t4 l) in
  let v := upd3 v week 1 0 (c_t5 l) in
  let v := upd3 v week 1 1 (c_t6 l) in
  mkMarkov (wetprob m) (dryprob m) (avg_ppt m) (std_ppt m)
           (upd (cfxw m) week (c_cfxw l)) (upd (cfxd m) week (c_cfxd l))
           (upd (cfnw m) week (c_cfnw l)) (upd (cfnd m) week (c_cfnd l))
           u v (ppt_events m).

Fixpoint read_cov_lines (lines : list cov_line) (lineno : nat)
    (m : SW_MARKOV) : option SW_MARKOV :=
  match lines with
  | [] => Some m
  | l :: rest =>
      (* skip extra lines *)
      if Nat.eqb lineno MAX_WEEKS then Some m
      else if cov_line_fatal l then None
      else read_cov_lines rest (S lineno) (store_cov m l)
  end.

Definition SW_MKV_read_cov (file : option (list cov_line)) (m : SW_MARKOV)
    : option (bool * SW_MARKOV) :=
  match file with
  | None => Some (false, m)
  | Some lines =>
      match read_cov_lines lines 0 m with
      | None => None
      | Some m' => Some (true, m')
      end
  end.

(** [None] is a fatal [LogError]: a bad line, or a file that cannot be
    opened. *)
Definition SW_MKV_setup (prob_file : option (list prob_line))
    (cov_file : option (list cov_line)) (m : SW_MARKOV) (g : rng)
    : option (SW_MARKOV * rng) :=
  let (m, g) := SW_MKV_construct m g in
  match SW_MKV_read_prob prob_file m with
  | None | Some (false, _) => None
  | Some (true, m) =>
      match SW_MKV_read_cov cov_file m with
      | None | Some (false, _) => None
      | Some (true, m) => Some (m, g)
      end
  end.

End Setup.

(** The daily tables hold probabilities and non-negative precipitation
    parameters. *)
Definition tables_valid (m : SW_MARKOV) : Prop :=
  forall d, 0 <= wetprob m d <= 1 /\ 0 <= dryprob m d <= 1
            /\ 0 <= avg_ppt m d /\ 0 <= std_ppt m d.

(** *** Data of the examples *)

(** A generator that hands out a prepared list of draws, and a square
    root good for the variances of the example. *)
Definition draw (mean sd : Q) (g : list Q) : Q * list Q :=
  match g with
  | [] => (mean, [])
  | z :: g' => (mean + sd * z, g')
  end.

Definition sqrt_table (x : Q) : Q :=
  if Qeq_bool x 4 then 2 else if Qeq_bool x 9 then 3 else 0.

Definition markov_example : SW_MARKOV :=
  mkMarkov (fun _ => 1) (fun _ => 0) (fun _ => 1) (fun _ => 0)
           (fun _ => - (1)) (fun _ => 1 # 2) (fun _ => 3) (fun _ => - (1 # 2))
           (fun _ k => if Nat.eqb k 0 then 20 else 10)
           (fun _ r c => if Nat.eqb r c then (if Nat.eqb r 0 then 4 else 9) else 0)
           0.

End Markov.

(* ================================================================= *)
(** * Properties *)

Module GenericFacts.

Lemma Qle_bool_false (x y : Q) : Qle_bool x y = false <-> y < x.
Proof.
  split; intro H.
  - apply Qnot_le_lt. intro Hle. apply Qle_bool_iff in Hle. congruence.
  - destruct (Qle_bool x y) eqn:E; [|reflexivity].
    apply Qle_bool_iff in E. lra.
Qed.

Lemma GT_true (x y : Q) : GT x y = true <-> y < x.
Proof. unfold GT. rewrite negb_true_iff. apply Qle_bool_false. Qed.

Lemma GT_false (x y : Q) : GT x y = false <-> x <= y.
Proof. unfold GT. rewrite negb_false_iff. apply Qle_bool_iff. Qed.

Lemma LT_true (x y : Q) : LT x y = true <-> x < y.
Proof. unfold LT. rewrite negb_true_iff. apply Qle_bool_false. Qed.

Lemma LT_false (x y : Q) : LT x y = false <-> y <= x.
Proof. unfold LT. rewrite negb_false_iff. apply Qle_bool_iff. Qed.

Lemma LE_true (x y : Q) : LE x y = true <-> x <= y.
Proof. apply Qle_bool_iff. Qed.

Lemma LE_false (x y : Q) : LE x y = false <-> y < x.
Proof. apply Qle_bool_false. Qed.

Lemma GE_true (x y : Q) : GE x y = true <-> y <= x.
Proof. apply Qle_bool_iff. Qed.

Lemma EQ_true (x y : Q) : EQ x y = true <-> x == y.
Proof. apply Qeq_bool_iff. Qed.

Lemma EQ_false (x y : Q) : EQ x y = false <-> ~ x == y.
Proof.
  unfold EQ. split; intro H.
  - intro E. apply Qeq_bool_iff in E. congruence.
  - destruct (Qeq_bool x y) eqn:E; [|reflexivity].
    apply Qeq_bool_iff in E. contradiction.
Qed.

Lemma ZRO_true (x : Q) : ZRO x = true <-> x == 0.
Proof. apply Qeq_bool_iff. Qed.

Lemma fmax_spec (x y : Q) :
  (x <= y /\ fmax x y = y) \/ (y < x /\ fmax x y = x).
Proof.
  unfold fmax. destruct (Qle_bool x y) eqn:E.
  - left. apply Qle_bool_iff in E. auto.
  - right. apply Qle_bool_false in E. auto.
Qed.

Lemma fmin_spec (x y : Q) :
  (x <= y /\ fmin x y = x) \/ (y < x /\ fmin x y = y).
Proof.
  unfold fmin. destruct (Qle_bool x y) eqn:E.
  - left. apply Qle_bool_iff in E. auto.
  - right. apply Qle_bool_false in E. auto.
Qed.

Lemma fmax_ge_l x y : x <= fmax x y.
Proof. destruct (fmax_spec x y) as [[? ->]|[? ->]]; lra. Qed.

Lemma fmax_ge_r x y : y <= fmax x y.
Proof. destruct (fmax_spec x y) as [[? ->]|[? ->]]; lra. Qed.

Lemma fmin_le_l x y : fmin x y <= x.
Proof. destruct (fmin_spec x y) as [[? ->]|[? ->]]; lra. Qed.

Lemma fmin_le_r x y : fmin x y <= y.
Proof. destruct (fmin_spec x y) as [[? ->]|[? ->]]; lra. Qed.

End GenericFacts.

Import GenericFacts.

(** Case analysis on every comparison, [fmax] and [fmin] in sight, leaving
    linear facts for [lra]. *)
Ltac split_fm :=
  repeat match goal with
  | |- context [fmax ?x ?y] =>
      let H := fresh "Hfm" in let E := fresh "Efm" in
      destruct (fmax_spec x y) as [[H E]|[H E]]; rewrite E in *; clear E
  | |- context [fmin ?x ?y] =>
      let H := fresh "Hfm" in let E := fresh "Efm" in
      destruct (fmin_spec x y) as [[H E]|[H E]]; rewrite E in *; clear E
  | _ : context [fmax ?x ?y] |- _ =>
      let H := fresh "Hfm" in let E := fresh "Efm" in
      destruct (fmax_spec x y) as [[H E]|[H E]]; rewrite E in *; clear E
  | _ : context [fmin ?x ?y] |- _ =>
      let H := fresh "Hfm" in let E := fresh "Efm" in
      destruct (fmin_spec x y) as [[H E]|[H E]]; rewrite E in *; clear E
  end.

Ltac split_cmp :=
  repeat match goal with
  | |- context [GT ?x ?y] =>
      let E := fresh "Ecmp" in
      destruct (GT x y) eqn:E;
      [apply GT_true in E | apply GT_false in E]
  | |- context [LT ?x ?y] =>
      let E := fresh "Ecmp" in
      destruct (LT x y) eqn:E;
      [apply LT_true in E | apply LT_false in E]
  | |- context [LE ?x ?y] =>
      let E := fresh "Ecmp" in
      destruct (LE x y) eqn:E;
      [apply LE_true in E | apply LE_false in E]
  end.

Lemma upd_same a i v : upd a i v i = v.
Proof. unfold upd. now rewrite Nat.eqb_refl. Qed.

Lemma upd_other a i v k : k <> i -> upd a i v k = a k.
Proof. unfold upd. intro H. apply Nat.eqb_neq in H. now rewrite H. Qed.

Lemma mupd_same m i j v : mupd m i j v i j = v.
Proof. unfold mupd. now rewrite !Nat.eqb_refl. Qed.

Lemma mupd_other m i j v r c : (r <> i \/ c <> j) -> mupd m i j v r c = m r c.
Proof.
  unfold mupd. intros [H|H]; apply Nat.eqb_neq in H; rewrite H; simpl; auto.
  now rewrite andb_false_r.
Qed.


Lemma ZRO_false (x : Q) : ZRO x = false <-> ~ x == 0.
Proof. apply (EQ_false x 0). Qed.

(** Case analysis on the guards of a conditional in the goal. *)
Ltac split_if :=
  repeat match goal with
  | |- context [if GT ?x ?y then _ else _] =>
      let E := fresh "Ecmp" in
      destruct (GT x y) eqn:E;
      [apply GT_true in E | apply GT_false in E]
  | |- context [if LT ?x ?y then _ else _] =>
      let E := fresh "Ecmp" in
      destruct (LT x y) eqn:E;
      [apply LT_true in E | apply LT_false in E]
  | |- context [if LE ?x ?y then _ else _] =>
      let E := fresh "Ecmp" in
      destruct (LE x y) eqn:E;
      [apply LE_true in E | apply LE_false in E]
  | |- context [if ZRO ?x then _ else _] =>
      let E := fresh "Ecmp" in
      destruct (ZRO x) eqn:E;
      [apply ZRO_true in E | apply ZRO_false in E]
  end.

(* ================================================================= *)
(** ** Interception *)

Module InterceptionFacts.

Import Interception.

Section Pools.

Variables MAX_WINTSTCR MAX_WINTFOR MAX_WINTLIT : Q.

Local Abbreviation intercept := (intercept MAX_WINTSTCR MAX_WINTFOR MAX_WINTLIT).
Local Abbreviation MAX_pool := (MAX_pool MAX_WINTSTCR MAX_WINTFOR MAX_WINTLIT).

(** What every canopy routine computes once both guards hold. *)
Lemma canopy_shape (M ppt cov scale a b c d : Q) :
  0 < cov -> 0 < ppt ->
  let w := fmin (fmin ((b * cov + a + (d * cov + c) * ppt) * scale) ppt) M in
  (if GT cov 0 && GT ppt 0 then (fmax (ppt - w) 0, w) else (ppt, 0))
  = (fmax (ppt - w) 0, w).
Proof.
  intros Hc Hp w.
  apply GT_true in Hc. apply GT_true in Hp. now rewrite Hc, Hp.
Qed.

Lemma upper_clamp_eq (x L ppt M : Q) :
  x == L ->
  fmin (fmin x ppt) M == fmin (fmin L ppt) M.
Proof. intro E. split_fm; lra. Qed.

Lemma upper_clamp_eq_swapped (x L ppt M : Q) :
  x == L ->
  fmin (fmin ppt x) M == fmin (fmin L ppt) M.
Proof. intro E. split_fm; lra. Qed.

Lemma upper_clamp_is_clamp (L ppt M : Q) :
  0 < ppt -> 0 <= L -> 0 <= M ->
  fmin (fmin L ppt) M == clamp 0 (fmin ppt M) L.
Proof. intros Hp HL HM. unfold clamp. split_fm; lra. Qed.

Lemma linear_interception_code (ppt cov scale a b c d : Q) :
  (b * cov + a + (d * cov + c) * ppt) * scale
  == linear_interception ppt cov scale a b c d.
Proof. unfold linear_interception. ring. Qed.

(** C6, as amended.  For each of the five interception operations, with
    cover [cov > 0] and incoming precipitation [ppt > 0], the intercepted
    amount is the linear expression capped from above by the incoming
    precipitation and by the pool limit (there is no lower clamp at 0),
    which is the clamp to [[0, min(ppt, MAX_pool)]] whenever the linear
    expression and the pool limit are non-negative; the precipitation left
    is [max(ppt - intercepted, 0)].  With [cov = 0] or [ppt = 0] nothing is
    intercepted and the precipitation passes through. *)
Theorem interception_upper_clamp (k : interceptor)
    (ppt cov scale a b c d : Q) :
  let r := intercept k ppt cov scale a b c d in
  let L := linear_interception ppt cov scale a b c d in
  (0 < cov -> 0 < ppt ->
     snd r == fmin (fmin L ppt) (MAX_pool k)
     /\ fst r == fmax (ppt - snd r) 0
     /\ (0 <= L -> 0 <= MAX_pool k -> snd r == clamp 0 (fmin ppt (MAX_pool k)) L))
  /\ (cov == 0 \/ ppt == 0 -> snd r == 0 /\ fst r == ppt).
Proof.
  intros r L. split.
  - intros Hc Hp.
    assert (Hw : snd r == fmin (fmin L ppt) (MAX_pool k)
                 /\ fst r == fmax (ppt - snd r) 0).
    { subst r L. destruct k; cbn [intercept Interception.MAX_pool];
        try (unfold grass_intercepted_water, shrub_intercepted_water,
               tree_intercepted_water, forb_intercepted_water;
             cbv zeta; rewrite canopy_shape by assumption; cbn [fst snd];
             split; [apply upper_clamp_eq, linear_interception_code | reflexivity]).
      unfold litter_intercepted_water.
      assert (Hz : ZRO cov = false) by (apply ZRO_false; lra).
      assert (Hg : GT ppt 0 = true) by (now apply GT_true).
      rewrite Hz, Hg. cbn [fst snd].
      split; [apply upper_clamp_eq_swapped, linear_interception_code | reflexivity]. }
    destruct Hw as [Hw1 Hw2]. repeat split; trivial.
    intros HL HM. rewrite Hw1. now apply upper_clamp_is_clamp.
  - intros Hz. subst r.
    destruct k; cbn [intercept];
      try (unfold grass_intercepted_water, shrub_intercepted_water,
             tree_intercepted_water, forb_intercepted_water;
           assert (Hg : GT cov 0 && GT ppt 0 = false)
             by (apply andb_false_iff; destruct Hz as [Hz|Hz];
                 [left|right]; apply GT_false; lra);
           rewrite Hg; cbn [fst snd]; split; reflexivity).
    unfold litter_intercepted_water.
    split_if; cbn [fst snd]; split; try reflexivity; lra.
Qed.

End Pools.

(** Grass with the parameters of the default site under 2 cm of rain, and
    litter without biomass. *)
Lemma interception_upper_clamp_witness :
  let r := intercept 1 1 1 Grass 2 1 1 (182 # 10000) (65 # 10000)
             (19 # 10000) (54 # 10000) in
  let r0 := intercept 1 1 1 Litter 2 0 1 (151 # 10000) (5 # 100000)
              (116 # 10000) (2 # 100000) in
  (snd r == 393 # 10000 /\ fst r == 19607 # 10000
   /\ snd r == clamp 0 (fmin 2 1)
                 (linear_interception 2 1 1 (182 # 10000) (65 # 10000)
                    (19 # 10000) (54 # 10000)))
  /\ (snd r0 == 0 /\ fst r0 == 2).
Proof.
  cbv zeta. split.
  - pose proof (interception_upper_clamp 1 1 1 Grass 2 1 1 (182 # 10000)
                  (65 # 10000) (19 # 10000) (54 # 10000)) as [H _].
    destruct H as (H1 & H2 & H3); [reflexivity | reflexivity |].
    split; [|split].
    + rewrite H1. vm_compute. reflexivity.
    + rewrite H2. vm_compute. reflexivity.
    + apply H3; vm_compute; discriminate.
  - pose proof (interception_upper_clamp 1 1 1 Litter 2 0 1 (151 # 10000)
                  (5 # 100000) (116 # 10000) (2 # 100000)) as [_ H].
    apply H. left. reflexivity.
Defined.

(** C6, as stated, fails: with a negative intercept parameter the
    intercepted amount is negative, not clamped to 0, and more
    precipitation is left than came in. *)
Lemma interception_not_clamped_below :
  let r := intercept 1 1 1 Grass 1 1 1 (- (1)) 0 0 0 in
  0 < 1 /\ 0 < 1
  /\ snd r == - (1)
  /\ fst r == 2
  /\ ~ snd r == clamp 0 (fmin 1 (MAX_pool 1 1 1 Grass))
                  (linear_interception 1 1 1 (- (1)) 0 0 0)
  /\ ~ fst r == fmax (1 - clamp 0 (fmin 1 (MAX_pool 1 1 1 Grass))
                  (linear_interception 1 1 1 (- (1)) 0 0 0)) 0.
Proof.
  cbv zeta. repeat split; try reflexivity; vm_compute; discriminate.
Qed.

End InterceptionFacts.

(* ================================================================= *)
(** ** Loops *)

Lemma for_up_empty {S : Type} (lo hi : nat) (body : S -> nat -> S) (s : S) :
  (hi <= lo)%nat -> for_up lo hi body s = s.
Proof.
  intro H. unfold for_up.
  replace (hi - lo)%nat with 0%nat by lia. reflexivity.
Qed.

Lemma for_up_S {S : Type} (lo hi : nat) (body : S -> nat -> S) (s : S) :
  (lo <= hi)%nat ->
  for_up lo (Datatypes.S hi) body s = body (for_up lo hi body s) hi.
Proof.
  intro H. unfold for_up.
  replace (Datatypes.S hi - lo)%nat with (Datatypes.S (hi - lo)) by lia.
  rewrite seq_S, fold_left_app. cbn [fold_left].
  replace (lo + (hi - lo))%nat with hi by lia. reflexivity.
Qed.

(** Loop invariants for [for (i = lo; i < hi; i++)]. *)
Lemma for_up_ind {S : Type} (P : nat -> S -> Prop) (lo hi : nat)
    (body : S -> nat -> S) (s : S) :
  (lo <= hi)%nat ->
  P lo s ->
  (forall i s, (lo <= i < hi)%nat -> P i s -> P (Datatypes.S i) (body s i)) ->
  P hi (for_up lo hi body s).
Proof.
  intros Hle H0 Hstep. induction hi as [|hi IH].
  - replace lo with 0%nat in * by lia. exact H0.
  - destruct (Nat.eq_dec lo (Datatypes.S hi)) as [->|Hne].
    + rewrite for_up_empty by lia. exact H0.
    + rewrite for_up_S by lia. apply Hstep; [lia|].
      apply IH; [lia|]. intros i s' Hi. apply Hstep. lia.
Qed.

Lemma updn_same a i v : SoilTemperature.updn a i v i = v.
Proof. unfold SoilTemperature.updn. now rewrite Nat.eqb_refl. Qed.

Lemma updn_other a i v k : k <> i -> SoilTemperature.updn a i v k = a k.
Proof.
  unfold SoilTemperature.updn. intro H. apply Nat.eqb_neq in H. now rewrite H.
Qed.

(** A loop that writes cell [i] at iteration [i] leaves [f i] in every
    cell below the bound and nothing else changed. *)
Lemma for_up_fill (f : nat -> Q) (n : nat) (a : arr) (k : nat) :
  for_up 0 n (fun a i => upd a i (f i)) a k
  = if (k <? n)%nat then f k else a k.
Proof.
  induction n as [|n IH].
  - reflexivity.
  - rewrite for_up_S by lia.
    destruct (Nat.eq_dec k n) as [->|Hne].
    + rewrite upd_same.
      replace (n <? Datatypes.S n)%nat with true
        by (symmetry; apply Nat.ltb_lt; lia).
      reflexivity.
    + rewrite upd_other by assumption. rewrite IH.
      destruct (Nat.ltb_spec k n), (Nat.ltb_spec k (Datatypes.S n));
        try reflexivity; lia.
Qed.

Lemma for_up_filln (f : nat -> nat) (n : nat) (a : nat -> nat) (k : nat) :
  for_up 0 n (fun a i => SoilTemperature.updn a i (f i)) a k
  = if (k <? n)%nat then f k else a k.
Proof.
  induction n as [|n IH].
  - reflexivity.
  - rewrite for_up_S by lia.
    destruct (Nat.eq_dec k n) as [->|Hne].
    + rewrite updn_same.
      replace (n <? Datatypes.S n)%nat with true
        by (symmetry; apply Nat.ltb_lt; lia).
      reflexivity.
    + rewrite updn_other by assumption. rewrite IH.
      destruct (Nat.ltb_spec k n), (Nat.ltb_spec k (Datatypes.S n));
        try reflexivity; lia.
Qed.

Lemma sumQ_S (f : nat -> Q) (n : nat) : sumQ f (S n) = sumQ f n + f n.
Proof. unfold sumQ. now rewrite for_up_S by lia. Qed.

Lemma sumQ_ext (f g : nat -> Q) (n : nat) :
  (forall k, (k < n)%nat -> f k == g k) -> sumQ f n == sumQ g n.
Proof.
  induction n as [|n IH]; intro H.
  - reflexivity.
  - rewrite !sumQ_S. rewrite IH by (intros; apply H; lia).
    rewrite (H n) by lia. reflexivity.
Qed.

Lemma sumQ_plus (f g : nat -> Q) (n : nat) :
  sumQ (fun k => f k + g k) n == sumQ f n + sumQ g n.
Proof.
  induction n as [|n IH].
  - reflexivity.
  - rewrite !sumQ_S, IH. ring.
Qed.

Lemma sumQ_zero (f : nat -> Q) (n : nat) :
  (forall k, (k < n)%nat -> f k == 0) -> sumQ f n == 0.
Proof.
  induction n as [|n IH]; intro H.
  - reflexivity.
  - rewrite sumQ_S, IH by (intros; apply H; lia).
    rewrite (H n) by lia. reflexivity.
Qed.

Lemma for_up_ext {S : Type} (lo hi : nat) (f g : S -> nat -> S) (s : S) :
  (forall s i, (lo <= i < hi)%nat -> f s i = g s i) ->
  for_up lo hi f s = for_up lo hi g s.
Proof.
  intro H. unfold for_up.
  assert (Hin : forall i, In i (seq lo (hi - lo)) -> (lo <= i < hi)%nat)
    by (intros i Hi; apply in_seq in Hi; lia).
  revert s. induction (seq lo (hi - lo)) as [|x l IH]; intro s.
  - reflexivity.
  - cbn [fold_left]. rewrite H by (apply Hin; now left).
    apply IH. intros i Hi. apply Hin. now right.
Qed.

(* ================================================================= *)
(** ** Frozen flags and surface temperature *)

Module FrozenFacts.

Import SoilTemperature.

Lemma set_frozen_unfrozen_cell (nlyrs : nat) (sTemp swc swc_sat width : arr)
    (st : ST_RGR_VALUES) (k : nat) :
  lyrFrozen (set_frozen_unfrozen nlyrs sTemp swc swc_sat width st) k
  = if (k <? nlyrs)%nat then
      if LE (sTemp k) FREEZING_TEMP_C
         && GT (swc k) (swc_sat k - width k * MIN_VWC_TO_FREEZE)
      then 1%nat else 0%nat
    else lyrFrozen st k.
Proof.
  unfold set_frozen_unfrozen, set_lyrFrozen. cbn [lyrFrozen].
  rewrite (for_up_ext 0 nlyrs _
             (fun a i => updn a i
                (if LE (sTemp i) FREEZING_TEMP_C
                    && GT (swc i) (swc_sat i - width i * MIN_VWC_TO_FREEZE)
                 then 1%nat else 0%nat))).
  - apply for_up_filln.
  - intros a i _.
    destruct (LE (sTemp i) FREEZING_TEMP_C
              && GT (swc i) (swc_sat i - width i * MIN_VWC_TO_FREEZE));
      reflexivity.
Qed.

(** C2.  After [set_frozen_unfrozen], for every layer [i < nlyrs] the flag
    is 1 exactly when the soil temperature is at most -1 C and
    [swc_sat - swc < width * 0.13], and 0 otherwise; in particular a layer
    at exactly -1 C can freeze, and a layer at exactly
    [swc = swc_sat - width * 0.13] does not. *)
Theorem set_frozen_unfrozen_rule (nlyrs : nat)
    (sTemp swc swc_sat width : arr) (st : ST_RGR_VALUES) (i : nat) :
  (i < nlyrs)%nat ->
  let fr := lyrFrozen (set_frozen_unfrozen nlyrs sTemp swc swc_sat width st) i in
  (fr = 1%nat <->
     sTemp i <= - (1) /\ swc_sat i - swc i < width i * (13 # 100))
  /\ (fr = 1%nat \/ fr = 0%nat)
  /\ (sTemp i == - (1) -> swc_sat i - swc i < width i * (13 # 100) -> fr = 1%nat)
  /\ (swc i == swc_sat i - width i * (13 # 100) -> fr = 0%nat).
Proof.
  intros Hi fr. subst fr. rewrite set_frozen_unfrozen_cell.
  apply Nat.ltb_lt in Hi. rewrite Hi.
  unfold FREEZING_TEMP_C, MIN_VWC_TO_FREEZE.
  destruct (LE (sTemp i) (- (1))) eqn:E1;
    [apply LE_true in E1 | apply LE_false in E1];
    (destruct (GT (swc i) (swc_sat i - width i * (13 # 100))) eqn:E2;
     [apply GT_true in E2 | apply GT_false in E2]);
    cbn [andb]; repeat split; intros; auto;
    try discriminate; try lra;
    match goal with H : _ /\ _ |- _ => destruct H; lra end.
Qed.

(** The test of the repository, one layer at -5 C close to saturation,
    and the two boundary points: the same layer at exactly -1 C, and a
    layer exactly [width * 0.13] under saturation. *)
Lemma set_frozen_unfrozen_rule_witness :
  lyrFrozen (set_frozen_unfrozen 1 (buffer [- (5)]) (buffer [15 # 10])
               (buffer [18 # 10]) (buffer [5]) stValues_zero) 0 = 1%nat
  /\ lyrFrozen (set_frozen_unfrozen 1 (buffer [- (1)]) (buffer [15 # 10])
                  (buffer [18 # 10]) (buffer [5]) stValues_zero) 0 = 1%nat
  /\ lyrFrozen (set_frozen_unfrozen 1 (buffer [- (5)]) (buffer [115 # 100])
                  (buffer [18 # 10]) (buffer [5]) stValues_zero) 0 = 0%nat.
Proof.
  assert (Hlt : (0 < 1)%nat) by lia.
  split; [|split].
  - destruct (set_frozen_unfrozen_rule 1 (buffer [- (5)]) (buffer [15 # 10])
                (buffer [18 # 10]) (buffer [5]) stValues_zero 0 Hlt)
      as [[_ H] _].
    apply H. split; [discriminate | reflexivity].
  - destruct (set_frozen_unfrozen_rule 1 (buffer [- (1)]) (buffer [15 # 10])
                (buffer [18 # 10]) (buffer [5]) stValues_zero 0 Hlt)
      as (_ & _ & H & _).
    apply H; reflexivity.
  - destruct (set_frozen_unfrozen_rule 1 (buffer [- (5)]) (buffer [115 # 100])
                (buffer [18 # 10]) (buffer [5]) stValues_zero 0 Hlt)
      as (_ & _ & _ & H).
    apply H. reflexivity.
Defined.

End FrozenFacts.

Module SurfaceFacts.

Import SoilTemperature.

Section Grid.

Variable interpolation : Q -> Q -> Q -> Q -> Q -> Q.
Variable uninit : nat -> arr.
Variable tSoilAvg0 : Q.
Variables Yesterday Today : nat.

Lemma Qltb_true (x y : Q) : Qltb x y = true <-> x < y.
Proof. apply LT_true. Qed.

Lemma Qltb_false (x y : Q) : Qltb x y = false <-> y <= x.
Proof. apply LT_false. Qed.

(** [surfaceTemp[Today]] as [soil_temperature] leaves it is T1. *)
Lemma soil_temperature_surface (fuel : nat) (airTemp pet aet biomass : Q)
    (swc swc_sat bDensity width oldsTemp sTemp surfaceTemp : arr)
    (nlyrs : nat) (fc wp : arr)
    (bmLimiter t1Param1 t1Param2 t1Param3 csParam1 csParam2 shParam
     snowdepth meanAirTemp deltaX theMaxDepth : Q) (nRgr : nat) (snow : Q)
    (g : globals) (r : temperature_result) :
  soil_temperature interpolation uninit tSoilAvg0 Yesterday Today
    fuel airTemp pet aet biomass swc swc_sat bDensity width oldsTemp sTemp
    surfaceTemp nlyrs fc wp bmLimiter t1Param1 t1Param2 t1Param3
    csParam1 csParam2 shParam snowdepth meanAirTemp deltaX theMaxDepth
    nRgr snow g = Some r ->
  surfaceTemp_out r Today
  = surface_T1 tSoilAvg0 airTemp pet aet biomass bmLimiter
      t1Param1 t1Param2 t1Param3 snowdepth snow.
Proof.
  unfold soil_temperature. intro H.
  repeat match type of H with
  | match ?x with _ => _ end = _ => destruct x eqn:?; try discriminate
  | (let '(_, _) := ?x in _) = _ => destruct x eqn:?
  end.
  injection H as <-. cbn [surfaceTemp_out]. apply upd_same.
Qed.

(** C5.  T1 follows the three-branch definition: under snow
    ([snowdepth > 0]) it is [surface_temperature_under_snow(airTemp, snow)],
    which is 0 for [snow = 0], -2 for [snow > 0] and [airTemp >= 0], and
    [0.3 * airTemp * max(-0.15 * snow + 1, 0) - 2] for [snow > 0] and
    [airTemp < 0]; without snow it is
    [airTemp + t1Param1 * pet * (1 - aet / pet) * (1 - biomass / bmLimiter)]
    for [biomass <= bmLimiter] (with [pet > 0]) and
    [airTemp + t1Param2 * (biomass - bmLimiter) / t1Param3] otherwise. *)
Theorem surface_T1_three_branches (airTemp pet aet biomass bmLimiter
    t1Param1 t1Param2 t1Param3 snowdepth snow : Q) :
  let T1 := surface_T1 tSoilAvg0 airTemp pet aet biomass bmLimiter
              t1Param1 t1Param2 t1Param3 snowdepth snow in
  let under_snow := surface_temperature_under_snow tSoilAvg0 airTemp snow in
  (0 < snowdepth -> T1 = under_snow)
  /\ (snow == 0 -> under_snow == 0)
  /\ (0 < snow -> 0 <= airTemp -> under_snow == - (2))
  /\ (0 < snow -> airTemp < 0 ->
        under_snow
        == (3 # 10) * airTemp * fmax (- (15 # 100) * snow + 1) 0 - 2)
  /\ (snowdepth <= 0 -> biomass <= bmLimiter -> 0 < pet ->
        T1 == airTemp
              + t1Param1 * pet * (1 - aet / pet) * (1 - biomass / bmLimiter))
  /\ (snowdepth <= 0 -> bmLimiter < biomass ->
        T1 == airTemp + t1Param2 * (biomass - bmLimiter) / t1Param3).
Proof.
  intros T1 under_snow. subst T1 under_snow.
  unfold surface_T1, surface_temperature_under_snow.
  repeat split.
  - intro H. apply GT_true in H. now rewrite H.
  - intro H. apply Qeq_bool_iff in H. now rewrite H.
  - intros Hs Ha.
    assert (E0 : Qeq_bool snow 0 = false) by (apply (EQ_false snow 0); lra).
    apply Qltb_true in Hs. apply Qle_bool_iff in Ha.
    rewrite E0, Hs, Ha. reflexivity.
  - intros Hs Ha.
    assert (E0 : Qeq_bool snow 0 = false) by (apply (EQ_false snow 0); lra).
    assert (E1 : Qle_bool 0 airTemp = false) by (now apply Qle_bool_false).
    apply Qltb_true in Hs. apply Qltb_true in Ha.
    rewrite E0, Hs, E1, Ha. cbn [andb]. ring.
  - intros Hs Hb _. apply GT_false in Hs. apply LE_true in Hb.
    rewrite Hs, Hb. reflexivity.
  - intros Hs Hb. apply GT_false in Hs. apply LE_false in Hb.
    rewrite Hs, Hb. unfold Qdiv. ring.
Qed.

End Grid.

(** The dry still day of the spec (no snow, biomass 100 under the limiter
    300, [pet = 0.3], [aet = 0.1], air at 15 C), the same day with biomass
    600, and a day at -10 C under 1 cm of snow water. *)
Lemma surface_T1_three_branches_witness :
  surface_T1 0 15 (3 # 10) (1 # 10) 100 300 15 (- (4)) 600 0 0
  == 15 + 15 * (3 # 10) * (1 - (1 # 10) / (3 # 10)) * (1 - 100 / 300)
  /\ surface_T1 0 15 (3 # 10) (1 # 10) 600 300 15 (- (4)) 600 0 0
     == 15 + - (4) * (600 - 300) / 600
  /\ surface_T1 0 (- (10)) (3 # 10) (1 # 10) 100 300 15 (- (4)) 600 5 1
     = surface_temperature_under_snow 0 (- (10)) 1
  /\ surface_temperature_under_snow 0 (- (10)) 1
     == (3 # 10) * - (10) * fmax (- (15 # 100) * 1 + 1) 0 - 2
  /\ surface_temperature_under_snow 0 3 1 == - (2)
  /\ surface_temperature_under_snow 0 3 0 == 0.
Proof.
  split; [|split; [|split; [|split; [|split]]]].
  - destruct (surface_T1_three_branches 0 15 (3 # 10) (1 # 10) 100 300 15
                (- (4)) 600 0 0) as (_ & _ & _ & _ & H & _).
    apply H; [discriminate | discriminate | reflexivity].
  - destruct (surface_T1_three_branches 0 15 (3 # 10) (1 # 10) 600 300 15
                (- (4)) 600 0 0) as (_ & _ & _ & _ & _ & H).
    apply H; [discriminate | reflexivity].
  - destruct (surface_T1_three_branches 0 (- (10)) (3 # 10) (1 # 10) 100 300
                15 (- (4)) 600 5 1) as (H & _).
    apply H. reflexivity.
  - destruct (surface_T1_three_branches 0 (- (10)) (3 # 10) (1 # 10) 100 300
                15 (- (4)) 600 5 1) as (_ & _ & _ & H & _).
    apply H; reflexivity.
  - destruct (surface_T1_three_branches 0 3 (3 # 10) (1 # 10) 100 300
                15 (- (4)) 600 5 1) as (_ & _ & H & _).
    apply H; [reflexivity | discriminate].
  - destruct (surface_T1_three_branches 0 3 (3 # 10) (1 # 10) 100 300
                15 (- (4)) 600 5 0) as (_ & H & _).
    apply H. reflexivity.
Defined.

(** The boundary values the unit test of the repository checks. *)
Example surface_temperature_under_snow_values :
  surface_temperature_under_snow 0 10 0 == 0
  /\ surface_temperature_under_snow 0 0 1 == - (2)
  /\ surface_temperature_under_snow 0 (- (10)) 1 == - (455 # 100)
  /\ surface_temperature_under_snow 0 0 (67 # 10) == - (2).
Proof. repeat split; vm_compute; reflexivity. Qed.

End SurfaceFacts.

(* ================================================================= *)
(** ** Markov weather generator *)

Module MarkovFacts.

Import Markov.

Lemma temp_correct_wetdry_ordered (tmax tmin rain cfmax_wet cfmax_dry
    cfmin_wet cfmin_dry : Q) :
  dle (snd (temp_correct_wetdry tmax tmin rain
              cfmax_wet cfmax_dry cfmin_wet cfmin_dry))
      (fst (temp_correct_wetdry tmax tmin rain
              cfmax_wet cfmax_dry cfmin_wet cfmin_dry)).
Proof.
  unfold temp_correct_wetdry.
  destruct (GT rain 0); cbn; apply fmin_le_l.
Qed.

(** The correction keeps a maximum that is not a number, and returns a
    minimum that is one. *)
Lemma temp_correct_wetdry_nan (tmin rain cfmax_wet cfmax_dry
    cfmin_wet cfmin_dry : Q) :
  fst (temp_correct_wetdry NaN tmin rain
         cfmax_wet cfmax_dry cfmin_wet cfmin_dry) = NaN
  /\ exists b,
       snd (temp_correct_wetdry NaN tmin rain
              cfmax_wet cfmax_dry cfmin_wet cfmin_dry) = Num b.
Proof.
  unfold temp_correct_wetdry.
  destruct (GT rain 0); cbn; (split; [reflexivity | eexists; reflexivity]).
Qed.

Section Generator.

Variable rng : Type.
Variable RandNorm : Q -> Q -> rng -> Q * rng.
Variable RandUni : rng -> Q * rng.
Variable sqrt : Q -> Q.
Variable doy2week : nat -> nat.
Variable RealF : Q -> Q.

Local Abbreviation mvnorm := (mvnorm rng RandNorm sqrt).
Local Abbreviation SW_MKV_today :=
  (SW_MKV_today rng RandNorm RandUni sqrt doy2week RealF).
Local Abbreviation vc10_squared := (vc10_squared sqrt).

(** With a variance of the maximum that is not negative the draw is made
    of numbers, and ordered. *)
Lemma mvnorm_ordered (wTmax wTmin wTmax_var wTmin_var wT_covar : Q) (g : rng) :
  0 <= wTmax_var ->
  match mvnorm wTmax wTmin wTmax_var wTmin_var wT_covar g with
  | Some (tmax, tmin, _) =>
      (exists a b, tmax = Num a /\ tmin = Num b /\ b <= a)
      /\ vc10_squared wTmax_var wT_covar <= wTmin_var
  | None => wTmin_var < vc10_squared wTmax_var wT_covar
  end.
Proof.
  intro Hvar.
  unfold Markov.mvnorm, Markov.vc10_squared, dsqrt.
  destruct (RandNorm 0 1 g) as [z1 g1].
  destruct (RandNorm 0 1 g1) as [z2 g2].
  apply LT_false in Hvar. rewrite Hvar. cbv zeta.
  set (sd := sqrt wTmax_var).
  assert (Hvc : (if dGT sd 0 then ddiv wT_covar sd else Num 0)
                = Num (if GT sd 0 then wT_covar / sd else 0)).
  { cbn. destruct (GT sd 0); reflexivity. }
  rewrite Hvc. set (vc10 := if GT sd 0 then wT_covar / sd else 0).
  cbn [dmul dGT dEQ dsub].
  destruct (GT (vc10 * vc10) wTmin_var) eqn:E.
  - now apply GT_true in E.
  - apply GT_false in E. split; [|exact E].
    assert (Hvc11 : exists c,
              (if EQ wTmin_var (vc10 * vc10) then Num 0
               else match LT (wTmin_var - vc10 * vc10) 0 with
                    | true => NaN
                    | false => Num (sqrt (wTmin_var - vc10 * vc10))
                    end) = Num c).
    { destruct (EQ wTmin_var (vc10 * vc10)); [eexists; reflexivity|].
      destruct (LT (wTmin_var - vc10 * vc10) 0) eqn:El.
      - apply LT_true in El. lra.
      - eexists. reflexivity. }
    destruct Hvc11 as [c ->]. cbn.
    eexists. eexists. split; [reflexivity|]. split; [reflexivity|].
    apply fmin_le_l.
Qed.

(** With a negative variance of the maximum its standard deviation is
    NaN: the covariance term is dropped, the check passes whenever the
    variance of the minimum is not negative, and the draw returns NaN for
    the maximum beside a number for the minimum. *)
Lemma mvnorm_negative_variance (wTmax wTmin wTmax_var wTmin_var wT_covar : Q)
    (g : rng) :
  wTmax_var < 0 -> 0 <= wTmin_var ->
  exists b g',
    mvnorm wTmax wTmin wTmax_var wTmin_var wT_covar g = Some (NaN, Num b, g').
Proof.
  intros Hvar Hmin.
  unfold Markov.mvnorm, dsqrt.
  destruct (RandNorm 0 1 g) as [z1 g1].
  destruct (RandNorm 0 1 g1) as [z2 g2].
  apply LT_true in Hvar. rewrite Hvar. cbn.
  assert (E : GT (0 * 0) wTmin_var = false) by (apply GT_false; lra).
  rewrite E.
  destruct (EQ wTmin_var (0 * 0)).
  - cbn. eexists. eexists. reflexivity.
  - assert (El : LT (wTmin_var - 0 * 0) 0 = false) by (apply LT_false; lra).
    rewrite El. cbn. eexists. eexists. reflexivity.
Qed.

Lemma SW_MKV_today_cases (doy0 : nat) (rain0 : Q) (m : SW_MARKOV) (g : rng) :
  let week := doy2week (doy0 + 1) in
  0 <= v_cov m week 0%nat 0%nat ->
  match SW_MKV_today doy0 rain0 m g with
  | Some r =>
      (exists a b, tmax r = Num a /\ tmin r = Num b /\ b <= a)
      /\ vc10_squared (v_cov m week 0%nat 0%nat) (v_cov m week 1%nat 0%nat)
         <= v_cov m week 1%nat 1%nat
  | None =>
      v_cov m week 1%nat 1%nat
      < vc10_squared (v_cov m week 0%nat 0%nat) (v_cov m week 1%nat 0%nat)
  end.
Proof.
  intros week Hvar. unfold Markov.SW_MKV_today.
  destruct (RandUni g) as [p g1]. cbv zeta.
  set (rg := if LE (RealF p) _ then _ else _).
  destruct rg as [rain1 g2].
  set (m' := if GT rain1 0 then count_ppt_event m else m).
  assert (Hu : u_cov m' = u_cov m) by (subst m'; now destruct (GT rain1 0)).
  assert (Hv : v_cov m' = v_cov m) by (subst m'; now destruct (GT rain1 0)).
  fold week. rewrite Hu, Hv.
  pose proof (mvnorm_ordered (u_cov m week 0%nat) (u_cov m week 1%nat)
                (v_cov m week 0%nat 0%nat) (v_cov m week 1%nat 1%nat)
                (v_cov m week 1%nat 0%nat) g2 Hvar) as H.
  destruct (mvnorm _ _ _ _ _ g2) as [[[tmax1 tmin1] g3]|]; [|exact H].
  destruct H as [(a & b & -> & -> & Hab) Hcov].
  pose proof (temp_correct_wetdry_ordered a b rain1
                (cfxw m' week) (cfxd m' week) (cfnw m' week) (cfnd m' week)) as H2.
  destruct (temp_correct_wetdry _ _ _ _ _ _ _) as [tmax2 tmin2] eqn:Et.
  cbn [fst snd] in H2. cbn [tmax tmin].
  split; [|exact Hcov].
  destruct tmax2 as [a2|], tmin2 as [b2|]; cbn in H2; try contradiction.
  exists a2, b2. repeat split; first [reflexivity | exact H2].
Qed.

(** With a covariance matrix that passes the check the generator does
    return a day of weather. *)
Lemma SW_MKV_today_returns (doy0 : nat) (rain0 : Q) (m : SW_MARKOV) (g : rng) :
  let week := doy2week (doy0 + 1) in
  0 <= v_cov m week 0%nat 0%nat ->
  vc10_squared (v_cov m week 0%nat 0%nat) (v_cov m week 1%nat 0%nat)
  <= v_cov m week 1%nat 1%nat ->
  exists r, SW_MKV_today doy0 rain0 m g = Some r /\ dle (tmin r) (tmax r).
Proof.
  intros week Hvar Hcov.
  pose proof (SW_MKV_today_cases doy0 rain0 m g Hvar) as H.
  fold week in H.
  destruct (SW_MKV_today doy0 rain0 m g) as [r|].
  - exists r. split; [reflexivity|].
    destruct H as [(a & b & -> & -> & Hab) _]. exact Hab.
  - lra.
Qed.

(** C9, as amended.  Whatever the day, the draws and the parameters with
    a variance of the maximum temperature that is not negative, [mvnorm]
    either stops on the fatal covariance check or returns numbers with
    [tmin <= tmax]; [temp_correct_wetdry] returns [tmin <= tmax] for
    numbers; and so [SW_MKV_today] either stops on the same fatal check
    or returns numbers with [tmin <= tmax]. *)
Theorem SW_MKV_today_ordered :
  (forall wTmax wTmin wTmax_var wTmin_var wT_covar g,
     0 <= wTmax_var ->
     match mvnorm wTmax wTmin wTmax_var wTmin_var wT_covar g with
     | Some (tmax, tmin, _) => dle tmin tmax
     | None => wTmin_var < vc10_squared wTmax_var wT_covar
     end)
  /\ (forall (tmax tmin : Q) rain cfmax_wet cfmax_dry cfmin_wet cfmin_dry,
        dle (snd (temp_correct_wetdry tmax tmin rain
                    cfmax_wet cfmax_dry cfmin_wet cfmin_dry))
            (fst (temp_correct_wetdry tmax tmin rain
                    cfmax_wet cfmax_dry cfmin_wet cfmin_dry)))
  /\ (forall doy0 rain0 m g,
        let week := doy2week (doy0 + 1) in
        0 <= v_cov m week 0%nat 0%nat ->
        match SW_MKV_today doy0 rain0 m g with
        | Some r => dle (tmin r) (tmax r)
        | None =>
            v_cov m week 1%nat 1%nat
            < vc10_squared (v_cov m week 0%nat 0%nat) (v_cov m week 1%nat 0%nat)
        end).
Proof.
  split; [|split].
  - intros wTmax wTmin wTmax_var wTmin_var wT_covar g Hvar.
    pose proof (mvnorm_ordered wTmax wTmin wTmax_var wTmin_var wT_covar g
                  Hvar) as H.
    destruct (mvnorm wTmax wTmin wTmax_var wTmin_var wT_covar g)
      as [[[t1 t2] ?]|]; [|exact H].
    destruct H as [(a & b & -> & -> & Hab) _]. exact Hab.
  - apply temp_correct_wetdry_ordered.
  - intros doy0 rain0 m g week Hvar.
    pose proof (SW_MKV_today_cases doy0 rain0 m g Hvar) as H.
    fold week in H.
    destruct (SW_MKV_today doy0 rain0 m g) as [r|]; [|exact H].
    destruct H as [(a & b & -> & -> & Hab) _]. exact Hab.
Qed.

End Generator.

(** A wet day after a wet day: the draw for the minimum, 10 + 3 * 4 = 22,
    is capped at the maximum 20 + 2 * 0 = 20 by [mvnorm], and the wet-day
    correction, which lowers the maximum to 19 and would raise the minimum
    to 23, caps it again. *)
Example SW_MKV_today_capped :
  match SW_MKV_today (list Q) draw (draw 0 1) sqrt_table (fun d => (d / 7)%nat)
          (fun x => x) 0 1 markov_example [1 # 2; 0; 0; 4] with
  | Some (mkToday _ (Num a) (Num b) rain1 m _) =>
      a == 19 /\ b == 19 /\ rain1 == 1 /\ ppt_events m = 1%nat
  | _ => False
  end.
Proof. vm_compute. repeat split; reflexivity. Qed.

(** The amended statement on the day of the example. *)
Lemma SW_MKV_today_ordered_witness :
  0 <= v_cov markov_example 0%nat 0%nat 0%nat
  /\ match SW_MKV_today (list Q) draw (draw 0 1) sqrt_table
            (fun d => (d / 7)%nat) (fun x => x) 0 1 markov_example
            [1 # 2; 0; 0; 4] with
     | Some r => dle (tmin r) (tmax r)
     | None => False
     end.
Proof.
  assert (Hvar : 0 <= v_cov markov_example
                        ((fun d => (d / 7)%nat) (0 + 1)%nat) 0%nat 0%nat)
    by (vm_compute; discriminate).
  split; [vm_compute; discriminate|].
  destruct (SW_MKV_today_ordered (list Q) draw (draw 0 1) sqrt_table
              (fun d => (d / 7)%nat) (fun x => x)) as (_ & _ & H).
  specialize (H 0%nat 1 markov_example [1 # 2; 0; 0; 4] Hvar).
  destruct (SW_MKV_today (list Q) draw (draw 0 1) sqrt_table
              (fun d => (d / 7)%nat) (fun x => x) 0 1 markov_example
              [1 # 2; 0; 0; 4]) as [r|] eqn:E; [exact H|].
  vm_compute in E. discriminate E.
Defined.

(** A covariance file whose first week gives the variance -4 to the
    maximum temperature passes [SW_MKV_setup]: the values are only checked
    to be finite.  On a day of that week the standard deviation is NaN,
    no fatal error is raised, the maximum returned is NaN and the minimum
    a number: [tmin <= tmax] does not hold. *)
Lemma SW_MKV_today_negative_variance :
  match
    SW_MKV_setup 7 1 (list Q) (fun _ g => g)
      (Some [mkProbLine 5 1 1 0 1 0])
      (Some [mkCovLine 11 1 20 10 (- (4)) 0 0 9 (- (1)) (1 # 2) 3 (- (1 # 2))])
      markov_example [1 # 2; 0; 0; 4]
  with
  | Some (m, g) =>
      match SW_MKV_today (list Q) draw (draw 0 1) sqrt_table
              (fun d => (d / 7)%nat) (fun x => x) 0 1 m g with
      | Some r =>
          tmax r = NaN /\ (exists b, tmin r = Num b)
          /\ ~ dle (tmin r) (tmax r)
      | None => False
      end
  | None => False
  end.
Proof.
  vm_compute. split; [reflexivity|]. split; [eexists; reflexivity|].
  intro H. exact H.
Qed.

End MarkovFacts.

(* ================================================================= *)
(** ** Infiltration and percolation *)

Module SweepFacts.

Import SoilWater.

Lemma down_from_S (n : nat) : down_from (S n) = S n :: down_from n.
Proof.
  unfold down_from. rewrite (seq_S (S n) 0), rev_app_distr. reflexivity.
Qed.

Lemma down_from_0 : down_from 0 = [0%nat].
Proof. reflexivity. Qed.

Lemma in_down_from (n j : nat) : In j (down_from n) <-> (j <= n)%nat.
Proof.
  unfold down_from. rewrite <- in_rev, in_seq. lia.
Qed.

Lemma for_down_S {S : Type} (n : nat) (body : S -> nat -> S) (s : S) :
  for_down (Datatypes.S n) body s = for_down n body (body s (Datatypes.S n)).
Proof. unfold for_down. now rewrite down_from_S. Qed.

Lemma for_down_0 {S : Type} (body : S -> nat -> S) (s : S) :
  for_down 0 body s = body s 0%nat.
Proof. reflexivity. Qed.

Lemma for_down_last {S : Type} (n : nat) (body : S -> nat -> S) (s : S) :
  for_down n body s = body (for_down_to_1 n body s) 0%nat.
Proof.
  unfold for_down, for_down_to_1, down_from.
  cbn [seq rev]. now rewrite fold_left_app.
Qed.

(** Invariants of a loop over a list of indices. *)
Lemma fold_left_inv {S : Type} (P : S -> Prop) (body : S -> nat -> S)
    (l : list nat) (s : S) :
  P s ->
  (forall s j, In j l -> P s -> P (body s j)) ->
  P (fold_left body l s).
Proof.
  revert s. induction l as [|j l IH]; intros s H0 Hstep.
  - exact H0.
  - cbn [fold_left]. apply IH.
    + apply Hstep; [now left | exact H0].
    + intros s' j' Hj. apply Hstep. now right.
Qed.

Section Sweep.

Variable pool : Q -> Q -> Q.
Variable swcsat : arr.

Local Abbreviation step := (push_upwards pool swcsat).

Lemma push_upwards_standing_pos (s : flow_state) (j : nat) :
  (0 < j)%nat -> standingWater (step s j) = standingWater s.
Proof.
  intro Hj. unfold push_upwards.
  destruct (GT (swc s j) (swcsat j)); [|reflexivity].
  apply Nat.ltb_lt in Hj. now rewrite Hj.
Qed.

Lemma push_upwards_drainout (s : flow_state) (j : nat) :
  drainout (step s j) = drainout s.
Proof.
  unfold push_upwards.
  destruct (GT (swc s j) (swcsat j)); [|reflexivity].
  destruct (0 <? j)%nat; reflexivity.
Qed.

(** One iteration touches the cells [j] and [j - 1] of [swc] only. *)
Lemma push_upwards_swc_other (s : flow_state) (j k : nat) :
  k <> j -> k <> (j - 1)%nat -> swc (step s j) k = swc s k.
Proof.
  intros H1 H2. unfold push_upwards.
  destruct (GT (swc s j) (swcsat j)); [|reflexivity].
  destruct (0 <? j)%nat; cbn [swc];
    rewrite ?upd_other by assumption; reflexivity.
Qed.

(** After its iteration a cell is not above saturation. *)
Lemma push_upwards_swc_self (s : flow_state) (j : nat) :
  swc (step s j) j <= swcsat j.
Proof.
  unfold push_upwards.
  destruct (GT (swc s j) (swcsat j)) eqn:E.
  - destruct (Nat.ltb_spec 0 j) as [Hj|Hj]; cbn [swc].
    + rewrite upd_other by lia. rewrite upd_same. lra.
    + rewrite upd_same. lra.
  - now apply GT_false in E.
Qed.

(** No iteration lowers a cell below the smaller of its content and its
    saturation. *)
Lemma push_upwards_swc_floor (s : flow_state) (j k : nat) (lo : Q) :
  lo <= swc s k -> (k = j -> lo <= swcsat k) -> lo <= swc (step s j) k.
Proof.
  intros Hk Hs. unfold push_upwards.
  destruct (GT (swc s j) (swcsat j)) eqn:E; [|exact Hk].
  apply GT_true in E.
  destruct (Nat.ltb_spec 0 j) as [Hj|Hj]; cbn [swc].
  - destruct (Nat.eq_dec k (j - 1)) as [->|H1].
    + rewrite upd_same, upd_other by lia. lra.
    + rewrite upd_other by assumption.
      destruct (Nat.eq_dec k j) as [->|H2].
      * rewrite upd_same. specialize (Hs eq_refl). lra.
      * now rewrite upd_other.
  - destruct (Nat.eq_dec k j) as [->|H2].
    + rewrite upd_same. specialize (Hs eq_refl). lra.
    + now rewrite upd_other.
Qed.

Lemma for_down_swc_above (n : nat) (s : flow_state) (k : nat) :
  (n < k)%nat -> swc (for_down n step s) k = swc s k.
Proof.
  revert s. induction n as [|n IH]; intros s Hk.
  - rewrite for_down_0. apply push_upwards_swc_other; lia.
  - rewrite for_down_S, IH by lia. apply push_upwards_swc_other; lia.
Qed.

(** After the sweep no visited cell is above saturation. *)
Lemma for_down_saturation (n : nat) (s : flow_state) (k : nat) :
  (k <= n)%nat -> swc (for_down n step s) k <= swcsat k.
Proof.
  revert s. induction n as [|n IH]; intros s Hk.
  - replace k with 0%nat by lia. rewrite for_down_0.
    apply push_upwards_swc_self.
  - rewrite for_down_S.
    destruct (Nat.eq_dec k (S n)) as [->|Hne].
    + rewrite for_down_swc_above by lia. apply push_upwards_swc_self.
    + apply IH. lia.
Qed.

Lemma for_down_floor (n m : nat) (lo : arr) (s : flow_state) :
  (forall k, (k < m)%nat -> lo k <= swcsat k) ->
  (forall k, (k < m)%nat -> lo k <= swc s k) ->
  forall k, (k < m)%nat -> lo k <= swc (for_down n step s) k.
Proof.
  intros Hsat H0. unfold for_down.
  apply (fold_left_inv (fun s => forall k, (k < m)%nat -> lo k <= swc s k)).
  - exact H0.
  - intros s' j _ Hs k Hk. apply push_upwards_swc_floor; auto.
Qed.

Lemma for_down_to_1_standing (n : nat) (s : flow_state) :
  standingWater (for_down_to_1 n step s) = standingWater s.
Proof.
  unfold for_down_to_1.
  apply (fold_left_inv (fun s' => standingWater s' = standingWater s)).
  - reflexivity.
  - intros s' j Hj Hs. rewrite push_upwards_standing_pos; [exact Hs|].
    apply in_rev, in_seq in Hj. lia.
Qed.

(** The last iteration: layer 0 keeps at most its saturation and the
    excess goes to the standing-water pool. *)
Lemma push_upwards_surface (s : flow_state) :
  let excess := fmax 0 (swc s 0%nat - swcsat 0%nat) in
  swc (step s 0%nat) 0%nat == swc s 0%nat - excess
  /\ (standingWater (step s 0%nat) = standingWater s /\ excess == 0
      \/ standingWater (step s 0%nat) = pool (standingWater s) (swc s 0%nat - swcsat 0%nat)
         /\ excess = swc s 0%nat - swcsat 0%nat /\ 0 < excess).
Proof.
  unfold push_upwards.
  destruct (GT (swc s 0%nat) (swcsat 0%nat)) eqn:E.
  - apply GT_true in E. cbn [Nat.ltb Nat.leb swc standingWater].
    rewrite upd_same.
    destruct (fmax_spec 0 (swc s 0%nat - swcsat 0%nat)) as [[H ->]|[H ->]];
      [|lra].
    split; [lra|]. right. repeat split; lra.
  - apply GT_false in E.
    destruct (fmax_spec 0 (swc s 0%nat - swcsat 0%nat)) as [[H ->]|[H ->]].
    + split; [lra|]. left. split; [reflexivity | lra].
    + split; [lra|]. left. split; [reflexivity | lra].
Qed.

End Sweep.

End SweepFacts.

Module StandingWaterFacts.

Import SoilWater SweepFacts.

Section Flow.

Variable lyrFrozen : nat -> nat.
Variable exp : Q -> Q.

Local Abbreviation infiltrate_water_high := (infiltrate_water_high lyrFrozen).
Local Abbreviation infiltrate_water_low := (infiltrate_water_low lyrFrozen exp).
Local Abbreviation high_before_surface := (high_before_surface lyrFrozen).
Local Abbreviation low_before_surface := (low_before_surface lyrFrozen exp).

Lemma saturated_percolation_standing (nlyrs : nat) (swcfc impermeability : arr)
    (s : flow_state) (i : nat) :
  standingWater (saturated_percolation lyrFrozen nlyrs swcfc impermeability s i)
  = standingWater s.
Proof.
  unfold saturated_percolation. destruct (i <? nlyrs - 1)%nat; reflexivity.
Qed.

Lemma unsaturated_percolation_standing (nlyrs : nat) (sdrainpar sdraindpth : Q)
    (swcfc width swcmin impermeability : arr) (s : flow_state) (i : nat) :
  standingWater (unsaturated_percolation lyrFrozen exp nlyrs sdrainpar
                   sdraindpth swcfc width swcmin impermeability s i)
  = standingWater s.
Proof.
  unfold unsaturated_percolation. destruct (i <? nlyrs - 1)%nat; reflexivity.
Qed.

Lemma low_before_surface_standing (s : flow_state) (nlyrs : nat)
    (sdrainpar sdraindpth : Q)
    (swcfc width swcmin swcsat impermeability : arr) :
  standingWater (low_before_surface s nlyrs sdrainpar sdraindpth
                   swcfc width swcmin swcsat impermeability)
  = standingWater s.
Proof.
  unfold SoilWater.low_before_surface. rewrite for_down_to_1_standing.
  apply (for_up_ind (fun _ s' => standingWater s' = standingWater s));
    [lia | reflexivity |].
  intros i s' _ Hs. now rewrite unsaturated_percolation_standing.
Qed.

Lemma high_before_surface_standing (s : flow_state) (pptleft : Q) (nlyrs : nat)
    (swcfc swcsat impermeability : arr) :
  standingWater (high_before_surface s pptleft nlyrs swcfc swcsat impermeability)
  = 0.
Proof.
  unfold SoilWater.high_before_surface. rewrite for_down_to_1_standing.
  apply (for_up_ind (fun _ s' => standingWater s' = 0));
    [lia | reflexivity |].
  intros i s' _ Hs. now rewrite saturated_percolation_standing.
Qed.

(** C10.  [infiltrate_water_high] overwrites the standing-water pool: its
    result does not depend on the incoming [*standingWater], and on return
    the pool holds exactly the excess over saturation taken out of layer 0
    by the last iteration of the upward sweep.  [infiltrate_water_low] adds
    that excess to the incoming pool. *)
Theorem standing_water_assigned_high_accumulated_low :
  (forall s pptleft nlyrs swcfc swcsat impermeability,
     let r := infiltrate_water_high s pptleft nlyrs swcfc swcsat impermeability in
     let b := high_before_surface s pptleft nlyrs swcfc swcsat impermeability in
     (forall w, infiltrate_water_high
                  (mkFlow (swc s) (drain s) (drainout s) w)
                  pptleft nlyrs swcfc swcsat impermeability = r)
     /\ standingWater r == fmax 0 (swc b 0%nat - swcsat 0%nat)
     /\ swc r 0%nat == swc b 0%nat - standingWater r)
  /\ (forall s nlyrs sdrainpar sdraindpth swcfc width swcmin swcsat impermeability,
        let r := infiltrate_water_low s nlyrs sdrainpar sdraindpth
                   swcfc width swcmin swcsat impermeability in
        let b := low_before_surface s nlyrs sdrainpar sdraindpth
                   swcfc width swcmin swcsat impermeability in
        standingWater r
        == standingWater s + fmax 0 (swc b 0%nat - swcsat 0%nat)
        /\ swc r 0%nat == swc b 0%nat - (standingWater r - standingWater s)).
Proof.
  split.
  - intros s pptleft nlyrs swcfc swcsat impermeability r b.
    split; [intro w; reflexivity|].
    assert (Hr : r = push_upwards (fun _ push => push) swcsat b 0%nat)
      by (subst r b; unfold SoilWater.infiltrate_water_high;
          now rewrite for_down_last).
    pose proof (high_before_surface_standing s pptleft nlyrs swcfc swcsat
                  impermeability) as Hb. fold b in Hb.
    destruct (push_upwards_surface (fun _ push => push) swcsat b)
      as [H0 [[H1 H2]|[H1 [H2 H3]]]];
      rewrite <- Hr in *; rewrite H0, H1.
    + rewrite Hb. lra.
    + rewrite H2. lra.
  - intros s nlyrs sdrainpar sdraindpth swcfc width swcmin swcsat
           impermeability r b.
    assert (Hr : r = push_upwards (fun old push => old + push) swcsat b 0%nat)
      by (subst r b; unfold SoilWater.infiltrate_water_low;
          now rewrite for_down_last).
    pose proof (low_before_surface_standing s nlyrs sdrainpar sdraindpth
                  swcfc width swcmin swcsat impermeability) as Hb. fold b in Hb.
    destruct (push_upwards_surface (fun old push => old + push) swcsat b)
      as [H0 [[H1 H2]|[H1 [H2 H3]]]];
      rewrite <- Hr in *; rewrite H0, H1, Hb.
    + lra.
    + rewrite H2. lra.
Qed.

End Flow.

(** A storm on one saturated layer, with water already standing: the
    high-flow routine forgets the old pool, the low-flow routine keeps it. *)
Example standing_water_storm :
  let s := mkFlow (buffer [2]) (buffer [0]) 0 (7 # 10) in
  standingWater
    (infiltrate_water_high (fun _ => 0%nat) s 1 1 (buffer [1]) (buffer [2])
       (buffer [1])) == 1
  /\ standingWater
       (infiltrate_water_low (fun _ => 0%nat) (fun _ => 1)
          (mkFlow (buffer [3]) (buffer [0]) 0 (7 # 10)) 1 0 0
          (buffer [1]) (buffer [10]) (buffer [0]) (buffer [2]) (buffer [1]))
     == 17 # 10.
Proof. split; vm_compute; reflexivity. Qed.

End StandingWaterFacts.

Module PercolationFacts.

Import SoilWater SweepFacts.

Lemma unit_scaling (c x : Q) :
  0 <= c <= 1 -> 0 <= x -> 0 <= c * x /\ c * x <= x.
Proof. intros [H0 H1] Hx. split; nra. Qed.

Lemma unit_product (a b : Q) :
  0 <= a <= 1 -> 0 <= b <= 1 -> 0 <= a * b <= 1.
Proof. intros [? ?] [? ?]. split; nra. Qed.

(** The saturated drainage of a layer is non-negative and never takes the
    layer below field capacity. *)
Lemma saturated_drain_bounds (k imp x : Q) :
  0 <= k <= 1 -> 0 <= imp <= 1 ->
  let d := fmax 0 (k * (1 - imp) * x) in
  0 <= d /\ (x <= 0 -> d == 0) /\ (0 <= x -> d <= x).
Proof.
  intros Hk Hi d. subst d.
  assert (Hc : 0 <= k * (1 - imp) <= 1) by (apply unit_product; lra).
  set (c := k * (1 - imp)) in *.
  destruct (fmax_spec 0 (c * x)) as [[H ->]|[H ->]].
  - split; [lra|]. split; [nra|]. intro Hx.
    destruct (unit_scaling c x Hc Hx). lra.
  - split; [lra|]. split; [lra|]. intro Hx. nra.
Qed.

(** The unsaturated drainage of a layer is non-negative and never takes
    the layer below its minimum. *)
Lemma unsaturated_drain_bounds (k imp avail pot : Q) :
  0 <= k <= 1 -> 0 <= imp <= 1 -> 0 <= avail -> 0 <= pot ->
  let d := k * (1 - imp) * fmin avail pot in
  0 <= d /\ d <= avail.
Proof.
  intros Hk Hi Ha Hp d. subst d.
  assert (Hc : 0 <= k * (1 - imp) <= 1) by (apply unit_product; lra).
  set (c := k * (1 - imp)) in *.
  assert (Hm : 0 <= fmin avail pot /\ fmin avail pot <= avail)
    by (destruct (fmin_spec avail pot) as [[? ->]|[? ->]]; lra).
  destruct Hm as [Hm0 Hm1].
  destruct (unit_scaling c (fmin avail pot) Hc Hm0). lra.
Qed.

Lemma frozen_factor (fr : nat) :
  0 <= (if Nat.eqb fr 1 then 1 # 100 else 1) <= 1.
Proof. destruct (Nat.eqb fr 1); lra. Qed.

Section Flow.

Variable lyrFrozen : nat -> nat.
Variable exp : Q -> Q.
Variable nlyrs : nat.
Variables swcfc swcmin swcsat impermeability : arr.

(** A lower profile [lo] kept by the percolation loops. *)
Variable lo : arr.

Local Abbreviation above := (above nlyrs lo).

Hypothesis imperm_unit :
  forall k, (k < nlyrs)%nat -> 0 <= impermeability k <= 1.

Lemma saturated_percolation_floor (s : flow_state) (i : nat) :
  (forall k, (k < nlyrs)%nat -> lo k <= swcfc k) ->
  (i < nlyrs)%nat ->
  above (swc s) ->
  above (swc (saturated_percolation lyrFrozen nlyrs swcfc impermeability s i)).
Proof.
  intros Hfc Hi Hs k Hk. unfold saturated_percolation.
  pose proof (saturated_drain_bounds
                (if Nat.eqb (lyrFrozen i) 1 then 1 # 100 else 1)
                (impermeability i) (swc s i - swcfc i)
                (frozen_factor _) (imperm_unit i Hi)) as (Hd0 & Hd1 & Hd2).
  cbv zeta in Hd0, Hd1, Hd2.
  set (d := fmax 0 _) in *.
  assert (Hkeep : lo i <= swc s i - d).
  { destruct (Qlt_le_dec (swc s i - swcfc i) 0) as [Hx|Hx].
    - rewrite Hd1 by lra. specialize (Hs i Hi). lra.
    - specialize (Hd2 Hx). specialize (Hfc i Hi). lra. }
  destruct (i <? nlyrs - 1)%nat; cbn [swc].
  - destruct (Nat.eq_dec k i) as [->|H1].
    + rewrite upd_same. rewrite upd_other by lia. exact Hkeep.
    + rewrite upd_other by assumption.
      destruct (Nat.eq_dec k (i + 1)) as [->|H2].
      * rewrite upd_same. specialize (Hs (i + 1)%nat Hk). lra.
      * rewrite upd_other by assumption. now apply Hs.
  - destruct (Nat.eq_dec k i) as [->|H1].
    + now rewrite upd_same.
    + rewrite upd_other by assumption. now apply Hs.
Qed.

Lemma unsaturated_percolation_floor (sdrainpar sdraindpth : Q) (width : arr)
    (s : flow_state) (i : nat) :
  0 <= sdrainpar -> (forall x, 0 <= exp x) ->
  (forall k, (k < nlyrs)%nat -> lo k <= swcmin k) ->
  (i < nlyrs)%nat ->
  above (swc s) ->
  above (swc (unsaturated_percolation lyrFrozen exp nlyrs sdrainpar sdraindpth
                swcfc width swcmin impermeability s i)).
Proof.
  intros Hpar Hexp Hmin Hi Hs k Hk. unfold unsaturated_percolation.
  set (d := if LE (swc s i) (swcmin i) then 0 else _).
  assert (Hd : 0 <= d /\ lo i <= swc s i - d).
  { subst d. destruct (LE (swc s i) (swcmin i)) eqn:E.
    - specialize (Hs i Hi). lra.
    - apply LE_false in E.
      set (pot := if GT (swc s i) (swcfc i) then sdrainpar else _).
      assert (Hpot : 0 <= pot).
      { subst pot. destruct (GT (swc s i) (swcfc i)); [exact Hpar|].
        apply Qmult_le_0_compat; [exact Hpar | apply Hexp]. }
      assert (Hav : fmax 0 (swc s i - swcmin i) == swc s i - swcmin i)
        by (destruct (fmax_spec 0 (swc s i - swcmin i)) as [[? ->]|[? ->]]; lra).
      pose proof (unsaturated_drain_bounds
                    (if Nat.eqb (lyrFrozen i) 1 then 1 # 100 else 1)
                    (impermeability i) (fmax 0 (swc s i - swcmin i)) pot
                    (frozen_factor _) (imperm_unit i Hi)) as Hb.
      cbv zeta in Hb. destruct Hb as [Hb0 Hb1]; [lra | exact Hpot |].
      specialize (Hmin i Hi). split; lra. }
  destruct Hd as [Hd0 Hd1].
  destruct (i <? nlyrs - 1)%nat; cbn [swc].
  - destruct (Nat.eq_dec k i) as [->|H1].
    + rewrite upd_same. rewrite upd_other by lia. exact Hd1.
    + rewrite upd_other by assumption.
      destruct (Nat.eq_dec k (i + 1)) as [->|H2].
      * rewrite upd_same. specialize (Hs (i + 1)%nat Hk). lra.
      * rewrite upd_other by assumption. now apply Hs.
  - destruct (Nat.eq_dec k i) as [->|H1].
    + rewrite upd_same.
      destruct (fmax_spec d 0) as [[? ->]|[? ->]]; lra.
    + rewrite upd_other by assumption. now apply Hs.
Qed.

End Flow.

End PercolationFacts.

Module RemovalFacts.

Import SoilWater.

Section Removal.

Variable lyrFrozen : nat -> nat.
Variable SWCbulk2SWPmatric : Q -> Q -> nat -> Q.
Variable fractionVolBulk_gravel : nat -> Q.

Local Abbreviation remove_from_soil :=
  (remove_from_soil lyrFrozen SWCbulk2SWPmatric fractionVolBulk_gravel).

Lemma quotient_nonneg (a b : Q) : 0 <= a -> 0 < b -> 0 <= a / b.
Proof. intros Ha Hb. apply Qle_shift_div_l; [exact Hb | lra]. Qed.

Lemma sum_nonneg (f : arr) (n : nat) :
  (forall i, (i < n)%nat -> 0 <= f i) ->
  0 <= for_up 0 n (fun acc i => acc + f i) 0.
Proof.
  intro Hf.
  apply (for_up_ind (fun _ acc => 0 <= acc)); [lia | lra |].
  intros i acc Hi Hacc. assert (0 <= f i) by (apply Hf; lia). lra.
Qed.

(** With non-negative coefficients and demand and a positive water
    potential, evaporation and transpiration lower no layer below the
    smaller of its content and its minimum, and raise none. *)
Lemma remove_from_soil_band (s : removal_state) (nlyrs : nat) (coeff : arr)
    (rate : Q) (swcmin lo hi : arr) :
  0 <= rate ->
  (forall i, (i < nlyrs)%nat -> 0 <= coeff i) ->
  (forall i, (i < nlyrs)%nat ->
     0 < SWCbulk2SWPmatric (fractionVolBulk_gravel i) (r_swc s i) i) ->
  (forall i, (i < nlyrs)%nat -> lo i <= swcmin i) ->
  (forall i, (i < nlyrs)%nat -> lo i <= r_swc s i <= hi i) ->
  forall i, (i < nlyrs)%nat ->
    lo i <= r_swc (remove_from_soil s nlyrs coeff rate swcmin) i <= hi i.
Proof.
  intros Hrate Hcoeff Hswp Hlo Hs. unfold SoilWater.remove_from_soil.
  set (swpfrac := fun i : nat =>
         coeff i / SWCbulk2SWPmatric (fractionVolBulk_gravel i) (r_swc s i) i).
  set (sumswp := for_up 0 nlyrs _ 0).
  assert (Hfrac : forall i, (i < nlyrs)%nat -> 0 <= swpfrac i)
    by (intros i Hi; apply quotient_nonneg; [now apply Hcoeff | now apply Hswp]).
  assert (Hsum : 0 <= sumswp) by (now apply sum_nonneg).
  destruct (ZRO sumswp) eqn:Ez; [exact Hs|].
  apply ZRO_false in Ez.
  assert (Hpos : 0 < sumswp).
  { destruct (Qlt_le_dec 0 sumswp) as [H|H]; [exact H|].
    exfalso. apply Ez. lra. }
  apply (for_up_ind
           (fun _ s' => forall i, (i < nlyrs)%nat -> lo i <= r_swc s' i <= hi i));
    [lia | exact Hs |].
  intros i s' Hi Hs' k Hk.
  destruct (Nat.eqb (lyrFrozen i) 0); [|now apply Hs'].
  cbn [r_swc].
  destruct (Nat.eq_dec k i) as [->|Hne].
  - rewrite upd_same.
    assert (Hq : 0 <= swpfrac i / sumswp * rate).
    { apply Qmult_le_0_compat; [|exact Hrate].
      apply quotient_nonneg; [apply Hfrac; lia | exact Hpos]. }
    unfold swpfrac in Hq.
    set (q := _ / sumswp * rate) in *. clearbody q.
    specialize (Hs' i Hk). specialize (Hlo i Hk).
    split_fm; lra.
  - rewrite upd_other by assumption. now apply Hs'.
Qed.

End Removal.

End RemovalFacts.

Module BoundsFacts.

Import SoilWater SweepFacts.

(** C3 fails on the code.  The upward sweep of [infiltrate_water_high] and
    of [infiltrate_water_low] starts at [j = nlyrs], one past the deepest
    layer: it reads [swc[nlyrs]] and [swcsat[nlyrs]] and, when the cell
    found there exceeds the other, writes [swc[nlyrs]], [drain[nlyrs - 1]]
    and [swc[nlyrs - 1]].  On two layers with buffers that hold 5 and 3 in
    the cell after the profile, a dry call moves 2 units into the deepest
    layer from outside the profile. *)
Theorem oversaturation_sweep_starts_past_profile :
  (forall nlyrs,
     hd 0%nat (down_from nlyrs) = nlyrs
     /\ In nlyrs (down_from nlyrs)
     /\ down_from nlyrs <> rev (seq 0 nlyrs))
  /\ (let s := mkFlow (buffer [1; 1; 5]) (buffer [0; 0]) 0 0 in
      let s' := mkFlow (buffer [1; 1; 0]) (buffer [0; 0]) 0 0 in
      let high s :=
        infiltrate_water_high (fun _ => 0%nat) s 0 2
          (buffer [10; 10]) (buffer [10; 10; 3]) (buffer [0; 0]) in
      let low s :=
        infiltrate_water_low (fun _ => 0%nat) (fun _ => 1) s 2 0 0
          (buffer [10; 10]) (buffer [10; 10]) (buffer [0; 0])
          (buffer [10; 10; 3]) (buffer [0; 0]) in
      (swc (high s) 2%nat == 3 /\ swc (high s) 1%nat == 3
       /\ drain (high s) 1%nat == - (2) /\ swc (high s') 1%nat == 1)
      /\ (swc (low s) 2%nat == 3 /\ swc (low s) 1%nat == 3
          /\ drain (low s) 1%nat == - (2) /\ swc (low s') 1%nat == 1)).
Proof.
  split.
  - intro nlyrs. repeat split.
    + destruct nlyrs; [reflexivity | now rewrite down_from_S].
    + apply in_down_from. lia.
    + intro H. apply (f_equal (@length nat)) in H.
      unfold down_from in H. rewrite !length_rev, !length_seq in H. lia.
  - cbv zeta. repeat split; vm_compute; reflexivity.
Qed.

Section Band.

Variable lyrFrozen : nat -> nat.
Variable exp : Q -> Q.
Variable SWCbulk2SWPmatric : Q -> Q -> nat -> Q.
Variable fractionVolBulk_gravel : nat -> Q.
Variable nlyrs : nat.
Variables swcmin swcfc swcwp swcsat impermeability : arr.

Hypothesis profile : data_model nlyrs swcmin swcfc swcwp swcsat impermeability.
Hypothesis min_below_sat : forall i, (i < nlyrs)%nat -> swcmin i <= swcsat i.

Local Abbreviation lo := (band_floor swcmin).

Lemma imperm_unit : forall k, (k < nlyrs)%nat -> 0 <= impermeability k <= 1.
Proof. intros k Hk. now destruct (profile k Hk) as (_ & _ & _ & H). Qed.

Lemma band_of_floor_and_saturation (a : arr) :
  SoilWater.above nlyrs lo a ->
  (forall k, (k < nlyrs)%nat -> a k <= swcsat k) ->
  in_band nlyrs swcmin swcsat a.
Proof.
  intros Hlo Hhi i Hi. split.
  - apply (Hlo i Hi).
  - specialize (Hhi i Hi). unfold eps. lra.
Qed.

Lemma lo_below_sat : forall k, (k < nlyrs)%nat -> lo k <= swcsat k.
Proof. intros k Hk. specialize (min_below_sat k Hk). unfold band_floor, eps. lra. Qed.

Lemma infiltrate_water_high_band (s : flow_state) (pptleft : Q) :
  0 <= pptleft ->
  in_band nlyrs swcmin swcsat (swc s) ->
  in_band nlyrs swcmin swcsat
    (swc (infiltrate_water_high lyrFrozen s pptleft nlyrs swcfc swcsat
            impermeability)).
Proof.
  intros Hp Hs. unfold infiltrate_water_high.
  apply band_of_floor_and_saturation.
  - unfold SoilWater.above. apply for_down_floor; [exact lo_below_sat|].
    apply (for_up_ind (fun _ s' => SoilWater.above nlyrs lo (swc s')));
      [lia | |].
    + intros k Hk. cbn [swc]. destruct (Hs k Hk) as [Hk1 _]. unfold band_floor.
      destruct (Nat.eq_dec k 0) as [->|Hne].
      * rewrite upd_same. lra.
      * now rewrite upd_other.
    + intros i s' Hi Hs'.
      apply PercolationFacts.saturated_percolation_floor;
        [exact imperm_unit | | lia | exact Hs'].
      intros k Hk. destruct (profile k Hk) as (_ & H & _). unfold band_floor, eps. lra.
  - intros k Hk. apply for_down_saturation. lia.
Qed.

Lemma infiltrate_water_low_band (s : flow_state) (sdrainpar sdraindpth : Q)
    (width : arr) :
  0 <= sdrainpar -> (forall x, 0 <= exp x) ->
  in_band nlyrs swcmin swcsat (swc s) ->
  in_band nlyrs swcmin swcsat
    (swc (infiltrate_water_low lyrFrozen exp s nlyrs sdrainpar sdraindpth
            swcfc width swcmin swcsat impermeability)).
Proof.
  intros Hp Hexp Hs. unfold infiltrate_water_low.
  apply band_of_floor_and_saturation.
  - unfold SoilWater.above. apply for_down_floor; [exact lo_below_sat|].
    apply (for_up_ind (fun _ s' => SoilWater.above nlyrs lo (swc s')));
      [lia | |].
    + intros k Hk. now destruct (Hs k Hk).
    + intros i s' Hi Hs'.
      apply PercolationFacts.unsaturated_percolation_floor;
        [exact imperm_unit | exact Hp | exact Hexp | | lia | exact Hs'].
      intros k Hk. unfold band_floor, eps. lra.
  - intros k Hk. apply for_down_saturation. lia.
Qed.

Lemma remove_from_soil_in_band (s : removal_state) (coeff : arr) (rate : Q) :
  0 <= rate ->
  (forall i, (i < nlyrs)%nat -> 0 <= coeff i) ->
  (forall i, (i < nlyrs)%nat ->
     0 < SWCbulk2SWPmatric (fractionVolBulk_gravel i) (r_swc s i) i) ->
  in_band nlyrs swcmin swcsat (r_swc s) ->
  in_band nlyrs swcmin swcsat
    (r_swc (remove_from_soil lyrFrozen SWCbulk2SWPmatric
              fractionVolBulk_gravel s nlyrs coeff rate swcmin)).
Proof.
  intros Hrate Hcoeff Hswp Hs i Hi.
  apply (RemovalFacts.remove_from_soil_band lyrFrozen SWCbulk2SWPmatric
           fractionVolBulk_gravel s nlyrs coeff rate swcmin
           lo (fun k => swcsat k + eps)); trivial.
  intros k Hk. unfold band_floor, eps. lra.
Qed.

End Band.

(** C1, as amended.  On a profile that satisfies the listed constraints
    and has [swcmin <= swcsat], and from a state within
    [[swcmin - 1e-9, swcsat + 1e-9]], each of [infiltrate_water_high] (with
    non-negative throughfall), [remove_from_soil] (with non-negative demand
    and coefficients and a positive water potential in every layer) and
    [infiltrate_water_low] (with a non-negative drainage parameter) returns
    a state within the same band.  Nothing is said of
    [hydraulic_redistribution]. *)
Theorem soil_water_band_kept (lyrFrozen : nat -> nat) (exp : Q -> Q)
    (SWCbulk2SWPmatric : Q -> Q -> nat -> Q) (fractionVolBulk_gravel : nat -> Q)
    (nlyrs : nat) (swcmin swcfc swcwp swcsat impermeability : arr) :
  data_model nlyrs swcmin swcfc swcwp swcsat impermeability ->
  (forall i, (i < nlyrs)%nat -> swcmin i <= swcsat i) ->
  (forall s pptleft,
     0 <= pptleft ->
     in_band nlyrs swcmin swcsat (swc s) ->
     in_band nlyrs swcmin swcsat
       (swc (infiltrate_water_high lyrFrozen s pptleft nlyrs swcfc swcsat
               impermeability)))
  /\ (forall s coeff rate,
        0 <= rate ->
        (forall i, (i < nlyrs)%nat -> 0 <= coeff i) ->
        (forall i, (i < nlyrs)%nat ->
           0 < SWCbulk2SWPmatric (fractionVolBulk_gravel i) (r_swc s i) i) ->
        in_band nlyrs swcmin swcsat (r_swc s) ->
        in_band nlyrs swcmin swcsat
          (r_swc (remove_from_soil lyrFrozen SWCbulk2SWPmatric
                    fractionVolBulk_gravel s nlyrs coeff rate swcmin)))
  /\ (forall s sdrainpar sdraindpth width,
        0 <= sdrainpar -> (forall x, 0 <= exp x) ->
        in_band nlyrs swcmin swcsat (swc s) ->
        in_band nlyrs swcmin swcsat
          (swc (infiltrate_water_low lyrFrozen exp s nlyrs sdrainpar sdraindpth
                  swcfc width swcmin swcsat impermeability))).
Proof.
  intros Hprofile Hsat. split; [|split].
  - intros. eapply infiltrate_water_high_band; eassumption.
  - intros. apply remove_from_soil_in_band; assumption.
  - intros. eapply infiltrate_water_low_band; eassumption.
Qed.

(** Closed comparisons of rationals. *)
Ltac qdecide := vm_compute; first [reflexivity | discriminate].

(** Two layers at field capacity: a storm of 3 cm, then a demand of
    0.2 cm, then slow drainage. *)
Lemma soil_water_band_kept_witness :
  let swcmin := buffer [1 # 10; 1 # 10] in
  let swcfc := buffer [1 # 2; 1 # 2] in
  let swcsat := buffer [1; 1] in
  let imperm := buffer [0; 0] in
  in_band 2 swcmin swcsat
    (swc (infiltrate_water_high (fun _ => 0%nat)
            (mkFlow (buffer [1 # 2; 1 # 2]) (buffer []) 0 0) 3 2
            swcfc swcsat imperm))
  /\ in_band 2 swcmin swcsat
       (r_swc (remove_from_soil (fun _ => 0%nat) (fun _ w _ => 1 / w)
                 (fun _ => 0) (mkRemoval (buffer [1; 1]) (buffer []) 0)
                 2 (buffer [1 # 2; 1 # 2]) (2 # 10) swcmin))
  /\ in_band 2 swcmin swcsat
       (swc (infiltrate_water_low (fun _ => 0%nat) (fun _ => 1)
               (mkFlow (buffer [9 # 10; 9 # 10]) (buffer []) 0 0) 2
               (2 # 100) 1 swcfc (buffer [10; 10]) swcmin swcsat imperm)).
Proof.
  cbv zeta.
  assert (Hprofile : data_model 2 (buffer [1 # 10; 1 # 10])
                       (buffer [1 # 2; 1 # 2]) (buffer [2 # 10; 2 # 10])
                       (buffer [1; 1]) (buffer [0; 0]))
    by (intros i Hi; destruct i as [|[|i]]; [| |lia]; repeat split; qdecide).
  assert (Hsat : forall i, (i < 2)%nat ->
                   buffer [1 # 10; 1 # 10] i <= buffer [1; 1] i)
    by (intros i Hi; destruct i as [|[|i]]; [| |lia]; qdecide).
  destruct (soil_water_band_kept (fun _ => 0%nat) (fun _ => 1)
              (fun _ w _ => 1 / w) (fun _ => 0) 2 _ _ _ _ _ Hprofile Hsat)
    as (Hhigh & Hremove & Hlow).
  split; [|split].
  - apply Hhigh; [qdecide|].
    intros i Hi; destruct i as [|[|i]]; [| |lia]; split; qdecide.
  - apply Hremove; [qdecide | | |].
    + intros i Hi; destruct i as [|[|i]]; [| |lia]; qdecide.
    + intros i Hi; destruct i as [|[|i]]; [| |lia]; qdecide.
    + intros i Hi; destruct i as [|[|i]]; [| |lia]; split; qdecide.
  - apply Hlow; [qdecide | intro x; qdecide |].
    intros i Hi; destruct i as [|[|i]]; [| |lia]; split; qdecide.
Defined.

(** The side conditions of the theorem are needed.  One layer with
    [swcmin = swcfc = 1/2] and [swcsat = 1], at [swc = 1/2]: a negative
    throughfall and a negative demand each take the layer out of the band,
    and so does a negative drainage parameter on two such layers. *)
Example band_needs_signs :
  let band := in_band 1 (buffer [1 # 2]) (buffer [1]) in
  let s := mkFlow (buffer [1 # 2]) (buffer [0]) 0 0 in
  band (swc s)
  /\ ~ band (swc (infiltrate_water_high (fun _ => 0%nat) s (- (1 # 10)) 1
                    (buffer [1 # 2]) (buffer [1]) (buffer [0])))
  /\ ~ band (r_swc (remove_from_soil (fun _ => 0%nat) (fun _ _ _ => 1)
                      (fun _ => 0) (mkRemoval (buffer [1 # 2]) (buffer [0]) 0)
                      1 (buffer [1]) (- (1)) (buffer [1 # 2])))
  /\ (let band2 := in_band 2 (buffer [1 # 2; 1 # 2]) (buffer [1; 1]) in
      band2 (buffer [3 # 4; 1 # 2])
      /\ ~ band2 (swc (infiltrate_water_low (fun _ => 0%nat) (fun _ => 1)
                         (mkFlow (buffer [3 # 4; 1 # 2]) (buffer [0; 0]) 0 0)
                         2 (- (1)) 0
                         (buffer [1 # 2; 1 # 2]) (buffer [10; 10])
                         (buffer [1 # 2; 1 # 2]) (buffer [1; 1])
                         (buffer [0; 0])))).
Proof.
  cbv zeta. assert (Hi : (0 < 1)%nat) by lia.
  split; [|split; [|split]].
  - intros i Hi'. destruct i; [split; qdecide | lia].
  - intro H. destruct (H 0%nat Hi) as [H1 _]. vm_compute in H1. now apply H1.
  - intro H. destruct (H 0%nat Hi) as [_ H1]. vm_compute in H1. now apply H1.
  - split.
    + intros i Hi'. destruct i as [|[|i]]; [| |lia]; split; qdecide.
    + intro H. assert (Hi2 : (1 < 2)%nat) by lia.
      destruct (H 1%nat Hi2) as [H1 _]. vm_compute in H1. now apply H1.
Qed.

(** So is [swcmin <= swcsat], which the listed constraints do not imply:
    with saturation two tolerances under the minimum, a layer one tolerance
    under the minimum is within the band and is cut back to saturation. *)
Example band_needs_min_below_sat :
  let swcmin := buffer [1] in
  let swcsat := buffer [999999998 # 1000000000] in
  let s := mkFlow (buffer [999999999 # 1000000000]) (buffer [0]) 0 0 in
  data_model 1 swcmin (buffer [1]) (buffer [0]) swcsat (buffer [0])
  /\ in_band 1 swcmin swcsat (swc s)
  /\ ~ in_band 1 swcmin swcsat
        (swc (infiltrate_water_high (fun _ => 0%nat) s 0 1
                (buffer [1]) swcsat (buffer [0]))).
Proof.
  cbv zeta. assert (Hi : (0 < 1)%nat) by lia.
  split; [|split].
  - intros i Hi'. destruct i; [repeat split; qdecide | lia].
  - intros i Hi'. destruct i; [split; qdecide | lia].
  - intro H. destruct (H 0%nat Hi) as [H1 _]. vm_compute in H1. now apply H1.
Qed.

(** C1, as stated, fails: [hydraulic_redistribution] caps what a layer
    loses, not what it gains.  Three layers, the middle one at saturation
    and the deepest one drier: the middle layer is handed 1/40 cm and ends
    above saturation. *)
Lemma hydraulic_redistribution_leaves_band :
  let swcmin := buffer [0; 0; 0] in
  let swcfc := buffer [1; 1; 1] in
  let swcwp := buffer [1 # 2; 1 # 2; 1 # 10] in
  let swcsat := buffer [1; 1; 1] in
  let impermeability := buffer [0; 0; 0] in
  let swc0 := buffer [1; 1; 1 # 2] in
  let r := hydraulic_redistribution (fun _ => 0%nat) (fun x _ => x)
             (fun _ w _ => 1 / w) (fun _ => 0)
             swc0 swcwp (buffer [0; 1 # 2; 1 # 2]) 3 (24 # 100) 1 1
             (fun _ _ => 0) (buffer []) 1 in
  data_model 3 swcmin swcfc swcwp swcsat impermeability
  /\ in_band 3 swcmin swcsat swc0
  /\ fst r 1%nat == 41 # 40
  /\ ~ in_band 3 swcmin swcsat (fst r).
Proof.
  cbv zeta. split; [|split; [|split]].
  - intros i Hi. destruct i as [|[|[|i]]]; [| | |lia]; repeat split; qdecide.
  - intros i Hi. destruct i as [|[|[|i]]]; [| | |lia]; split; qdecide.
  - qdecide.
  - intro H. assert (Hi : (1 < 3)%nat) by lia.
    destruct (H 1%nat Hi) as [_ H1]. vm_compute in H1. now apply H1.
Qed.

End BoundsFacts.

(* ================================================================= *)
(** ** Hydraulic redistribution *)

Module HydredFacts.

Import SoilWater.

(** The entries of an antisymmetric square matrix add up to zero. *)
Lemma antisymmetric_total (m : mat) (n : nat) :
  (forall i j, (i < n)%nat -> (j < n)%nat -> m i j == - m j i) ->
  sumQ (fun i => sumQ (m i) n) n == 0.
Proof.
  intro Hanti.
  assert (H : forall k, (k <= n)%nat -> sumQ (fun i => sumQ (m i) k) k == 0).
  { induction k as [|k IH]; intro Hk.
    - reflexivity.
    - rewrite sumQ_S.
      rewrite (sumQ_ext _ (fun i => sumQ (m i) k + m i k))
        by (intros; now rewrite sumQ_S).
      rewrite sumQ_plus, IH by lia. rewrite sumQ_S.
      assert (Hd : m k k == 0).
      { pose proof (Hanti k k) as Hkk. assert (m k k == - m k k) by (apply Hkk; lia). lra. }
      assert (Hc : sumQ (fun i => m i k) k + sumQ (m k) k == 0).
      { rewrite <- sumQ_plus. apply sumQ_zero. intros i Hi.
        rewrite (Hanti i k) by lia. ring. }
      lra. }
  apply H. lia.
Qed.

Section Pairs.

Variable lyrFrozen : nat -> nat.
Variable powe : Q -> Q -> Q.
Variable SWCbulk2SWPmatric : Q -> Q -> nat -> Q.
Variable fractionVolBulk_gravel : nat -> Q.
Variables swc0 swcwp lyrRootCo : arr.
Variable nlyrs : nat.
Variables maxCondroot swp50 shapeCond : Q.

Local Abbreviation pair_active :=
  (pair_active lyrFrozen SWCbulk2SWPmatric fractionVolBulk_gravel swc0 swcwp).
Local Abbreviation pair_flux :=
  (pair_flux powe SWCbulk2SWPmatric fractionVolBulk_gravel swc0 lyrRootCo
     maxCondroot swp50 shapeCond).
Local Abbreviation hydredmat_before :=
  (hydredmat_before lyrFrozen powe SWCbulk2SWPmatric fractionVolBulk_gravel
     swc0 swcwp lyrRootCo nlyrs maxCondroot swp50 shapeCond).
Local Abbreviation pair_entry :=
  (pair_entry lyrFrozen powe SWCbulk2SWPmatric fractionVolBulk_gravel
     swc0 swcwp lyrRootCo maxCondroot swp50 shapeCond).

Lemma pair_entry_antisymmetric (a b : nat) :
  pair_entry a b == - pair_entry b a.
Proof.
  unfold pair_entry.
  rewrite (Nat.eqb_sym b a).
  destruct (Nat.eqb_spec a 0), (Nat.eqb_spec b 0), (Nat.eqb_spec a b);
    cbn [orb]; try reflexivity.
  destruct (Nat.ltb_spec a b), (Nat.ltb_spec b a); try lia;
    match goal with |- context [if ?c then _ else _] => destruct c end;
    ring.
Qed.

Lemma mupd_zero (m : mat) (i j a b : nat) :
  m a b = 0 -> mupd m i j 0 a b = 0.
Proof. unfold mupd. intro H. now destruct (_ && _). Qed.

Lemma hydredmat_top_zero (m : mat) (a b : nat) :
  (a < nlyrs)%nat -> (b < nlyrs)%nat -> a = 0%nat \/ b = 0%nat ->
  hydredmat_top nlyrs m a b = 0.
Proof.
  intros Ha Hb H0. unfold hydredmat_top.
  apply (for_up_ind
           (fun I m' => forall a b, (a < I)%nat -> (b < I)%nat ->
                          a = 0%nat \/ b = 0%nat -> m' a b = 0));
    [lia | intros; lia | | exact Ha | exact Hb | exact H0].
  clear. intros i m _ IH a b Ha Hb H0. unfold mupd.
  destruct (Nat.eqb_spec a 0), (Nat.eqb_spec b i), (Nat.eqb_spec a i),
    (Nat.eqb_spec b 0); cbn [andb]; try reflexivity; apply IH; lia.
Qed.

Lemma pair_entry_upper (i j : nat) :
  (1 <= i < j)%nat ->
  pair_entry i j = if pair_active i j then pair_flux i j else 0.
Proof.
  intro H. unfold pair_entry.
  destruct (Nat.eqb_spec i 0), (Nat.eqb_spec j 0), (Nat.eqb_spec i j);
    try lia. cbn [orb].
  destruct (Nat.ltb_spec i j); [reflexivity | lia].
Qed.

Lemma pair_entry_lower (i j : nat) :
  (1 <= i < j)%nat ->
  pair_entry j i = if pair_active i j then - pair_flux i j else 0.
Proof.
  intro H. unfold pair_entry.
  destruct (Nat.eqb_spec i 0), (Nat.eqb_spec j 0), (Nat.eqb_spec j i);
    try lia. cbn [orb].
  destruct (Nat.ltb_spec j i); [lia | reflexivity].
Qed.

Lemma pair_entry_zero (a b : nat) :
  a = 0%nat \/ b = 0%nat \/ a = b -> pair_entry a b = 0.
Proof.
  intro H. unfold pair_entry.
  destruct (Nat.eqb_spec a 0), (Nat.eqb_spec b 0), (Nat.eqb_spec a b);
    try reflexivity; lia.
Qed.

Ltac nat_cases :=
  repeat match goal with
  | |- context [Nat.eqb ?x ?y] => destruct (Nat.eqb_spec x y)
  | |- context [Nat.ltb ?x ?y] => destruct (Nat.ltb_spec x y)
  end; cbn [andb orb].

(** One iteration of the inner loop writes the cells [(i, j)] and
    [(j, i)]. *)
Lemma pairs_step_cell (i j : nat) (m : mat) (a b : nat) :
  (1 <= i < j)%nat ->
  (if pair_active i j then
     let m' := mupd m i j (pair_flux i j) in
     mupd m' j i (- m' i j)
   else mupd (mupd m j i 0) i j 0) a b
  = if Nat.eqb a j && Nat.eqb b i then pair_entry j i
    else if Nat.eqb a i && Nat.eqb b j then pair_entry i j
    else m a b.
Proof.
  intro H. rewrite (pair_entry_upper i j H), (pair_entry_lower i j H).
  destruct (pair_active i j).
  - cbv zeta. rewrite mupd_same. unfold mupd. reflexivity.
  - unfold mupd. nat_cases; subst; try reflexivity; lia.
Qed.

(** The inner loop writes the cross of [i] and nothing else. *)
Lemma pairs_inner (i : nat) (m1 : mat) (a b : nat) :
  (1 <= i < nlyrs)%nat ->
  for_up (i + 1) nlyrs (fun m j =>
    if pair_active i j then
      let m' := mupd m i j (pair_flux i j) in
      mupd m' j i (- m' i j)
    else mupd (mupd m j i 0) i j 0) m1 a b
  = if on_cross i nlyrs a b then pair_entry a b else m1 a b.
Proof.
  intros Hi. revert a b.
  apply (for_up_ind
           (fun J m => forall a b,
              m a b = if on_cross i J a b then pair_entry a b else m1 a b));
    [lia | |].
  - intros a b. unfold on_cross. nat_cases; try reflexivity; lia.
  - intros j m Hj IH a b.
    rewrite pairs_step_cell by lia. rewrite IH.
    unfold on_cross. nat_cases; subst; try reflexivity; lia.
Qed.

(** The first two loops leave [pair_entry] in every cell of the square. *)
Lemma hydredmat_before_cell (hydredmat0 : mat) (hydred : arr) (a b : nat) :
  (a < nlyrs)%nat -> (b < nlyrs)%nat ->
  hydredmat_before hydredmat0 hydred a b = pair_entry a b.
Proof.
  intros Ha Hb. unfold SoilWater.hydredmat_before, hydredmat_pairs.
  assert (Hn : (1 <= nlyrs)%nat) by lia.
  assert (H : forall a b, (a < nlyrs)%nat -> (b < nlyrs)%nat ->
                (a = 0 \/ b = 0 \/ a < nlyrs \/ b < nlyrs)%nat ->
                snd (for_up 1 nlyrs (fun hm i =>
                  (upd (fst hm) i 0,
                   for_up (i + 1) nlyrs (fun m j =>
                     if pair_active i j then
                       let m' := mupd m i j (pair_flux i j) in
                       mupd m' j i (- m' i j)
                     else mupd (mupd m j i 0) i j 0)
                     (mupd (snd hm) i i 0)))
                  (upd hydred 0 0, hydredmat_top nlyrs hydredmat0)) a b
                = pair_entry a b).
  { apply (for_up_ind
             (fun I hm => forall a b, (a < nlyrs)%nat -> (b < nlyrs)%nat ->
                (a = 0 \/ b = 0 \/ a < I \/ b < I)%nat ->
                snd hm a b = pair_entry a b)); [exact Hn | |].
    - intros a' b' Ha' Hb' H0. cbn [snd].
      rewrite hydredmat_top_zero by (trivial; lia).
      symmetry. apply pair_entry_zero. lia.
    - intros i hm Hi IH a' b' Ha' Hb' H0. cbn [snd].
      rewrite pairs_inner by lia.
      unfold on_cross, mupd.
      nat_cases; subst; try reflexivity;
        try (symmetry; apply pair_entry_zero; lia);
        try (apply IH; lia). }
  apply H; trivial. lia.
Qed.

(** First half of C4.  Before the available-water scaling [hydredmat] is
    antisymmetric over the layers, so its row sums add up to zero. *)
Lemma hydredmat_before_zero_sum (hydredmat0 : mat) (hydred : arr) :
  let m := hydredmat_before hydredmat0 hydred in
  (forall i j, (i < nlyrs)%nat -> (j < nlyrs)%nat -> m i j == - m j i)
  /\ sumQ (fun i => row_sum nlyrs m i) nlyrs == 0.
Proof.
  intro m.
  assert (Hanti : forall i j, (i < nlyrs)%nat -> (j < nlyrs)%nat ->
                    m i j == - m j i).
  { intros i j Hi Hj. subst m. rewrite !hydredmat_before_cell by assumption.
    apply pair_entry_antisymmetric. }
  split; [exact Hanti|].
  apply (antisymmetric_total m nlyrs Hanti).
Qed.

End Pairs.

(** Second half of C4 fails on the code.  The rows are scaled one after
    the other, and scaling a later row also scales its column, that is,
    the gains of rows already dealt with.  Four layers with water
    potential [1 / swc]: layer 1 gives 1/18 to layer 2 and is owed 1/8 by
    layer 3, so its row is left alone; row 3 is then scaled by 0.048 and
    layer 1 receives 3/500 only.  It loses 223/4500 cm net with 1/100 cm
    available and ends below its wilting point. *)
Theorem hydraulic_redistribution_overdraws :
  let swc0 := buffer [1; 1; 2; 1 # 2] in
  let swcwp := buffer [1 # 2; 99 # 100; 1; 49 # 100] in
  let lyrRootCo := buffer [0; 1 # 2; 1 # 4; 1 # 4] in
  let before :=
    hydredmat_before (fun _ => 0%nat) (fun x _ => x) (fun _ w _ => 1 / w)
      (fun _ => 0) swc0 swcwp lyrRootCo 4 (12 # 5) 1 1
      (fun _ _ => 0) (buffer []) in
  let after :=
    hydredmat_after (fun _ => 0%nat) (fun x _ => x) (fun _ w _ => 1 / w)
      (fun _ => 0) swc0 swcwp lyrRootCo 4 (12 # 5) 1 1
      (fun _ _ => 0) (buffer []) in
  let r :=
    hydraulic_redistribution (fun _ => 0%nat) (fun x _ => x)
      (fun _ w _ => 1 / w) (fun _ => 0) swc0 swcwp lyrRootCo 4 (12 # 5) 1 1
      (fun _ _ => 0) (buffer []) 1 in
  let swa1 := fmax 0 (swc0 1%nat - swcwp 1%nat) in
  row_sum 4 before 1 == 5 # 72
  /\ row_sum 4 before 3 == - (5 # 24)
  /\ after 1%nat 3%nat == 3 # 500
  /\ row_sum 4 after 1 == - (223 # 4500)
  /\ swa1 == 1 # 100
  /\ swa1 < - row_sum 4 after 1
  /\ fst r 1%nat == 4277 # 4500
  /\ fst r 1%nat < swcwp 1%nat.
Proof.
  cbv zeta. repeat split; vm_compute; reflexivity.
Qed.

End HydredFacts.

(* ================================================================= *)
(** ** The iteration bound *)

(** The bound on the [while] loops is a device of the embedding: a run
    that ends within a bound ends in the same state within any larger
    one. *)
Module FuelFacts.

Import SoilTemperature.

Lemma while_more_fuel {S : Type} (cond : S -> bool) (body : S -> S)
    (f f' : nat) (s r : S) :
  (f <= f')%nat -> while f cond body s = Some r -> while f' cond body s = Some r.
Proof.
  revert f' s. induction f as [|f IH]; intros f' s Hle H.
  - cbn [while] in H. destruct (cond s) eqn:E; [discriminate|].
    destruct f'; cbn [while]; now rewrite E.
  - destruct f' as [|f']; [lia|]. cbn [while] in *.
    destruct (cond s); [|exact H]. apply IH; [lia | exact H].
Qed.

Lemma for_each_opt_more {S : Type} (l : list nat)
    (body body' : S -> nat -> option S) :
  (forall s i r, body s i = Some r -> body' s i = Some r) ->
  forall s r, for_each_opt l body s = Some r -> for_each_opt l body' s = Some r.
Proof.
  intro Hb. induction l as [|i l IH]; intros s r H.
  - exact H.
  - cbn [for_each_opt] in *. destruct (body s i) as [s1|] eqn:E; [|discriminate].
    rewrite (Hb _ _ _ E). now apply IH.
Qed.

(** Peels one [match] off a hypothesis [match X with ... end = Some r],
    where [X] returns within the smaller bound, and rewrites the goal with
    the value [X] has within the larger one. *)
Ltac more_fuel lemma :=
  match goal with
  | H : match ?X with _ => _ end = Some _ |- _ =>
      let E := fresh "E" in
      destruct X eqn:E; [|discriminate H];
      first [ erewrite lemma by eassumption
            | erewrite lemma; [|eassumption|eassumption] ]
  end.

Section Grid.

Variable interpolation : Q -> Q -> Q -> Q -> Q -> Q.
Variable uninit : nat -> arr.
Variable tSoilAvg0 : Q.
Variables Yesterday Today : nat.

Lemma lyrSoil_to_lyrTemp_more (f f' : nat) (cor : mat) (nlyrSoil : nat)
    (width_Soil var : arr) (nlyrTemp : nat) (width_Temp : Q) (res r : arr) :
  (f <= f')%nat ->
  lyrSoil_to_lyrTemp f cor nlyrSoil width_Soil var nlyrTemp width_Temp res
  = Some r ->
  lyrSoil_to_lyrTemp f' cor nlyrSoil width_Soil var nlyrTemp width_Temp res
  = Some r.
Proof.
  intros Hle H. unfold lyrSoil_to_lyrTemp, for_up_opt in *.
  destruct (for_each_opt _ _ (res, 0%nat)) as [p|] eqn:E; [|discriminate].
  erewrite for_each_opt_more; [exact H | | exact E].
  intros s i x Hx. cbv beta in *.
  destruct (while f _ _ _) eqn:Ew; [|discriminate].
  now rewrite (while_more_fuel _ _ f f' _ _ Hle Ew).
Qed.

Lemma lyrTemp_to_lyrSoil_temperature_more (f f' : nat) (cor : mat)
    (nlyrTemp : nat) (depth_Temp sTempR : arr) (nlyrSoil : nat)
    (depth_Soil width_Soil sTemp r : arr) :
  (f <= f')%nat ->
  lyrTemp_to_lyrSoil_temperature interpolation f cor nlyrTemp depth_Temp
    sTempR nlyrSoil depth_Soil width_Soil sTemp = Some r ->
  lyrTemp_to_lyrSoil_temperature interpolation f' cor nlyrTemp depth_Temp
    sTempR nlyrSoil depth_Soil width_Soil sTemp = Some r.
Proof.
  intros Hle H. unfold lyrTemp_to_lyrSoil_temperature, for_up_opt in *.
  destruct (for_each_opt _ _ (sTemp, 0%nat)) as [p|] eqn:E; [|discriminate].
  erewrite for_each_opt_more; [exact H | | exact E].
  intros s i x Hx. cbv beta in *.
  destruct (while f _ _ _) eqn:Ew; [|discriminate].
  now rewrite (while_more_fuel _ _ f f' _ _ Hle Ew).
Qed.

Lemma lyrSoil_to_lyrTemp_temperature_more (f f' : nat) (nlyrSoil : nat)
    (depth_Soil sTemp : arr) (endTemp : Q) (nlyrTemp : nat)
    (depth_Temp : arr) (maxTempDepth : Q) (sTempR r : arr) :
  (f <= f')%nat ->
  lyrSoil_to_lyrTemp_temperature interpolation uninit f nlyrSoil depth_Soil
    sTemp endTemp nlyrTemp depth_Temp maxTempDepth sTempR = Some r ->
  lyrSoil_to_lyrTemp_temperature interpolation uninit f' nlyrSoil depth_Soil
    sTemp endTemp nlyrTemp depth_Temp maxTempDepth sTempR = Some r.
Proof.
  intros Hle H. unfold lyrSoil_to_lyrTemp_temperature, for_up_opt in *.
  cbv zeta in *.
  destruct (for_each_opt _ _ (sTempR, 0%nat)) as [p|] eqn:E; [|discriminate].
  erewrite for_each_opt_more; [exact H | | exact E].
  intros s i x Hx. cbv beta in *.
  destruct (while f _ _ (snd s)) as [j1|] eqn:Ew1; [|discriminate].
  rewrite (while_more_fuel _ _ f f' _ _ Hle Ew1).
  destruct (while f _ _ (j1 + 1)%nat) eqn:Ew2; [|discriminate].
  now rewrite (while_more_fuel _ _ f f' _ _ Hle Ew2).
Qed.

Lemma soil_temperature_init_cor_more (f f' : nat) (width : arr) (nlyrs : nat)
    (deltaX : Q) (nRgr : nat) (st : ST_RGR_VALUES) (j0 : nat) (r : mat) :
  (f <= f')%nat ->
  soil_temperature_init_cor f width nlyrs deltaX nRgr st j0 = Some r ->
  soil_temperature_init_cor f' width nlyrs deltaX nRgr st j0 = Some r.
Proof.
  intros Hle H. unfold soil_temperature_init_cor, for_up_opt in *.
  destruct (for_each_opt _ _ (mkCor _ _ _ _ _ _ _)) as [p|] eqn:E;
    [|discriminate].
  erewrite for_each_opt_more; [exact H | | exact E].
  intros s i x Hx. cbv beta in *.
  destruct (while f _ _ _) eqn:Ew; [|discriminate].
  now rewrite (while_more_fuel _ _ f f' _ _ Hle Ew).
Qed.

Lemma soil_temperature_init_more (f f' : nat) (bDensity width : arr)
    (surfaceTemp : Q) (oldsTemp : arr) (meanAirTemp : Q) (nlyrs : nat)
    (fc wp : arr) (deltaX theMaxDepth : Q) (nRgr : nat) (g r : globals) :
  (f <= f')%nat ->
  soil_temperature_init interpolation uninit f bDensity width surfaceTemp
    oldsTemp meanAirTemp nlyrs fc wp deltaX theMaxDepth nRgr g = Some r ->
  soil_temperature_init interpolation uninit f' bDensity width surfaceTemp
    oldsTemp meanAirTemp nlyrs fc wp deltaX theMaxDepth nRgr g = Some r.
Proof.
  intros Hle H. unfold soil_temperature_init in *. cbv zeta in *.
  destruct (LT theMaxDepth _); [exact H|].
  more_fuel soil_temperature_init_cor_more.
  more_fuel lyrSoil_to_lyrTemp_more.
  more_fuel lyrSoil_to_lyrTemp_temperature_more.
  more_fuel lyrSoil_to_lyrTemp_more.
  more_fuel lyrSoil_to_lyrTemp_more.
  exact H.
Qed.

Lemma soil_temperature_first_call_more (f f' : nat) (airTemp : Q)
    (swc swc_sat bDensity width oldsTemp surfaceTemp : arr)
    (nlyrs : nat) (fc wp : arr) (meanAirTemp deltaX theMaxDepth : Q)
    (nRgr : nat) (g : globals) (p : arr * globals) :
  (f <= f')%nat ->
  soil_temperature_first_call interpolation uninit Today f airTemp swc
    swc_sat bDensity width oldsTemp surfaceTemp nlyrs fc wp meanAirTemp
    deltaX theMaxDepth nRgr g = Some p ->
  soil_temperature_first_call interpolation uninit Today f' airTemp swc
    swc_sat bDensity width oldsTemp surfaceTemp nlyrs fc wp meanAirTemp
    deltaX theMaxDepth nRgr g = Some p.
Proof.
  intros Hle Hp. unfold soil_temperature_first_call in *. cbv zeta in *.
  destruct (Nat.eqb (soil_temp_init g) 0); [|exact Hp].
  more_fuel soil_temperature_init_more. exact Hp.
Qed.

(** A day that is computed within a bound is computed, with the same
    result, within any larger one. *)
Lemma soil_temperature_more (f f' : nat) (airTemp pet aet biomass : Q)
    (swc swc_sat bDensity width oldsTemp sTemp surfaceTemp : arr)
    (nlyrs : nat) (fc wp : arr)
    (bmLimiter t1Param1 t1Param2 t1Param3 csParam1 csParam2 shParam
     snowdepth meanAirTemp deltaX theMaxDepth : Q) (nRgr : nat) (snow : Q)
    (g : globals) (r : temperature_result) :
  (f <= f')%nat ->
  soil_temperature interpolation uninit tSoilAvg0 Yesterday Today
    f airTemp pet aet biomass swc swc_sat bDensity width oldsTemp sTemp
    surfaceTemp nlyrs fc wp bmLimiter t1Param1 t1Param2 t1Param3
    csParam1 csParam2 shParam snowdepth meanAirTemp deltaX theMaxDepth
    nRgr snow g = Some r ->
  soil_temperature interpolation uninit tSoilAvg0 Yesterday Today
    f' airTemp pet aet biomass swc swc_sat bDensity width oldsTemp sTemp
    surfaceTemp nlyrs fc wp bmLimiter t1Param1 t1Param2 t1Param3
    csParam1 csParam2 shParam snowdepth meanAirTemp deltaX theMaxDepth
    nRgr snow g = Some r.
Proof.
  intros Hle H. unfold soil_temperature in *. cbv zeta in *.
  destruct (soil_temperature_first_call _ _ _ f _ _ _ _ _ _ _ _ _ _ _ _ _ _ _)
    as [[sT g1]|] eqn:E1; [|discriminate].
  rewrite (soil_temperature_first_call_more _ _ _ _ _ _ _ _ _ _ _ _ _ _ _ _ _ _ Hle E1).
  more_fuel lyrSoil_to_lyrTemp_more.
  more_fuel lyrTemp_to_lyrSoil_temperature_more.
  unfold adjust_Tsoil_by_freezing_and_thawing in *. cbn [Nat.eqb] in *.
  exact H.
Qed.

End Grid.

End FuelFacts.

(* ================================================================= *)
(** ** Initialisation of the temperature grid *)

Module InitFacts.

Import SoilTemperature.

(** The first loop of [soil_temperature_init]: regression arrays and
    correspondence matrix cleared over rows [0 .. nRgr]. *)
Lemma init_clear_loop (nlyrs n : nat) (st : ST_RGR_VALUES) :
  let st' :=
    for_up 0 n (fun st i =>
      let st := set_fcR st (upd (fcR st) i 0) in
      let st := set_wpR st (upd (wpR st) i 0) in
      let st := set_bDensityR st (upd (bDensityR st) i 0) in
      let st := set_oldsTempR st (upd (oldsTempR st) i 0) in
      for_up 0 (nlyrs + 1) (fun st j =>
        set_tlyrs_by_slyrs st (mupd (tlyrs_by_slyrs st) i j 0)) st) st in
  (forall k, fcR st' k = if (k <? n)%nat then 0 else fcR st k)
  /\ (forall k, wpR st' k = if (k <? n)%nat then 0 else wpR st k)
  /\ (forall k, bDensityR st' k = if (k <? n)%nat then 0 else bDensityR st k)
  /\ (forall k, oldsTempR st' k = if (k <? n)%nat then 0 else oldsTempR st k)
  /\ (forall r c, tlyrs_by_slyrs st' r c
                  = if (r <? n)%nat && (c <? nlyrs + 1)%nat then 0
                    else tlyrs_by_slyrs st r c)
  /\ depths st' = depths st /\ depthsR st' = depthsR st
  /\ lyrFrozen st' = lyrFrozen st
  /\ oldsFusionPool_actual st' = oldsFusionPool_actual st.
Proof.
  cbv zeta.
  apply (for_up_ind
    (fun n st' =>
       (forall k, fcR st' k = if (k <? n)%nat then 0 else fcR st k)
       /\ (forall k, wpR st' k = if (k <? n)%nat then 0 else wpR st k)
       /\ (forall k, bDensityR st' k = if (k <? n)%nat then 0 else bDensityR st k)
       /\ (forall k, oldsTempR st' k = if (k <? n)%nat then 0 else oldsTempR st k)
       /\ (forall r c, tlyrs_by_slyrs st' r c
                       = if (r <? n)%nat && (c <? nlyrs + 1)%nat then 0
                         else tlyrs_by_slyrs st r c)
       /\ depths st' = depths st /\ depthsR st' = depthsR st
       /\ lyrFrozen st' = lyrFrozen st
       /\ oldsFusionPool_actual st' = oldsFusionPool_actual st)); [lia | |].
  - repeat split; reflexivity.
  - intros i s _ (Hf & Hw & Hb & Ho & Ht & Hd & HdR & Hfr & Hfp).
    set (s4 := set_oldsTempR _ _).
    assert (Hin : forall J,
      let s5 := for_up 0 J (fun st j =>
                  set_tlyrs_by_slyrs st (mupd (tlyrs_by_slyrs st) i j 0)) s4 in
      (forall r c, tlyrs_by_slyrs s5 r c
                   = if Nat.eqb r i && (c <? J)%nat then 0
                     else tlyrs_by_slyrs s4 r c)
      /\ fcR s5 = fcR s4 /\ wpR s5 = wpR s4 /\ bDensityR s5 = bDensityR s4
      /\ oldsTempR s5 = oldsTempR s4 /\ depths s5 = depths s4
      /\ depthsR s5 = depthsR s4 /\ lyrFrozen s5 = lyrFrozen s4
      /\ oldsFusionPool_actual s5 = oldsFusionPool_actual s4).
    { intro J. cbv zeta.
      apply (for_up_ind
        (fun J s5 =>
           (forall r c, tlyrs_by_slyrs s5 r c
                        = if Nat.eqb r i && (c <? J)%nat then 0
                          else tlyrs_by_slyrs s4 r c)
           /\ fcR s5 = fcR s4 /\ wpR s5 = wpR s4 /\ bDensityR s5 = bDensityR s4
           /\ oldsTempR s5 = oldsTempR s4 /\ depths s5 = depths s4
           /\ depthsR s5 = depthsR s4 /\ lyrFrozen s5 = lyrFrozen s4
           /\ oldsFusionPool_actual s5 = oldsFusionPool_actual s4)); [lia | |].
      - repeat split; try reflexivity.
        intros r c. now rewrite andb_false_r.
      - intros j s5 _ (H1 & H2). split; [|exact H2].
        intros r c. cbn [set_tlyrs_by_slyrs tlyrs_by_slyrs]. unfold mupd.
        rewrite H1.
        destruct (Nat.eqb_spec r i), (Nat.eqb_spec c j), (Nat.ltb_spec c j),
          (Nat.ltb_spec c (S j)); cbn [andb]; try reflexivity; lia. }
    destruct (Hin (nlyrs + 1)%nat) as (H1 & H2 & H3 & H4 & H5 & H6 & H7 & H8 & H9).
    cbv zeta in *.
    rewrite H2, H3, H4, H5, H6, H7, H8, H9. subst s4.
    cbn [set_fcR set_wpR set_bDensityR set_oldsTempR fcR wpR bDensityR
         oldsTempR depths depthsR lyrFrozen oldsFusionPool_actual
         tlyrs_by_slyrs] in *.
    repeat split; trivial;
      try (intro k; unfold upd;
           first [rewrite Hf | rewrite Hw | rewrite Hb | rewrite Ho];
           destruct (Nat.eqb_spec k i), (Nat.ltb_spec k i),
             (Nat.ltb_spec k (S i)); try reflexivity; lia).
    intros r c. rewrite H1, Ht.
    destruct (Nat.eqb_spec r i), (Nat.ltb_spec r i), (Nat.ltb_spec r (S i)),
      (Nat.ltb_spec c (nlyrs + 1)); cbn [andb]; try reflexivity; lia.
Qed.

(** The two depth loops. *)
Lemma init_depths_loop (width : arr) (n : nat) (st : ST_RGR_VALUES) :
  let st' :=
    snd (for_up 0 n (fun ast j =>
           let acc := fst ast + width j in
           (acc, set_depths (snd ast) (upd (depths (snd ast)) j acc)))
           (0, st)) in
  (forall k, depths st' k = if (k <? n)%nat then sumQ width (S k) else depths st k)
  /\ depthsR st' = depthsR st /\ fcR st' = fcR st /\ wpR st' = wpR st
  /\ bDensityR st' = bDensityR st /\ oldsTempR st' = oldsTempR st
  /\ tlyrs_by_slyrs st' = tlyrs_by_slyrs st /\ lyrFrozen st' = lyrFrozen st
  /\ oldsFusionPool_actual st' = oldsFusionPool_actual st.
Proof.
  cbv zeta.
  assert (H : let ast := for_up 0 n (fun ast j =>
           let acc := fst ast + width j in
           (acc, set_depths (snd ast) (upd (depths (snd ast)) j acc)))
           (0, st) in
    fst ast = sumQ width n
    /\ (forall k, depths (snd ast) k
                  = if (k <? n)%nat then sumQ width (S k) else depths st k)
    /\ depthsR (snd ast) = depthsR st /\ fcR (snd ast) = fcR st
    /\ wpR (snd ast) = wpR st /\ bDensityR (snd ast) = bDensityR st
    /\ oldsTempR (snd ast) = oldsTempR st
    /\ tlyrs_by_slyrs (snd ast) = tlyrs_by_slyrs st
    /\ lyrFrozen (snd ast) = lyrFrozen st
    /\ oldsFusionPool_actual (snd ast) = oldsFusionPool_actual st).
  { cbv zeta.
    apply (for_up_ind
      (fun n ast =>
         fst ast = sumQ width n
         /\ (forall k, depths (snd ast) k
                       = if (k <? n)%nat then sumQ width (S k) else depths st k)
         /\ depthsR (snd ast) = depthsR st /\ fcR (snd ast) = fcR st
         /\ wpR (snd ast) = wpR st /\ bDensityR (snd ast) = bDensityR st
         /\ oldsTempR (snd ast) = oldsTempR st
         /\ tlyrs_by_slyrs (snd ast) = tlyrs_by_slyrs st
         /\ lyrFrozen (snd ast) = lyrFrozen st
         /\ oldsFusionPool_actual (snd ast) = oldsFusionPool_actual st));
      [lia | |].
    - repeat split; reflexivity.
    - intros j ast _ (Hacc & Hd & Hrest). cbn [fst snd].
      split; [now rewrite sumQ_S, Hacc|]. split; [|exact Hrest].
      intro k. cbn [set_depths depths]. unfold upd. rewrite Hd, Hacc.
      rewrite <- sumQ_S.
      destruct (Nat.eqb_spec k j), (Nat.ltb_spec k j), (Nat.ltb_spec k (S j));
        subst; try reflexivity; lia. }
  apply H.
Qed.

Lemma init_depthsR_loop (deltaX : Q) (n : nat) (st : ST_RGR_VALUES) :
  let st' :=
    snd (for_up 0 n (fun ast i =>
           let acc := fst ast + deltaX in
           (acc, set_depthsR (snd ast) (upd (depthsR (snd ast)) i acc)))
           (0, st)) in
  (forall k, depthsR st' k
             = if (k <? n)%nat then sumQ (fun _ => deltaX) (S k)
               else depthsR st k)
  /\ depths st' = depths st /\ fcR st' = fcR st /\ wpR st' = wpR st
  /\ bDensityR st' = bDensityR st /\ oldsTempR st' = oldsTempR st
  /\ tlyrs_by_slyrs st' = tlyrs_by_slyrs st /\ lyrFrozen st' = lyrFrozen st
  /\ oldsFusionPool_actual st' = oldsFusionPool_actual st.
Proof.
  cbv zeta.
  assert (H : let ast := for_up 0 n (fun ast i =>
           let acc := fst ast + deltaX in
           (acc, set_depthsR (snd ast) (upd (depthsR (snd ast)) i acc)))
           (0, st) in
    fst ast = sumQ (fun _ => deltaX) n
    /\ (forall k, depthsR (snd ast) k
                  = if (k <? n)%nat then sumQ (fun _ => deltaX) (S k)
                    else depthsR st k)
    /\ depths (snd ast) = depths st /\ fcR (snd ast) = fcR st
    /\ wpR (snd ast) = wpR st /\ bDensityR (snd ast) = bDensityR st
    /\ oldsTempR (snd ast) = oldsTempR st
    /\ tlyrs_by_slyrs (snd ast) = tlyrs_by_slyrs st
    /\ lyrFrozen (snd ast) = lyrFrozen st
    /\ oldsFusionPool_actual (snd ast) = oldsFusionPool_actual st).
  { cbv zeta.
    apply (for_up_ind
      (fun n ast =>
         fst ast = sumQ (fun _ => deltaX) n
         /\ (forall k, depthsR (snd ast) k
                       = if (k <? n)%nat then sumQ (fun _ => deltaX) (S k)
                         else depthsR st k)
         /\ depths (snd ast) = depths st /\ fcR (snd ast) = fcR st
         /\ wpR (snd ast) = wpR st /\ bDensityR (snd ast) = bDensityR st
         /\ oldsTempR (snd ast) = oldsTempR st
         /\ tlyrs_by_slyrs (snd ast) = tlyrs_by_slyrs st
         /\ lyrFrozen (snd ast) = lyrFrozen st
         /\ oldsFusionPool_actual (snd ast) = oldsFusionPool_actual st));
      [lia | |].
    - repeat split; reflexivity.
    - intros j ast _ (Hacc & Hd & Hrest). cbn [fst snd].
      split; [now rewrite sumQ_S, Hacc|]. split; [|exact Hrest].
      intro k. cbn [set_depthsR depthsR]. unfold upd. rewrite Hd, Hacc.
      rewrite <- (sumQ_S (fun _ => deltaX)).
      destruct (Nat.eqb_spec k j), (Nat.ltb_spec k j), (Nat.ltb_spec k (S j));
        subst; try reflexivity; lia. }
  apply H.
Qed.

Lemma soil_temperature_init_reset_spec (width : arr) (nlyrs : nat)
    (deltaX : Q) (nRgr : nat) (g : globals) :
  let g' := soil_temperature_init_reset width nlyrs deltaX nRgr g in
  soil_temp_error g' = soil_temp_error g
  /\ reset_state width nlyrs deltaX nRgr g g'.
Proof.
  cbv zeta. unfold soil_temperature_init_reset, reset_state.
  cbn [set_soil_temp_init set_stValues stValues soil_temp_error
       soil_temp_init fusion_pool_init].
  set (st1 := for_up 0 (nRgr + 1) _ (stValues g)).
  destruct (init_clear_loop nlyrs (nRgr + 1) (stValues g))
    as (Hf & Hw & Hb & Ho & Ht & Hd & HdR & Hfr & Hfp).
  cbv zeta in Hf, Hw, Hb, Ho, Ht, Hd, HdR, Hfr, Hfp. fold st1 in Hf, Hw, Hb, Ho, Ht, Hd, HdR, Hfr, Hfp.
  set (st2 := snd (for_up 0 (nlyrs + 1) _ (0, st1))).
  destruct (init_depths_loop width (nlyrs + 1) st1)
    as (Hd2 & HdR2 & Hf2 & Hw2 & Hb2 & Ho2 & Ht2 & Hfr2 & Hfp2).
  cbv zeta in Hd2, HdR2, Hf2, Hw2, Hb2, Ho2, Ht2, Hfr2, Hfp2.
  fold st2 in Hd2, HdR2, Hf2, Hw2, Hb2, Ho2, Ht2, Hfr2, Hfp2.
  destruct (init_depthsR_loop deltaX (nRgr + 1) st2)
    as (HdR3 & Hd3 & Hf3 & Hw3 & Hb3 & Ho3 & Ht3 & Hfr3 & Hfp3).
  cbv zeta in HdR3, Hd3, Hf3, Hw3, Hb3, Ho3, Ht3, Hfr3, Hfp3.
  rewrite Hf3, Hw3, Hb3, Ho3, Ht3, Hfr3, Hfp3, Hd3.
  rewrite Hf2, Hw2, Hb2, Ho2, Ht2, Hfr2, Hfp2.
  repeat split; trivial.
  - intro k. now rewrite Hd2, Hd.
  - intro k. now rewrite HdR3, HdR2, HdR.
Qed.

(** C8, as amended.  When [theMaxDepth] is less than the cumulative depth
    of the [nlyrs >= 1] soil layers, [soil_temperature_init] returns with
    the error flag raised (set to 1 if it was 0, left as it was otherwise)
    and with the latch set, after it has cleared [fcR], [wpR],
    [bDensityR], [oldsTempR] (cells [0 .. nRgr]) and [tlyrs_by_slyrs]
    (rows [0 .. nRgr], columns [0 .. nlyrs]) and rewritten [depths] (cells
    [0 .. nlyrs]) and [depthsR] (cells [0 .. nRgr]); the frozen flags and
    the fusion pool are as before. *)
Theorem soil_temperature_init_fatal
    (interpolation : Q -> Q -> Q -> Q -> Q -> Q) (uninit : nat -> arr)
    (fuel : nat) (bDensity width : arr) (surfaceTemp : Q) (oldsTemp : arr)
    (meanAirTemp : Q) (nlyrs : nat) (fc wp : arr) (deltaX theMaxDepth : Q)
    (nRgr : nat) (g : globals) :
  (1 <= nlyrs)%nat ->
  theMaxDepth < sumQ width nlyrs ->
  exists g',
    soil_temperature_init interpolation uninit fuel bDensity width
      surfaceTemp oldsTemp meanAirTemp nlyrs fc wp deltaX theMaxDepth nRgr g
    = Some g'
    /\ soil_temp_error g'
       = (if Nat.eqb (soil_temp_error g) 0 then 1%nat else soil_temp_error g)
    /\ soil_temp_error g' <> 0%nat
    /\ reset_state width nlyrs deltaX nRgr g g'.
Proof.
  intros Hn Hdepth. unfold soil_temperature_init.
  destruct (soil_temperature_init_reset_spec width nlyrs deltaX nRgr g)
    as [Herr Hreset].
  cbv zeta in Herr, Hreset.
  set (g1 := soil_temperature_init_reset width nlyrs deltaX nRgr g) in *.
  assert (Hd : depths (stValues g1) (nlyrs - 1)%nat = sumQ width nlyrs).
  { destruct Hreset as (_ & _ & _ & _ & _ & _ & _ & Hd & _).
    rewrite Hd.
    replace (nlyrs - 1 <? nlyrs + 1)%nat with true
      by (symmetry; apply Nat.ltb_lt; lia).
    f_equal. lia. }
  rewrite Hd. apply LT_true in Hdepth. rewrite Hdepth.
  eexists. split; [reflexivity|]. rewrite Herr.
  destruct (Nat.eqb_spec (soil_temp_error g) 0) as [E|E].
  - cbn [set_soil_temp_error soil_temp_error].
    split; [reflexivity | split; [lia | exact Hreset]].
  - rewrite Herr. split; [reflexivity | split; [exact E | exact Hreset]].
Qed.

(** One layer of 20 cm under a grid that stops at 10 cm. *)
Lemma soil_temperature_init_fatal_witness :
  exists g',
    soil_temperature_init (fun _ _ _ _ _ => 0) (fun _ _ => 0) 0
      (buffer [1]) (buffer [20]) 0 (buffer [1]) 4 1 (buffer [3]) (buffer [1])
      15 10 1 globals_fives = Some g'
    /\ soil_temp_error g' = 1%nat.
Proof.
  assert (Hn : (1 <= 1)%nat) by lia.
  assert (Hd : 10 < sumQ (buffer [20]) 1) by reflexivity.
  destruct (soil_temperature_init_fatal (fun _ _ _ _ _ => 0) (fun _ _ => 0) 0
              (buffer [1]) (buffer [20]) 0 (buffer [1]) 4 1 (buffer [3])
              (buffer [1]) 15 10 1 globals_fives Hn Hd)
    as (g' & H1 & H2 & _).
  exists g'. split; [exact H1 | exact H2].
Defined.

(** C8, as stated, fails: on the same call each of the seven
    temperature-grid arrays has been overwritten by the time the function
    returns. *)
Lemma soil_temperature_init_fatal_mutates :
  let g := globals_fives in
  10 < sumQ (buffer [20]) 1
  /\ match
       soil_temperature_init (fun _ _ _ _ _ => 0) (fun _ _ => 0) 0
         (buffer [1]) (buffer [20]) 0 (buffer [1]) 4 1 (buffer [3])
         (buffer [1]) 15 10 1 g
     with
     | None => False
     | Some g' =>
         soil_temp_error g' = 1%nat
         /\ ~ fcR (stValues g') 0%nat == fcR (stValues g) 0%nat
         /\ ~ wpR (stValues g') 0%nat == wpR (stValues g) 0%nat
         /\ ~ bDensityR (stValues g') 0%nat == bDensityR (stValues g) 0%nat
         /\ ~ oldsTempR (stValues g') 0%nat == oldsTempR (stValues g) 0%nat
         /\ ~ tlyrs_by_slyrs (stValues g') 0%nat 0%nat
              == tlyrs_by_slyrs (stValues g) 0%nat 0%nat
         /\ ~ depths (stValues g') 0%nat == depths (stValues g) 0%nat
         /\ ~ depthsR (stValues g') 0%nat == depthsR (stValues g) 0%nat
     end.
Proof.
  cbv zeta. split; [reflexivity|].
  vm_compute. repeat split; discriminate.
Qed.

End InitFacts.

(* ================================================================= *)
(** ** The daily heat step *)

Module HeatFacts.

Import SoilTemperature.

Section Grid.

Variable interpolation : Q -> Q -> Q -> Q -> Q -> Q.
Variable uninit : nat -> arr.
Variable tSoilAvg0 : Q.
Variables Yesterday Today : nat.

Variable st : ST_RGR_VALUES.
Variables deltaX csParam1 csParam2 shParam : Q.
Variable vwcR : arr.

Local Abbreviation parts :=
  (stability_parts st deltaX csParam1 csParam2 shParam vwcR).
Local Abbreviation heat_profile :=
  (heat_profile uninit st deltaX csParam1 csParam2 shParam vwcR).
Local Abbreviation unstable :=
  (unstable st deltaX csParam1 csParam2 shParam vwcR).

Lemma unstable_S (n : nat) : unstable (S n) = unstable n || GT (parts n) 1.
Proof.
  unfold unstable. rewrite seq_S, existsb_app. cbn [existsb Nat.add].
  now rewrite orb_false_r.
Qed.

Lemma unstable_true (n : nat) :
  unstable n = true <-> exists k, (k < n)%nat /\ 1 < parts k.
Proof.
  unfold unstable. rewrite existsb_exists. split.
  - intros (k & Hk & Hp). exists k. apply in_seq in Hk. apply GT_true in Hp.
    split; [lia | exact Hp].
  - intros (k & Hk & Hp). exists k. split; [apply in_seq; lia|].
    now apply GT_true.
Qed.

Lemma unstable_false (n : nat) :
  unstable n = false <-> forall k, (k < n)%nat -> parts k <= 1.
Proof.
  split.
  - intros H k Hk. destruct (Qlt_le_dec 1 (parts k)) as [Hp|Hp]; [|exact Hp].
    assert (Ht : unstable n = true) by (apply unstable_true; eauto).
    congruence.
  - intro H. destruct (unstable n) eqn:E; [|reflexivity].
    apply unstable_true in E. destruct E as (k & Hk & Hp).
    specialize (H k Hk). lra.
Qed.

(** The flag after the loop: raised by any unstable band, untouched
    otherwise. *)
Lemma heat_profile_flag (nRgr : nat) (T1 : Q) (err : nat) :
  snd (heat_profile nRgr T1 err) = if unstable nRgr then 1%nat else err.
Proof.
  unfold SoilTemperature.heat_profile.
  replace (nRgr + 1)%nat with (S nRgr) by lia.
  assert (H : snd (for_up 1 (S nRgr)
                     (heat_step st deltaX csParam1 csParam2 shParam vwcR)
                     (upd (uninit 6) 0 T1, err))
              = if unstable (S nRgr - 1) then 1%nat else err).
  { apply (for_up_ind
             (fun I s => snd s = if unstable (I - 1) then 1%nat else err)
             1 (S nRgr)); [lia | reflexivity |].
    intros i s Hi IH. unfold heat_step. cbn [snd].
    replace (S i - 1)%nat with (S (i - 1)) by lia.
    rewrite unstable_S, IH.
    destruct (unstable (i - 1)), (GT (parts (i - 1)) 1); reflexivity. }
  replace (S nRgr - 1)%nat with nRgr in H by lia. exact H.
Qed.

(** The temperatures after the loop: the explicit step of Parton's
    equation 2.21 on every band, whatever the stability coefficients. *)
Lemma heat_profile_temps (nRgr : nat) (T1 : Q) (err : nat) :
  let T := fst (heat_profile nRgr T1 err) in
  T 0%nat = T1
  /\ forall i, (1 <= i <= nRgr)%nat ->
       T i = oldsTempR st i
             + parts (i - 1)
               * (T (i - 1)%nat - 2 * oldsTempR st i + oldsTempR st (i + 1)%nat).
Proof.
  cbv zeta. unfold SoilTemperature.heat_profile.
  replace (nRgr + 1)%nat with (S nRgr) by lia.
  assert (H : let s := for_up 1 (S nRgr)
                         (heat_step st deltaX csParam1 csParam2 shParam vwcR)
                         (upd (uninit 6) 0 T1, err) in
              fst s 0%nat = T1
              /\ forall i, (1 <= i < S nRgr)%nat ->
                   fst s i = oldsTempR st i
                             + parts (i - 1)
                               * (fst s (i - 1)%nat - 2 * oldsTempR st i
                                  + oldsTempR st (i + 1)%nat)).
  { cbv zeta.
    apply (for_up_ind
             (fun I s =>
                fst s 0%nat = T1
                /\ forall i, (1 <= i < I)%nat ->
                     fst s i = oldsTempR st i
                               + parts (i - 1)
                                 * (fst s (i - 1)%nat - 2 * oldsTempR st i
                                    + oldsTempR st (i + 1)%nat))
             1 (S nRgr)); [lia | |].
    - split; [apply upd_same | intros; lia].
    - intros i s Hi [H0 IH]. unfold heat_step. cbn [fst]. split.
      + rewrite upd_other by lia. exact H0.
      + intros k Hk. destruct (Nat.eq_dec k i) as [->|Hne].
        * rewrite upd_same. rewrite upd_other by lia. reflexivity.
        * rewrite !upd_other by lia. apply IH. lia. }
  destruct H as [H0 H]. split; [exact H0|]. intros i Hi. apply H. lia.
Qed.

End Grid.

Section Day.

Variable interpolation : Q -> Q -> Q -> Q -> Q -> Q.
Variable uninit : nat -> arr.
Variable tSoilAvg0 : Q.
Variables Yesterday Today : nat.

(** One day within a given bound on the turns of the loops.  Where the
    first-call block and the two projections between the soil layers and
    the regression grid return, [soil_temperature] returns, whatever the
    stability coefficients, with the flag, the grid temperatures, [sTemp],
    the frozen flags and [oldsTempR] as stated. *)
Lemma soil_temperature_day (fuel : nat)
    (airTemp pet aet biomass : Q)
    (swc swc_sat bDensity width oldsTemp sTemp surfaceTemp : arr)
    (nlyrs : nat) (fc wp : arr)
    (bmLimiter t1Param1 t1Param2 t1Param3 csParam1 csParam2 shParam
     snowdepth meanAirTemp deltaX theMaxDepth : Q) (nRgr : nat) (snow : Q)
    (g : globals) (surfaceTemp1 : arr) (g1 : globals) (vwcR sTemp' : arr) :
  let vwc := for_up 0 nlyrs (fun a i => upd a i (swc i / width i)) (uninit 4) in
  let st1 := stValues g1 in
  let T1 := surface_T1 tSoilAvg0 airTemp pet aet biomass bmLimiter
              t1Param1 t1Param2 t1Param3 snowdepth snow in
  let parts := stability_parts st1 deltaX csParam1 csParam2 shParam vwcR in
  let sTempR :=
    upd (fst (heat_profile uninit st1 deltaX csParam1 csParam2 shParam vwcR
                nRgr T1 (soil_temp_error g1)))
        (nRgr + 1) meanAirTemp in
  soil_temperature_first_call interpolation uninit Today fuel airTemp
    swc swc_sat bDensity width oldsTemp surfaceTemp nlyrs fc wp
    meanAirTemp deltaX theMaxDepth nRgr g = Some (surfaceTemp1, g1) ->
  lyrSoil_to_lyrTemp fuel (tlyrs_by_slyrs st1) nlyrs width vwc nRgr deltaX
    (uninit 5) = Some vwcR ->
  lyrTemp_to_lyrSoil_temperature interpolation fuel (tlyrs_by_slyrs st1)
    nRgr (depthsR st1) sTempR nlyrs (depths st1) width sTemp = Some sTemp' ->
  exists r,
    soil_temperature interpolation uninit tSoilAvg0 Yesterday Today
      fuel airTemp pet aet biomass swc swc_sat bDensity width oldsTemp sTemp
      surfaceTemp nlyrs fc wp bmLimiter t1Param1 t1Param2 t1Param3
      csParam1 csParam2 shParam snowdepth meanAirTemp deltaX theMaxDepth
      nRgr snow g = Some r
    /\ ((exists k, (k < nRgr)%nat /\ 1 < parts k) ->
          soil_temp_error (globals_out r) = 1%nat)
    /\ ((forall k, (k < nRgr)%nat -> parts k <= 1) ->
          soil_temp_error (globals_out r) = soil_temp_error g1)
    /\ sTemp_out r = sTemp'
    /\ (forall i, (i <= nRgr + 1)%nat ->
          oldsTempR (stValues (globals_out r)) i = sTempR i)
    /\ sTempR 0%nat = T1
    /\ sTempR (nRgr + 1)%nat = meanAirTemp
    /\ (forall i, (1 <= i <= nRgr)%nat ->
          sTempR i = oldsTempR st1 i
                     + parts (i - 1)%nat
                       * (sTempR (i - 1)%nat - 2 * oldsTempR st1 i
                          + oldsTempR st1 (i + 1)%nat))
    /\ lyrFrozen (stValues (globals_out r))
       = lyrFrozen (set_frozen_unfrozen nlyrs sTemp' swc swc_sat width st1).
Proof.
  intros vwc st1 T1 parts sTempR Hfirst Hvwc Hback.
  unfold soil_temperature. rewrite Hfirst.
  fold vwc st1 T1. rewrite Hvwc.
  fold sTempR. rewrite Hback.
  unfold adjust_Tsoil_by_freezing_and_thawing. cbn [Nat.eqb].
  eexists. split; [reflexivity|].
  cbn [globals_out sTemp_out].
  pose proof (heat_profile_flag uninit st1 deltaX csParam1 csParam2 shParam
                vwcR nRgr T1 (soil_temp_error g1)) as Hflag.
  destruct (heat_profile_temps uninit st1 deltaX csParam1 csParam2 shParam
              vwcR nRgr T1 (soil_temp_error g1)) as [HT0 HT].
  set (hp := heat_profile uninit st1 deltaX csParam1 csParam2 shParam vwcR
               nRgr T1 (soil_temp_error g1)) in *.
  split; [|split; [|split; [|split; [|split; [|split; [|split]]]]]].
  - intro Hex. apply (unstable_true st1 deltaX csParam1 csParam2 shParam vwcR) in Hex.
    rewrite Hex in Hflag.
    cbn [set_stValues soil_temp_error].
    destruct (Nat.eqb _ 0); cbn [set_fusion_pool_init set_stValues
      set_soil_temp_error soil_temp_error]; exact Hflag.
  - intro Hall. apply (unstable_false st1 deltaX csParam1 csParam2 shParam vwcR) in Hall.
    rewrite Hall in Hflag.
    cbn [set_stValues soil_temp_error].
    destruct (Nat.eqb _ 0); cbn [set_fusion_pool_init set_stValues
      set_soil_temp_error soil_temp_error]; exact Hflag.
  - reflexivity.
  - intros i Hi. cbn [set_stValues stValues set_oldsTempR oldsTempR].
    rewrite for_up_fill.
    replace (i <? nRgr + 2)%nat with true
      by (symmetry; apply Nat.ltb_lt; lia).
    reflexivity.
  - subst sTempR. rewrite upd_other by lia. exact HT0.
  - subst sTempR. apply upd_same.
  - intros i Hi. subst sTempR. rewrite !upd_other by lia. now apply HT.
  - cbn [set_stValues stValues set_oldsTempR lyrFrozen].
    destruct (Nat.eqb _ 0); reflexivity.
Qed.

End Day.

End HeatFacts.

(* ================================================================= *)
(** ** Evaporation and transpiration rates *)

Module EvaporationFacts.

Import Evapotranspiration.

Lemma fmax_wd (x x' y : Q) : x == x' -> fmax x y == fmax x' y.
Proof.
  intro E. destruct (fmax_spec x y) as [[H ->]|[H ->]],
    (fmax_spec x' y) as [[H' ->]|[H' ->]]; lra.
Qed.

Lemma fmin_wd (x x' y : Q) : x == x' -> fmin x y == fmin x' y.
Proof.
  intro E. destruct (fmin_spec x y) as [[H ->]|[H ->]],
    (fmin_spec x' y) as [[H' ->]|[H' ->]]; lra.
Qed.

(** A quotient of a non-negative number by a larger one is a fraction. *)
Lemma fraction_unit (a b : Q) : 0 <= a -> a < b -> 0 <= a / b /\ a / b < 1.
Proof.
  intros Ha Hab. assert (Hb : 0 < b) by lra. split.
  - apply Qle_shift_div_l; [exact Hb | lra].
  - apply Qlt_shift_div_r; [exact Hb | lra].
Qed.

(** Evaporation from a surface pool takes the smaller of the pool and
    the potential rate, moves it to [aet], and leaves the pool
    non-negative. *)
Theorem evap_fromSurface_takes_minimum (s : surface_pool) :
  let s' := evap_fromSurface s in
  let evap := fmin (water_pool s) (evap_rate s) in
  evap_rate s' == evap
  /\ water_pool s' == water_pool s - evap
  /\ surface_aet s' == surface_aet s + evap
  /\ water_pool s' + surface_aet s' == water_pool s + surface_aet s
  /\ 0 <= water_pool s'.
Proof.
  cbv zeta. unfold evap_fromSurface.
  destruct (GT (water_pool s) (evap_rate s)) eqn:E;
    [apply GT_true in E | apply GT_false in E]; cbn;
    destruct (fmin_spec (water_pool s) (evap_rate s)) as [[H ->]|[H ->]];
    repeat split; lra.
Qed.

Section Rates.

Variables exp : Q -> Q.
Variable tanfunc : Q -> Q -> Q -> Q -> Q -> Q.
Variable SWCbulk2SWPmatric : Q -> Q -> nat -> Q.
Variable fractionVolBulk_gravel : nat -> Q.

Lemma watrate_unit (swp petday shift shape inflec range : Q) :
  0 <= watrate tanfunc swp petday shift shape inflec range <= 1.
Proof. unfold watrate. split_fm; lra. Qed.

Lemma watrate_par1_range (p : Q) : 3 <= watrate_par1 p <= 8.
Proof. unfold watrate_par1. split_if; lra. Qed.

(** The inflection point handed to [tanfunc] rises with PET from 3 to 8
    without a jump at 0.2, 0.4 or 0.6, and the rate returned is a fraction
    whatever [tanfunc] returns. *)
Theorem watrate_fraction_and_inflection (p q swp shift shape inflec range : Q) :
  p <= q ->
  3 <= watrate_par1 p /\ watrate_par1 p <= watrate_par1 q
  /\ watrate_par1 q <= 8
  /\ 0 <= watrate tanfunc swp p shift shape inflec range <= 1.
Proof.
  intro Hpq. split; [apply watrate_par1_range|].
  split; [|split; [apply watrate_par1_range | apply watrate_unit]].
  unfold watrate_par1. split_if; lra.
Qed.

(** The four partitioning routines compute the same pair: the fractions
    add up to 1, the evaporation fraction is capped at 0.995 and, [exp]
    being non-negative, both are fractions. *)
Theorem EsT_partitioning_fractions (blivelai lai_param : Q) :
  (forall x, 0 <= exp x) ->
  let fbse := fst (grass_EsT_partitioning exp blivelai lai_param) in
  let fbst := snd (grass_EsT_partitioning exp blivelai lai_param) in
  fbse + fbst == 1
  /\ 0 <= fbse <= 0.995
  /\ 0.005 <= fbst <= 1
  /\ shrub_EsT_partitioning exp blivelai lai_param = (fbse, fbst)
  /\ tree_EsT_partitioning exp blivelai lai_param = (fbse, fbst)
  /\ forb_EsT_partitioning exp blivelai lai_param = (fbse, fbst).
Proof.
  intro Hexp. cbv zeta.
  unfold grass_EsT_partitioning, shrub_EsT_partitioning,
    tree_EsT_partitioning, forb_EsT_partitioning. cbn [fst snd].
  specialize (Hexp (- lai_param * blivelai)).
  destruct (fmin_spec (exp (- lai_param * blivelai)) 0.995) as [[H ->]|[H ->]];
    repeat split; lra.
Qed.

(** Potential transpiration is zero without live biomass and never above
    [petday * fbst]; it is non-negative when the dead biomass is below the
    shading threshold. *)
Theorem pot_transp_bounds (swpavg biolive biodead fbst petday swp_shift
    swp_shape swp_inflec swp_range shade_scale shade_deadmax shade_xinflex
    shade_slope shade_yinflex shade_range : Q) :
  0 <= petday -> 0 <= fbst ->
  let bstrate := pot_transp tanfunc swpavg biolive biodead fbst petday
                   swp_shift swp_shape swp_inflec swp_range shade_scale
                   shade_deadmax shade_xinflex shade_slope shade_yinflex
                   shade_range in
  bstrate <= petday * fbst
  /\ (biolive <= 0 -> bstrate = 0)
  /\ (biodead < shade_deadmax -> 0 <= bstrate).
Proof.
  intros Hp Hf. cbv zeta. unfold pot_transp.
  pose proof (watrate_unit swpavg petday swp_shift swp_shape swp_inflec
                swp_range) as Hw.
  set (w := watrate _ _ _ _ _ _ _) in *. clearbody w.
  assert (Hpf : 0 <= petday * fbst) by nra.
  destruct (LE biolive 0) eqn:E; [apply LE_true in E | apply LE_false in E].
  - repeat split; intros; try reflexivity; lra.
  - assert (Hs : pot_transp_shadeaf tanfunc biolive biodead shade_scale
                   shade_deadmax shade_xinflex shade_slope shade_yinflex
                   shade_range <= 1).
    { unfold pot_transp_shadeaf. destruct (GE biodead shade_deadmax).
      - apply fmin_le_r.
      - lra. }
    split; [|split].
    + set (sh := pot_transp_shadeaf _ _ _ _ _ _ _ _ _) in *. clearbody sh.
      destruct (Qlt_le_dec sh 0) as [Hneg|Hpos].
      * assert (w * sh <= 0) by nra. nra.
      * assert (w * sh <= 1) by nra. assert (0 <= w * sh) by nra. nra.
    + intro. lra.
    + intro Hdead. unfold pot_transp_shadeaf.
      destruct (GE biodead shade_deadmax) eqn:Eg.
      * apply GE_true in Eg. lra.
      * nra.
Qed.

(** Potential bare-soil evaporation lies between 0 and the bare-ground
    rate scaled by [fbse], which is at most [petday * fbse]; it is 0 once
    the aboveground biomass reaches [Es_param_limit]. *)
Theorem pot_soil_evap_bounds (nelyrs : nat) (ecoeff : arr) (totagb fbse petday
    shift shape inflec range : Q) (width swc : arr) (Es_param_limit : Q) :
  0 <= petday -> 0 <= fbse -> 0 <= totagb ->
  let bserate := pot_soil_evap tanfunc SWCbulk2SWPmatric
                   fractionVolBulk_gravel nelyrs ecoeff totagb fbse petday
                   shift shape inflec range width swc Es_param_limit in
  let bare := pot_soil_evap_bs tanfunc SWCbulk2SWPmatric
                fractionVolBulk_gravel nelyrs ecoeff petday
                shift shape inflec range width swc in
  0 <= bserate /\ bserate <= bare * fbse /\ bare <= petday
  /\ (Es_param_limit <= totagb -> bserate = 0).
Proof.
  intros Hp Hf Ht. cbv zeta. unfold pot_soil_evap, pot_soil_evap_bs.
  set (av := evap_avswp _ _ _ _ _ _).
  pose proof (watrate_unit av petday shift shape inflec range) as Hw.
  set (w := watrate _ _ _ _ _ _ _) in *. clearbody w.
  assert (Hb : 0 <= petday * w) by nra.
  assert (Hb1 : petday * w <= petday) by nra.
  destruct (GE totagb Es_param_limit) eqn:E.
  - apply GE_true in E. repeat split; try lra; nra.
  - assert (Hlt : totagb < Es_param_limit).
    { unfold GE in E. apply Qle_bool_false in E. exact E. }
    destruct (fraction_unit totagb Es_param_limit Ht Hlt) as [Hq0 Hq1].
    set (q := totagb / Es_param_limit) in *. clearbody q.
    assert (H1 : 0 <= petday * w * (1 - q)) by nra.
    assert (H2 : petday * w * (1 - q) <= petday * w) by nra.
    split; [nra|]. split; [nra|]. split; [lra|]. intro. lra.
Qed.

End Rates.

(** PET of 0.3 and 0.5 cm/day with a linear stand-in for [tanfunc]. *)
Lemma watrate_fraction_and_inflection_witness :
  let tanfunc := fun z a b c d : Q => b + c * d * (z - a) in
  watrate_par1 0.3 == 4 /\ watrate_par1 0.5 == 6.5
  /\ 0 <= watrate tanfunc 2 0.3 5 0.1 0.5 1 <= 1.
Proof.
  cbv zeta.
  assert (H : 0.3 <= 0.5) by lra.
  destruct (watrate_fraction_and_inflection
              (fun z a b c d : Q => b + c * d * (z - a))
              0.3 0.5 2 5 0.1 0.5 1 H) as (_ & _ & _ & Hw).
  split; [reflexivity|]. split; [reflexivity | exact Hw].
Defined.

(** A leaf area index of 2 under a constant stand-in for [exp]. *)
Lemma EsT_partitioning_fractions_witness :
  fst (grass_EsT_partitioning (fun _ => 0.25) 2 1) == 0.25
  /\ snd (tree_EsT_partitioning (fun _ => 0.25) 2 1) == 0.75
  /\ fst (forb_EsT_partitioning (fun _ => 2) 2 1) <= 0.995.
Proof.
  assert (H : forall x : Q, 0 <= (fun _ : Q => 0.25) x) by (intro; lra).
  assert (H' : forall x : Q, 0 <= (fun _ : Q => 2) x) by (intro; lra).
  destruct (EsT_partitioning_fractions (fun _ => 0.25) 2 1 H)
    as (_ & _ & _ & _ & Ht & _).
  destruct (EsT_partitioning_fractions (fun _ => 2) 2 1 H')
    as (_ & Hc & _ & _ & _ & Hf).
  split; [reflexivity|]. split.
  - rewrite Ht. reflexivity.
  - rewrite Hf. apply Hc.
Defined.

(** Live biomass of 100 and dead biomass of 50 under a threshold of 150;
    and no live biomass. *)
Lemma pot_transp_bounds_witness :
  let tanfunc := fun z a b c d : Q => b + c * d * (z - a) in
  0 <= pot_transp tanfunc 2 100 50 0.8 0.5 5 0.1 0.5 1 0.3 150 300 0.002 0.7 0.5
    <= 0.5 * 0.8
  /\ pot_transp tanfunc 2 0 50 0.8 0.5 5 0.1 0.5 1 0.3 150 300 0.002 0.7 0.5
     = 0.
Proof.
  cbv zeta.
  assert (Hp : 0 <= 0.5) by lra. assert (Hf : 0 <= 0.8) by lra.
  destruct (pot_transp_bounds (fun z a b c d : Q => b + c * d * (z - a))
              2 100 50 0.8 0.5 5 0.1 0.5 1 0.3 150 300 0.002 0.7 0.5 Hp Hf)
    as (Hub & _ & Hlb).
  destruct (pot_transp_bounds (fun z a b c d : Q => b + c * d * (z - a))
              2 0 50 0.8 0.5 5 0.1 0.5 1 0.3 150 300 0.002 0.7 0.5 Hp Hf)
    as (_ & Hz & _).
  split; [split|].
  - apply Hlb. lra.
  - exact Hub.
  - apply Hz. lra.
Defined.

(** Two evaporation layers; biomass below and at the limit of 999. *)
Lemma pot_soil_evap_bounds_witness :
  let tanfunc := fun z a b c d : Q => b + c * d * (z - a) in
  let swp := fun (g w : Q) (_ : nat) => 1 / w in
  let gravel := fun _ : nat => 0 in
  0 <= pot_soil_evap tanfunc swp gravel 2 (buffer [0.6; 0.4]) 300 0.9 0.5
         5 0.1 0.5 1 (buffer [5; 10]) (buffer [1; 2]) 999
    <= 0.5 * 0.9
  /\ pot_soil_evap tanfunc swp gravel 2 (buffer [0.6; 0.4]) 999 0.9 0.5
       5 0.1 0.5 1 (buffer [5; 10]) (buffer [1; 2]) 999 = 0.
Proof.
  cbv zeta.
  assert (Hp : 0 <= 0.5) by lra. assert (Hf : 0 <= 0.9) by lra.
  assert (Ht : 0 <= 300) by lra. assert (Ht' : 0 <= 999) by lra.
  destruct (pot_soil_evap_bounds (fun z a b c d : Q => b + c * d * (z - a))
              (fun (g w : Q) (_ : nat) => 1 / w) (fun _ : nat => 0)
              2 (buffer [0.6; 0.4]) 300 0.9 0.5 5 0.1 0.5 1
              (buffer [5; 10]) (buffer [1; 2]) 999 Hp Hf Ht)
    as (H0 & H1 & H2 & _).
  destruct (pot_soil_evap_bounds (fun z a b c d : Q => b + c * d * (z - a))
              (fun (g w : Q) (_ : nat) => 1 / w) (fun _ : nat => 0)
              2 (buffer [0.6; 0.4]) 999 0.9 0.5 5 0.1 0.5 1
              (buffer [5; 10]) (buffer [1; 2]) 999 Hp Hf Ht')
    as (_ & _ & _ & Hz).
  split; [split|].
  - exact H0.
  - eapply Qle_trans; [exact H1|]. nra.
  - apply Hz. lra.
Defined.

End EvaporationFacts.

Module TranspirationFacts.

Import Evapotranspiration.

Section Regions.

Variable SWCbulk2SWPmatric : Q -> Q -> nat -> Q.
Variable fractionVolBulk_gravel : nat -> Q.
Variable n_layers : nat.
Variable tr_regions : nat -> nat.
Variables tr_coeff swc : arr.

Local Abbreviation avg :=
  (region_avg SWCbulk2SWPmatric fractionVolBulk_gravel n_layers tr_regions
     tr_coeff swc).
Local Abbreviation sums :=
  (region_sums SWCbulk2SWPmatric fractionVolBulk_gravel n_layers tr_regions
     tr_coeff swc).
Local Abbreviation twa n :=
  (transp_weighted_avg SWCbulk2SWPmatric fractionVolBulk_gravel n
     n_layers tr_regions tr_coeff swc).

Lemma transp_weighted_avg_S (n : nat) :
  twa (S n) = if Nat.eqb (S n) 1 then avg (S n) else fmin (avg (S n)) (twa n).
Proof.
  unfold transp_weighted_avg.
  replace (S n + 1)%nat with (S (S n)) by lia.
  rewrite for_up_S by lia.
  replace (n + 1)%nat with (S n) by lia. reflexivity.
Qed.

(** The loop over the regions keeps the smallest average seen. *)
Lemma transp_weighted_avg_is_min (n : nat) :
  (1 <= n)%nat ->
  (forall r, (1 <= r <= n)%nat -> twa n <= avg r)
  /\ (exists r, (1 <= r <= n)%nat /\ twa n = avg r).
Proof.
  induction n as [|n IH]; [lia|]. intros _.
  rewrite transp_weighted_avg_S.
  destruct n as [|n].
  - cbn [Nat.eqb]. split.
    + intros r Hr. replace r with 1%nat by lia. apply Qle_refl.
    + exists 1%nat. split; [lia | reflexivity].
  - replace (Nat.eqb (S (S n)) 1) with false by reflexivity.
    destruct IH as [IHle [r0 [Hr0 IHeq]]]; [lia|].
    destruct (fmin_spec (avg (S (S n))) (twa (S n))) as [[H E]|[H E]];
      rewrite E; split.
    + intros r Hr. destruct (Nat.eq_dec r (S (S n))) as [->|Hne]; [lra|].
      specialize (IHle r). assert (twa (S n) <= avg r) by (apply IHle; lia).
      lra.
    + exists (S (S n)). split; [lia | reflexivity].
    + intros r Hr. destruct (Nat.eq_dec r (S (S n))) as [->|Hne]; [lra|].
      apply IHle. lia.
    + exists r0. split; [lia | exact IHeq].
Qed.

Lemma region_sums_empty (r : nat) :
  empty_region n_layers tr_regions r -> sums r = (0, 0).
Proof.
  intro He. unfold region_sums.
  apply (for_up_ind (fun _ ss => ss = (0, 0))); [lia | reflexivity|].
  intros i ss Hi ->. destruct (Nat.eqb_spec (tr_regions i) r) as [E|E].
  - exfalso. apply (He i); [lia | exact E].
  - reflexivity.
Qed.



(** The weighted average returned is the smallest of the regional
    averages: below each of them and equal to one of them. *)
Theorem transp_weighted_avg_smallest_region (n_tr_rgns : nat) :
  (1 <= n_tr_rgns)%nat ->
  let swp_avg :=
    transp_weighted_avg SWCbulk2SWPmatric fractionVolBulk_gravel n_tr_rgns
      n_layers tr_regions tr_coeff swc in
  let swp :=
    region_avg SWCbulk2SWPmatric fractionVolBulk_gravel n_layers tr_regions
      tr_coeff swc in
  (forall r, (1 <= r <= n_tr_rgns)%nat -> swp_avg <= swp r)
  /\ (exists r, (1 <= r <= n_tr_rgns)%nat /\ swp_avg = swp r).
Proof. intro Hn. cbv zeta. now apply transp_weighted_avg_is_min. Qed.


(** A region without layers counts as an average of 0: the average
    returned is then at most 0, whatever the potentials of the layers;
    and without regions it is what [*swp_avg] was set to, 0. *)
Theorem transp_weighted_avg_empty_region (n_tr_rgns r : nat) :
  (1 <= r <= n_tr_rgns)%nat ->
  empty_region n_layers tr_regions r ->
  region_avg SWCbulk2SWPmatric fractionVolBulk_gravel n_layers tr_regions
    tr_coeff swc r = 0
  /\ transp_weighted_avg SWCbulk2SWPmatric fractionVolBulk_gravel n_tr_rgns
       n_layers tr_regions tr_coeff swc <= 0
  /\ transp_weighted_avg SWCbulk2SWPmatric fractionVolBulk_gravel 0
       n_layers tr_regions tr_coeff swc = 0.
Proof.
  intros Hr He.
  assert (E : avg r = 0).
  { unfold region_avg. rewrite (region_sums_empty r He). reflexivity. }
  split; [exact E|]. split; [|reflexivity].
  destruct (transp_weighted_avg_is_min n_tr_rgns) as [Hle _]; [lia|].
  rewrite <- E. apply Hle. exact Hr.
Qed.

End Regions.

(** Three layers in two regions, with the water potential [1 / swc]. *)
Lemma transp_weighted_avg_smallest_region_witness :
  let swp := fun (_ w : Q) (_ : nat) => 1 / w in
  let regions := fun i => nth i [1; 1; 2]%nat 0%nat in
  let coeff := buffer [0.5; 0.5; 1] in
  let swc := buffer [1; 2; 4] in
  region_avg swp (fun _ => 0) 3 regions coeff swc 1 == 0.75
  /\ region_avg swp (fun _ => 0) 3 regions coeff swc 2 == 0.25
  /\ transp_weighted_avg swp (fun _ => 0) 2 3 regions coeff swc
     <= region_avg swp (fun _ => 0) 3 regions coeff swc 2.
Proof.
  cbv zeta.
  assert (Hn : (1 <= 2)%nat) by lia.
  destruct (transp_weighted_avg_smallest_region
              (fun (_ w : Q) (_ : nat) => 1 / w) (fun _ => 0) 3
              (fun i => nth i [1; 1; 2]%nat 0%nat)
              (buffer [0.5; 0.5; 1]) (buffer [1; 2; 4]) 2 Hn) as [Hle _].
  split; [reflexivity|]. split; [reflexivity|].
  apply Hle. lia.
Defined.


(** Three regions of which the second has no layer. *)
Lemma transp_weighted_avg_empty_region_witness :
  let swp := fun (_ w : Q) (_ : nat) => 1 / w in
  let regions := fun i => nth i [1; 1; 3]%nat 0%nat in
  transp_weighted_avg swp (fun _ => 0) 3 3 regions
    (buffer [0.5; 0.5; 1]) (buffer [1; 2; 4]) <= 0
  /\ 0 < region_avg swp (fun _ => 0) 3 regions
           (buffer [0.5; 0.5; 1]) (buffer [1; 2; 4]) 3.
Proof.
  cbv zeta.
  assert (Hr : (1 <= 2 <= 3)%nat) by lia.
  assert (He : empty_region 3 (fun i => nth i [1; 1; 3]%nat 0%nat) 2).
  { intros i Hi. destruct i as [|[|[|i]]]; [| | |lia]; discriminate. }
  destruct (transp_weighted_avg_empty_region
              (fun (_ w : Q) (_ : nat) => 1 / w) (fun _ => 0) 3
              (fun i => nth i [1; 1; 3]%nat 0%nat)
              (buffer [0.5; 0.5; 1]) (buffer [1; 2; 4]) 3 2 Hr He)
    as (_ & H & _).
  split; [exact H | reflexivity].
Defined.

End TranspirationFacts.

Module SnowFacts.

Import SoilTemperature.

(** Under snow the soil surface is never warmer than -2 C and never
    colder than -2 C plus three tenths of a negative air temperature; it
    is -2 C when the air is not below 0 C or the snow holds 20/3 cm of
    water or more. *)
Theorem surface_temperature_under_snow_range (tSoilAvg0 airTempAvg snow : Q) :
  0 < snow ->
  let T := surface_temperature_under_snow tSoilAvg0 airTempAvg snow in
  T <= - (2)
  /\ fmin (0.3 * airTempAvg) 0 - 2 <= T
  /\ (0 <= airTempAvg \/ 20 # 3 <= snow -> T == - (2)).
Proof.
  intro Hs. cbv zeta. unfold surface_temperature_under_snow.
  assert (E0 : Qeq_bool snow 0 = false).
  { destruct (Qeq_bool snow 0) eqn:E; [|reflexivity].
    apply Qeq_bool_iff in E. lra. }
  assert (E1 : Qltb 0 snow = true).
  { unfold Qltb. rewrite negb_true_iff. apply Qle_bool_false. exact Hs. }
  rewrite E0, E1. cbn [andb].
  destruct (Qle_bool 0 airTempAvg) eqn:Ea.
  - apply Qle_bool_iff in Ea.
    destruct (fmin_spec (0.3 * airTempAvg) 0) as [[H ->]|[H ->]];
      repeat split; intros; lra.
  - apply Qle_bool_false in Ea.
    assert (E2 : Qltb airTempAvg 0 = true).
    { unfold Qltb. rewrite negb_true_iff. apply Qle_bool_false. exact Ea. }
    rewrite E2.
    destruct (fmax_spec (- (15 # 100) * snow + 1) 0) as [[Hk ->]|[Hk ->]];
      destruct (fmin_spec (0.3 * airTempAvg) 0) as [[H ->]|[H ->]];
      try lra.
    split; [nra|]. split; [nra|]. intros [Hc|Hc]; [lra | nra].
Qed.

(** One cm of snow water at -10 C and at +5 C. *)
Lemma surface_temperature_under_snow_range_witness :
  - (5) <= surface_temperature_under_snow 0 (- (10)) 1 <= - (2)
  /\ surface_temperature_under_snow 0 5 1 == - (2).
Proof.
  assert (Hs : 0 < 1) by lra.
  destruct (surface_temperature_under_snow_range 0 (- (10)) 1 Hs)
    as (Hub & Hlb & _).
  destruct (surface_temperature_under_snow_range 0 5 1 Hs) as (_ & _ & Heq).
  split; [split|].
  - eapply Qle_trans; [|exact Hlb]. vm_compute. discriminate.
  - exact Hub.
  - apply Heq. left. lra.
Defined.

End SnowFacts.

Module PetFacts.

Import Evapotranspiration SoilTemperature.

Section Rates.

Variables exp log sqrt sin cos tan : Q -> Q.
Variable atan2 : Q -> Q -> Q.
Variable powe : Q -> Q -> Q.
Variable rnd : Q -> Q.

Local Abbreviation step := (petfunc_sum_step sqrt sin cos atan2 rnd).

Lemma petfunc_ahou_nonneg (doy : nat) (rlat : Q) :
  0 <= petfunc_ahou sqrt sin cos tan atan2 doy rlat.
Proof. unfold petfunc_ahou. cbv zeta. apply fmax_ge_r. Qed.

(** With a step of 0 the hour angle stays where it is. *)
Lemma sum_loop_runs_on (ahou stepSize declin rlat azmthSlope rslope : Q)
    (fuel : nat) (s : sun_state) :
  (forall x, x == 0 -> rnd x == 0) ->
  ahou == 0 -> stepSize == 0 -> sun_hou s == 0 ->
  while fuel (fun s => Qle_bool (sun_hou s) ahou)
    (step declin rlat stepSize azmthSlope rslope) s = None.
Proof.
  intros Hrnd Ha Hst. revert s. induction fuel as [|fuel IH]; intros s Hs.
  - cbn [while].
    replace (Qle_bool (sun_hou s) ahou) with true
      by (symmetry; apply Qle_bool_iff; lra). reflexivity.
  - cbn [while].
    replace (Qle_bool (sun_hou s) ahou) with true
      by (symmetry; apply Qle_bool_iff; lra).
    apply IH. unfold petfunc_sum_step. cbn [sun_hou]. apply Hrnd. lra.
Qed.

(** On a slope the radiation is summed over the hour angles from [-ahou]
    to [ahou] in steps of [ahou / 24].  When the sunset hour angle is 0
    the step is 0, the hour angle never passes [ahou], and the loop never
    ends: [petfunc] returns within no bound on the turns.  All that is
    asked of the rounding is that it leaves 0 alone. *)
Theorem petfunc_slope_zero_hour_angle (doy : nat) (avgtemp rlat elev slope
    aspect reflec humid windsp cloudcov transcoeff : Q) (fuel : nat) :
  (forall x, x == 0 -> rnd x == 0) ->
  ~ slope == 0 ->
  petfunc_ahou sqrt sin cos tan atan2 doy rlat == 0 ->
  petfunc exp log sqrt sin cos tan atan2 powe rnd fuel doy avgtemp rlat elev
    slope aspect reflec humid windsp cloudcov transcoeff = None.
Proof.
  intros Hrnd Hslope Ha.
  assert (Es : negb (Qeq_bool slope 0) = true).
  { rewrite negb_true_iff. destruct (Qeq_bool slope 0) eqn:E; [|reflexivity].
    apply Qeq_bool_iff in E. contradiction. }
  unfold petfunc, petfunc_solrad. cbv zeta. rewrite Es.
  set (ahou := petfunc_ahou sqrt sin cos tan atan2 doy rlat) in *.
  rewrite sum_loop_runs_on; [reflexivity | exact Hrnd | exact Ha | |].
  - apply Hrnd. rewrite Ha. reflexivity.
  - cbn [sun_hou]. lra.
Qed.

(** The transmission coefficient drops out of the result: two non-zero
    coefficients give the same PET, which is at least 0.01. *)
Theorem petfunc_penman_transcoeff_drops_out (solrad avgtemp elev reflec humid
    windsp cloudcov t1 t2 : Q) :
  ~ t1 == 0 -> ~ t2 == 0 ->
  petfunc_penman exp log sqrt powe solrad avgtemp elev reflec humid windsp
    cloudcov t1
  == petfunc_penman exp log sqrt powe solrad avgtemp elev reflec humid windsp
       cloudcov t2
  /\ 0.01 <= petfunc_penman exp log sqrt powe solrad avgtemp elev reflec humid
               windsp cloudcov t1.
Proof.
  intros H1 H2. split; [|apply fmax_ge_r].
  unfold petfunc_penman. cbv zeta.
  apply EvaporationFacts.fmax_wd.
  assert (E : 1440 / 6.283185 * 1.952 * solrad * t1 * 0.0168 / t1
              == 1440 / 6.283185 * 1.952 * solrad * t2 * 0.0168 / t2)
    by (field; split; assumption).
  rewrite E. reflexivity.
Qed.

End Rates.

(** A slope of 10 degrees under stand-ins for libm that put the sunset
    hour angle at 0, as [fmax] does with the NaN of a polar night. *)
Lemma petfunc_slope_zero_hour_angle_witness :
  let one := fun _ : Q => 1 in
  let zero := fun _ : Q => 0 in
  let id := fun x : Q => x in
  petfunc one zero id zero one zero (fun _ _ => 0) (fun x _ => x) id
    1000 355 (- (20)) 1.4 1000 10 180 0.2 50 2 30 0.7 = None.
Proof.
  cbv zeta.
  assert (Hr : forall x : Q, x == 0 -> (fun y : Q => y) x == 0)
    by (intros x Hx; exact Hx).
  assert (Hs : ~ 10 == 0) by (intro H; vm_compute in H; discriminate H).
  apply (petfunc_slope_zero_hour_angle (fun _ => 1) (fun _ => 0) (fun x => x)
           (fun _ => 0) (fun _ => 1) (fun _ => 0) (fun _ _ => 0)
           (fun x _ => x) (fun x => x) 355 (- (20)) 1.4 1000 10 180 0.2 50 2
           30 0.7 1000 Hr Hs).
  vm_compute. reflexivity.
Defined.

Lemma petfunc_penman_transcoeff_drops_out_witness :
  let one := fun _ : Q => 1 in
  let zero := fun _ : Q => 0 in
  let id := fun x : Q => x in
  petfunc_penman one zero id (fun x _ => x) 3 20 1000 0.2 50 2 30 0.7
  == petfunc_penman one zero id (fun x _ => x) 3 20 1000 0.2 50 2 30 0.9.
Proof.
  cbv zeta.
  apply (petfunc_penman_transcoeff_drops_out (fun _ => 1) (fun _ => 0)
           (fun x => x) (fun x _ => x) 3 20 1000 0.2 50 2 30 0.7 0.9);
    intro H; vm_compute in H; discriminate H.
Defined.

End PetFacts.

(* ================================================================= *)
(** ** Water balance of the flow routines *)

Module SumFacts.

Lemma sumQ_upd_out (a : arr) (i : nat) (v : Q) (n : nat) :
  (n <= i)%nat -> sumQ (upd a i v) n == sumQ a n.
Proof.
  intro H. apply sumQ_ext. intros k Hk. rewrite upd_other by lia. reflexivity.
Qed.

Lemma sumQ_upd_in (a : arr) (i : nat) (v : Q) (n : nat) :
  (i < n)%nat -> sumQ (upd a i v) n == sumQ a n - a i + v.
Proof.
  induction n as [|n IH]; intro H; [lia|]. rewrite !sumQ_S.
  destruct (Nat.eq_dec i n) as [->|Hne].
  - rewrite sumQ_upd_out by lia. rewrite upd_same. ring.
  - rewrite IH by lia. rewrite upd_other by lia. ring.
Qed.

Lemma sumQ_minus (f g : nat -> Q) (n : nat) :
  sumQ (fun k => f k - g k) n == sumQ f n - sumQ g n.
Proof.
  induction n as [|n IH].
  - reflexivity.
  - rewrite !sumQ_S, IH. ring.
Qed.

Lemma sumQ_scale (f : nat -> Q) (c : Q) (n : nat) :
  sumQ (fun k => f k * c) n == sumQ f n * c.
Proof.
  induction n as [|n IH].
  - reflexivity.
  - rewrite !sumQ_S, IH. ring.
Qed.

Lemma sumQ_le (f g : nat -> Q) (n : nat) :
  (forall k, (k < n)%nat -> f k <= g k) -> sumQ f n <= sumQ g n.
Proof.
  induction n as [|n IH]; intro H.
  - apply Qle_refl.
  - rewrite !sumQ_S.
    assert (sumQ f n <= sumQ g n) by (apply IH; intros; apply H; lia).
    assert (f n <= g n) by (apply H; lia). lra.
Qed.

(** A sum of differences of neighbours telescopes. *)
Lemma sumQ_telescope (g : nat -> Q) (n : nat) :
  sumQ (fun k => g k - g (S k)) n == g 0%nat - g n.
Proof.
  induction n as [|n IH].
  - cbn. ring.
  - rewrite sumQ_S, IH. ring.
Qed.

End SumFacts.

Module FluxFacts.

Import SoilWater SweepFacts SumFacts.

(** Decides the comparisons of indices in sight. *)
Ltac index_cases :=
  repeat match goal with
  | |- context [Nat.eqb ?a ?b] => destruct (Nat.eqb_spec a b)
  | |- context [Nat.ltb ?a ?b] => destruct (Nat.ltb_spec a b)
  | H : context [Nat.eqb ?a ?b] |- _ => destruct (Nat.eqb_spec a b)
  | H : context [Nat.ltb ?a ?b] |- _ => destruct (Nat.ltb_spec a b)
  end;
  try lia.

(** Reads the array cells selected by the comparisons. *)
Ltac cells :=
  unfold written, upd in *; index_cases; subst;
  repeat match goal with
  | H : @eq Q ?x ?y |- _ =>
      let E := fresh "E" in
      assert (E : x == y) by (rewrite H; apply Qeq_refl); clear H
  end;
  try lra.

Section Flow.

Variable lyrFrozen : nat -> nat.
Variable exp : Q -> Q.
Variable nlyrs : nat.
Variables swcfc swcmin swcsat impermeability width : arr.
Variables sdrainpar sdraindpth : Q.

Local Abbreviation sat_step :=
  (saturated_percolation lyrFrozen nlyrs swcfc impermeability).
Local Abbreviation unsat_step :=
  (unsaturated_percolation lyrFrozen exp nlyrs sdrainpar sdraindpth swcfc
     width swcmin impermeability).

(** The percolation loop of [infiltrate_water_high]: each layer holds what
    it held, plus what the layer above drained, minus what it drained. *)
Lemma saturated_percolation_flux (s0 : flow_state) :
  let s1 := for_up 0 nlyrs sat_step s0 in
  standingWater s1 = standingWater s0
  /\ swc s1 0%nat == swc s0 0%nat - written nlyrs (drain s1) 0
  /\ (forall k, (k + 1 < nlyrs)%nat ->
        swc s1 (k + 1)%nat == swc s0 (k + 1)%nat + drain s1 k - drain s1 (k + 1)%nat)
  /\ (forall k, (nlyrs <= k)%nat -> swc s1 k = swc s0 k)
  /\ ((1 <= nlyrs)%nat -> drainout s1 = drain s1 (nlyrs - 1)%nat).
Proof.
  cbv zeta.
  set (P := fun (i : nat) (s : flow_state) =>
    standingWater s = standingWater s0
    /\ swc s 0%nat == swc s0 0%nat - written i (drain s) 0
    /\ (forall k, (k + 1 < nlyrs)%nat ->
          swc s (k + 1)%nat
          == swc s0 (k + 1)%nat + written i (drain s) k
             - written i (drain s) (k + 1))
    /\ (forall k, (nlyrs <= k)%nat -> swc s k = swc s0 k)
    /\ ((1 <= nlyrs)%nat -> i = nlyrs -> drainout s = drain s (nlyrs - 1)%nat)).
  assert (H : P nlyrs (for_up 0 nlyrs sat_step s0)).
  { apply (for_up_ind P); [lia | |]; unfold P.
    - unfold written. cbn. repeat split; intros; try reflexivity; try lia; ring.
    - intros i s Hi (Hst & H0 & Hk & Hout & Hd).
      unfold saturated_percolation.
      set (d := fmax 0 _). clearbody d.
      destruct (Nat.ltb_spec i (nlyrs - 1)) as [Hlt|Hge];
        cbn [swc drain standingWater drainout].
      + split; [exact Hst|]. split; [|split; [|split]].
        * cells.
        * intros k Hkn. specialize (Hk k Hkn). cells.
          all: assert (k = i) by lia; subst; lra.
        * intros k Hkn. rewrite !upd_other by lia. apply Hout. exact Hkn.
        * intros. lia.
      + split; [exact Hst|]. split; [|split; [|split]].
        * cells.
        * intros k Hkn. specialize (Hk k Hkn). cells.
        * intros k Hkn. rewrite !upd_other by lia. apply Hout. exact Hkn.
        * intros _ _. replace (nlyrs - 1)%nat with i by lia.
          now rewrite upd_same. }
  destruct H as (Hst & H0 & Hk & Hout & Hd).
  split; [exact Hst|]. split; [exact H0|]. split; [|split].
  - intros k Hkn. specialize (Hk k Hkn). cells.
  - exact Hout.
  - intro Hn. apply Hd; [exact Hn | reflexivity].
Qed.



(** The percolation loop of [infiltrate_water_low]: the same, with the
    amounts added to [drain[]].  The deepest layer loses [fmax d 0] while
    [d] is added to its [drain] cell, so that its drainage has to be
    non-negative. *)
Lemma unsaturated_percolation_flux (s0 : flow_state) :
  ((1 <= nlyrs)%nat -> impermeability (nlyrs - 1)%nat <= 1) ->
  0 <= sdrainpar -> (forall x, 0 <= exp x) ->
  let s1 := for_up 0 nlyrs unsat_step s0 in
  let out := fun k => drain s1 k - drain s0 k in
  standingWater s1 = standingWater s0
  /\ swc s1 0%nat == swc s0 0%nat - written nlyrs out 0
  /\ (forall k, (k + 1 < nlyrs)%nat ->
        swc s1 (k + 1)%nat == swc s0 (k + 1)%nat + out k - out (k + 1)%nat)
  /\ (forall k, (nlyrs <= k)%nat -> swc s1 k = swc s0 k).
Proof.
  intros Himp Hpar Hexp. cbv zeta.
  set (P := fun (i : nat) (s : flow_state) =>
    standingWater s = standingWater s0
    /\ swc s 0%nat == swc s0 0%nat - written i (fun k => drain s k - drain s0 k) 0
    /\ (forall k, (k + 1 < nlyrs)%nat ->
          swc s (k + 1)%nat
          == swc s0 (k + 1)%nat
             + written i (fun k => drain s k - drain s0 k) k
             - written i (fun k => drain s k - drain s0 k) (k + 1))
    /\ (forall k, (nlyrs <= k)%nat -> swc s k = swc s0 k)
    /\ (forall k, (i <= k)%nat -> drain s k = drain s0 k)).
  assert (H : P nlyrs (for_up 0 nlyrs unsat_step s0)).
  { apply (for_up_ind P); [lia | |]; unfold P.
    - unfold written. cbn. repeat split; intros; try reflexivity; try lia; ring.
    - intros i s Hi (Hst & H0 & Hk & Hout & Hdr).
      unfold unsaturated_percolation.
      set (d := if LE (swc s i) (swcmin i) then 0 else _).
      assert (Hd : (nlyrs - 1 <= i)%nat -> fmax d 0 == d).
      { intro Hlast. assert (Hnn : 0 <= d).
        { subst d. destruct (LE (swc s i) (swcmin i)); [lra|].
          replace i with (nlyrs - 1)%nat by lia.
          assert (H1 : impermeability (nlyrs - 1)%nat <= 1) by (apply Himp; lia).
          pose proof (PercolationFacts.frozen_factor
                        (lyrFrozen (nlyrs - 1)%nat)) as Hf.
          set (kf := if Nat.eqb (lyrFrozen (nlyrs - 1)%nat) 1 then _ else _) in *.
          assert (Hm : 0 <= fmin (fmax 0 (swc s (nlyrs - 1)%nat
                                        - swcmin (nlyrs - 1)%nat))
                         (if GT (swc s (nlyrs - 1)%nat) (swcfc (nlyrs - 1)%nat)
                          then sdrainpar
                          else sdrainpar
                               * exp ((swc s (nlyrs - 1)%nat
                                       - swcfc (nlyrs - 1)%nat)
                                      * sdraindpth / width (nlyrs - 1)%nat))).
          { pose proof (fmax_ge_l 0 (swc s (nlyrs - 1)%nat
                                     - swcmin (nlyrs - 1)%nat)).
            assert (0 <= (if GT (swc s (nlyrs - 1)%nat) (swcfc (nlyrs - 1)%nat)
                          then sdrainpar
                          else sdrainpar
                               * exp ((swc s (nlyrs - 1)%nat
                                       - swcfc (nlyrs - 1)%nat)
                                      * sdraindpth / width (nlyrs - 1)%nat))).
            { destruct (GT _ _); [exact Hpar|].
              apply Qmult_le_0_compat; [exact Hpar | apply Hexp]. }
            split_fm; lra. }
          set (m := fmin _ _) in *. clearbody m kf.
          assert (0 <= kf * (1 - impermeability (nlyrs - 1)%nat)) by nra.
          nra. }
        destruct (fmax_spec d 0) as [[Hc E]|[Hc E]]; rewrite E; lra. }
      clearbody d.
      destruct (Nat.ltb_spec i (nlyrs - 1)) as [Hlt|Hge];
        cbn [swc drain standingWater drainout].
      + split; [exact Hst|]. split; [|split; [|split]].
        * specialize (Hdr i (Nat.le_refl i)). cells.
        * intros k Hkn. specialize (Hk k Hkn).
          pose proof (Hdr i (Nat.le_refl i)) as Hdi.
          cells.
          all: assert (k = i) by lia; subst; lra.
        * intros k Hkn. rewrite !upd_other by lia. apply Hout. exact Hkn.
        * intros k Hkn. rewrite upd_other by lia. apply Hdr. lia.
      + specialize (Hd Hge).
        split; [exact Hst|]. split; [|split; [|split]].
        * specialize (Hdr i (Nat.le_refl i)). cells.
        * intros k Hkn. specialize (Hk k Hkn).
          pose proof (Hdr i (Nat.le_refl i)) as Hdi.
          cells.
        * intros k Hkn. rewrite !upd_other by lia. apply Hout. exact Hkn.
        * intros k Hkn. rewrite upd_other by lia. apply Hdr. lia. }
  destruct H as (Hst & H0 & Hk & Hout & _).
  split; [exact Hst|]. split; [exact H0|]. split; [|exact Hout].
  intros k Hkn. specialize (Hk k Hkn). cells.
Qed.


Section Sweep.

Variable pool : Q -> Q -> Q.

Local Abbreviation step := (push_upwards pool swcsat).

(** One iteration of the upward sweep changes [drain[j - 1]] only. *)
Lemma push_upwards_drain_other (s : flow_state) (j k : nat) :
  (j <= k)%nat -> drain (step s j) k = drain s k.
Proof.
  intro H. unfold push_upwards.
  destruct (GT (swc s j) (swcsat j)); [|reflexivity].
  destruct (Nat.ltb_spec 0 j); cbn [drain]; [|reflexivity].
  now rewrite upd_other by lia.
Qed.

Lemma for_down_drain_above (n : nat) (s : flow_state) (k : nat) :
  (n <= k)%nat -> drain (for_down n step s) k = drain s k.
Proof.
  revert s. induction n as [|n IH]; intros s Hk.
  - rewrite for_down_0. apply push_upwards_drain_other. lia.
  - rewrite for_down_S, IH by lia. apply push_upwards_drain_other. lia.
Qed.

(** An iteration above the surface moves water between two layers and
    corrects the drainage between them by as much. *)
Lemma push_upwards_flux_above (b d0 : arr) (c : Q) (s : flow_state) (j : nat) :
  let G := fun s : flow_state =>
    swc s 0%nat == c - (drain s 0%nat - d0 0%nat)
    /\ (forall k, (k + 1 < nlyrs)%nat ->
          swc s (k + 1)%nat
          == b (k + 1)%nat + (drain s k - d0 k)
             - (drain s (k + 1)%nat - d0 (k + 1)%nat)) in
  G s -> G (step s (j + 1)%nat).
Proof.
  cbv zeta. intros [H0 Hk]. unfold push_upwards.
  destruct (GT (swc s (j + 1)%nat) (swcsat (j + 1)%nat)); [|split; assumption].
  replace (0 <? j + 1)%nat with true by (symmetry; apply Nat.ltb_lt; lia).
  replace (j + 1 - 1)%nat with j by lia.
  cbn [swc drain].
  set (push := swc s (j + 1)%nat - swcsat (j + 1)%nat). clearbody push.
  split.
  - cells.
  - intros k Hkn. specialize (Hk k Hkn). cells.
    all: try (assert (k = j) by lia; subst; lra).
    all: try (assert (j = k + 1)%nat by lia; subst; lra).
Qed.

Lemma for_down_to_1_flux (b d0 : arr) (c : Q) (s : flow_state) (m : nat) :
  let G := fun s : flow_state =>
    swc s 0%nat == c - (drain s 0%nat - d0 0%nat)
    /\ (forall k, (k + 1 < nlyrs)%nat ->
          swc s (k + 1)%nat
          == b (k + 1)%nat + (drain s k - d0 k)
             - (drain s (k + 1)%nat - d0 (k + 1)%nat)) in
  G s -> G (for_down_to_1 m step s).
Proof.
  cbv zeta. intro H. unfold for_down_to_1.
  apply (fold_left_inv (fun s : flow_state =>
    swc s 0%nat == c - (drain s 0%nat - d0 0%nat)
    /\ (forall k, (k + 1 < nlyrs)%nat ->
          swc s (k + 1)%nat
          == b (k + 1)%nat + (drain s k - d0 k)
             - (drain s (k + 1)%nat - d0 (k + 1)%nat)))); [exact H|].
  intros s' j Hj Hs'. apply in_rev, in_seq in Hj.
  destruct j as [|j]; [lia|]. replace (S j) with (j + 1)%nat by lia.
  apply (push_upwards_flux_above b d0 c s' j Hs').
Qed.

(** The last iteration leaves [drain[]] and the layers below the first
    alone. *)
Lemma push_upwards_surface_frame (s : flow_state) :
  drain (step s 0%nat) = drain s
  /\ (forall k, swc (step s 0%nat) (k + 1)%nat = swc s (k + 1)%nat).
Proof.
  unfold push_upwards.
  destruct (GT (swc s 0%nat) (swcsat 0%nat)); [|split; reflexivity].
  cbn [Nat.ltb Nat.leb swc drain]. split; [reflexivity|].
  intro k. apply upd_other. lia.
Qed.

(** Above the surface the sweep moves water between cells of [swc]. *)
Lemma push_upwards_sum_above (s : flow_state) (j m : nat) :
  (S j < m)%nat -> sumQ (swc (step s (S j))) m == sumQ (swc s) m.
Proof.
  intro H. unfold push_upwards.
  destruct (GT (swc s (S j)) (swcsat (S j))); [|reflexivity].
  replace (0 <? S j)%nat with true by reflexivity.
  replace (S j - 1)%nat with j by lia. cbn [swc].
  rewrite !sumQ_upd_in by lia. rewrite !upd_other by lia. ring.
Qed.

Lemma for_down_to_1_sum (s : flow_state) (n m : nat) :
  (n < m)%nat -> sumQ (swc (for_down_to_1 n step s)) m == sumQ (swc s) m.
Proof.
  intro H. unfold for_down_to_1.
  apply (fold_left_inv (fun s' => sumQ (swc s') m == sumQ (swc s) m));
    [reflexivity|].
  intros s' j Hj Hs'. apply in_rev, in_seq in Hj.
  destruct j as [|j]; [lia|].
  rewrite push_upwards_sum_above by lia. exact Hs'.
Qed.

Lemma for_down_to_1_drainout (s : flow_state) (n : nat) :
  drainout (for_down_to_1 n step s) = drainout s.
Proof.
  unfold for_down_to_1.
  apply (fold_left_inv (fun s' => drainout s' = drainout s)); [reflexivity|].
  intros s' j _ Hs'. now rewrite push_upwards_drainout.
Qed.

(** With the cell after the profile not above its saturation, the sweep
    starts with an iteration that does nothing and the profile is closed
    at the bottom. *)
Lemma for_down_closed_below (s : flow_state) :
  (1 <= nlyrs)%nat ->
  swc s nlyrs <= swcsat nlyrs ->
  swc (for_down nlyrs step s) nlyrs = swc s nlyrs
  /\ drain (for_down nlyrs step s) (nlyrs - 1)%nat = drain s (nlyrs - 1)%nat.
Proof.
  intros Hn Hsat. destruct nlyrs as [|n]; [lia|].
  rewrite for_down_S.
  assert (E : step s (S n) = s).
  { unfold push_upwards.
    replace (GT (swc s (S n)) (swcsat (S n))) with false
      by (symmetry; apply GT_false; exact Hsat).
    reflexivity. }
  rewrite E. split.
  - apply for_down_swc_above. lia.
  - apply for_down_drain_above. lia.
Qed.

End Sweep.

(** [drain[k]] on return from [infiltrate_water_high] is the net amount
    that left layer [k] downwards: every layer holds what it held, plus
    what came in from above (the throughfall less the standing water for
    layer 0, the drainage of the layer above otherwise), minus its own
    drainage. *)
Theorem infiltrate_water_high_layer_balance (s : flow_state) (pptleft : Q) :
  (1 <= nlyrs)%nat ->
  let s' := infiltrate_water_high lyrFrozen s pptleft nlyrs swcfc swcsat
              impermeability in
  swc s' 0%nat
  == swc s 0%nat + (pptleft - standingWater s') - drain s' 0%nat
  /\ (forall k, (k + 1 < nlyrs)%nat ->
        swc s' (k + 1)%nat
        == swc s (k + 1)%nat + drain s' k - drain s' (k + 1)%nat).
Proof.
  intro Hn. cbv zeta. unfold infiltrate_water_high. cbv zeta.
  set (s0 := mkFlow _ (drain s) (drainout s) 0).
  destruct (saturated_percolation_flux s0) as (Hst & H0 & Hk & _ & _).
  set (s1 := for_up 0 nlyrs sat_step s0) in *.
  rewrite for_down_last.
  assert (G1 : swc s1 0%nat
               == (swc s 0%nat + pptleft) - (drain s1 0%nat - 0)
               /\ (forall k, (k + 1 < nlyrs)%nat ->
                     swc s1 (k + 1)%nat
                     == swc s (k + 1)%nat + (drain s1 k - 0)
                        - (drain s1 (k + 1)%nat - 0))).
  { split.
    - rewrite H0. unfold s0. cbn [swc]. rewrite upd_same.
      unfold written. replace (0 <? nlyrs)%nat with true
        by (symmetry; apply Nat.ltb_lt; lia). ring.
    - intros k Hkn. rewrite (Hk k Hkn). unfold s0. cbn [swc].
      rewrite upd_other by lia. ring. }
  pose proof (for_down_to_1_flux (fun _ push => push) (swc s) (fun _ => 0)
                (swc s 0%nat + pptleft) s1 nlyrs G1) as [G0 Gk].
  pose proof (for_down_to_1_standing (fun _ push => push) swcsat nlyrs s1)
    as Hst2.
  set (s2 := for_down_to_1 nlyrs _ s1) in *.
  destruct (push_upwards_surface_frame (fun _ push => push) s2) as [Hdr Hsw].
  destruct (push_upwards_surface (fun _ push => push) swcsat s2) as [Hs0 Hcase].
  rewrite Hdr. split.
  - assert (Hz : standingWater s2 = 0) by (rewrite Hst2, Hst; reflexivity).
    set (excess := fmax 0 _) in *.
    destruct Hcase as [[E1 E2]|[E1 [E2 _]]]; rewrite E1.
    + rewrite Hz. lra.
    + rewrite <- E2. lra.
  - intros k Hkn. rewrite Hsw. specialize (Gk k Hkn). lra.
Qed.


(** The same for [infiltrate_water_low], in terms of what the call adds to
    [drain[]] and to the standing water.  The deepest layer loses
    [fmax d 0] while [d] is added to its [drain] cell: the two agree for a
    drainage that is not negative. *)
Theorem infiltrate_water_low_layer_balance (s : flow_state) :
  (1 <= nlyrs)%nat ->
  impermeability (nlyrs - 1)%nat <= 1 ->
  0 <= sdrainpar -> (forall x, 0 <= exp x) ->
  let s' := infiltrate_water_low lyrFrozen exp s nlyrs sdrainpar sdraindpth
              swcfc width swcmin swcsat impermeability in
  let out := fun k => drain s' k - drain s k in
  swc s' 0%nat
  == swc s 0%nat - (standingWater s' - standingWater s) - out 0%nat
  /\ (forall k, (k + 1 < nlyrs)%nat ->
        swc s' (k + 1)%nat == swc s (k + 1)%nat + out k - out (k + 1)%nat).
Proof.
  intros Hn Himp Hpar Hexp. cbv zeta. unfold infiltrate_water_low. cbv zeta.
  destruct (unsaturated_percolation_flux s (fun _ => Himp) Hpar Hexp)
    as (Hst & H0 & Hk & _).
  set (s1 := for_up 0 nlyrs unsat_step s) in *.
  rewrite for_down_last.
  assert (G1 : swc s1 0%nat
               == swc s 0%nat - (drain s1 0%nat - drain s 0%nat)
               /\ (forall k, (k + 1 < nlyrs)%nat ->
                     swc s1 (k + 1)%nat
                     == swc s (k + 1)%nat + (drain s1 k - drain s k)
                        - (drain s1 (k + 1)%nat - drain s (k + 1)%nat))).
  { split.
    - rewrite H0. unfold written. replace (0 <? nlyrs)%nat with true
        by (symmetry; apply Nat.ltb_lt; lia). ring.
    - intros k Hkn. rewrite (Hk k Hkn). ring. }
  pose proof (for_down_to_1_flux (fun old push => old + push) (swc s) (drain s)
                (swc s 0%nat) s1 nlyrs G1) as [G0 Gk].
  pose proof (for_down_to_1_standing (fun old push => old + push) swcsat
                nlyrs s1) as Hst2.
  set (s2 := for_down_to_1 nlyrs _ s1) in *.
  destruct (push_upwards_surface_frame (fun old push => old + push) s2)
    as [Hdr Hsw].
  destruct (push_upwards_surface (fun old push => old + push) swcsat s2)
    as [Hs0 Hcase].
  rewrite Hdr. split.
  - set (excess := fmax 0 _) in *.
    destruct Hcase as [[E1 E2]|[E1 [E2 _]]]; rewrite E1, Hst2, Hst.
    + lra.
    + rewrite <- E2. lra.
  - intros k Hkn. rewrite Hsw. specialize (Gk k Hkn). lra.
Qed.

(** *** Totals *)

Lemma saturated_percolation_sum (s : flow_state) (i m : nat) :
  (i < nlyrs)%nat -> (nlyrs <= m)%nat ->
  let s' := sat_step s i in
  standingWater s' = standingWater s
  /\ sumQ (swc s') m + (if (i <? nlyrs - 1)%nat then 0 else drainout s')
     == sumQ (swc s) m.
Proof.
  intros Hi Hm. cbv zeta. unfold saturated_percolation.
  set (d := fmax 0 _). clearbody d.
  destruct (Nat.ltb_spec i (nlyrs - 1)); cbn [swc drainout standingWater];
    (split; [reflexivity|]).
  - rewrite !sumQ_upd_in by lia. rewrite !upd_other by lia. ring.
  - rewrite sumQ_upd_in by lia. ring.
Qed.

Lemma unsaturated_percolation_sum (s : flow_state) (i m : nat) :
  (i < nlyrs)%nat -> (nlyrs <= m)%nat ->
  let s' := unsat_step s i in
  standingWater s' = standingWater s
  /\ sumQ (swc s') m + drainout s' == sumQ (swc s) m + drainout s.
Proof.
  intros Hi Hm. cbv zeta. unfold unsaturated_percolation.
  set (d := if LE (swc s i) (swcmin i) then 0 else _). clearbody d.
  destruct (Nat.ltb_spec i (nlyrs - 1)); cbn [swc drainout standingWater];
    (split; [reflexivity|]).
  - rewrite !sumQ_upd_in by lia. rewrite !upd_other by lia. ring.
  - rewrite sumQ_upd_in by lia. ring.
Qed.

(** The last iteration of the sweep moves the excess of layer 0 into the
    standing water. *)
Lemma push_upwards_surface_sum (pool : Q -> Q -> Q) (s : flow_state) (m : nat) :
  (1 <= m)%nat ->
  let s' := push_upwards pool swcsat s 0%nat in
  (standingWater s' = standingWater s /\ sumQ (swc s') m == sumQ (swc s) m)
  \/ (standingWater s'
      = pool (standingWater s) (swc s 0%nat - swcsat 0%nat)
      /\ sumQ (swc s') m
         == sumQ (swc s) m - (swc s 0%nat - swcsat 0%nat)).
Proof.
  intro Hm. cbv zeta. unfold push_upwards.
  destruct (GT (swc s 0%nat) (swcsat 0%nat)).
  - right. cbn [Nat.ltb Nat.leb swc standingWater]. split; [reflexivity|].
    rewrite sumQ_upd_in by lia. ring.
  - left. split; reflexivity.
Qed.

(** No water is made or lost by [infiltrate_water_high]: the throughfall
    ends in the layers, in the drainage out of the profile or in the
    standing water.  The sweep starts at the cell after the profile, which
    has to be counted; with that cell not above its saturation the
    balance is that of the profile, and the drainage out of the profile is
    the drainage of the deepest layer. *)
Theorem infiltrate_water_high_water_balance (s : flow_state) (pptleft : Q) :
  (1 <= nlyrs)%nat ->
  let s' := infiltrate_water_high lyrFrozen s pptleft nlyrs swcfc swcsat
              impermeability in
  sumQ (swc s') (nlyrs + 1) + drainout s' + standingWater s'
  == sumQ (swc s) (nlyrs + 1) + pptleft
  /\ (swc s nlyrs <= swcsat nlyrs ->
      sumQ (swc s') nlyrs + drainout s' + standingWater s'
      == sumQ (swc s) nlyrs + pptleft
      /\ drainout s' = drain s' (nlyrs - 1)%nat).
Proof.
  intro Hn. cbv zeta. unfold infiltrate_water_high. cbv zeta.
  set (s0 := mkFlow _ (drain s) (drainout s) 0).
  set (P := fun (i : nat) (s1 : flow_state) =>
    standingWater s1 = 0
    /\ sumQ (swc s1) (nlyrs + 1)
       + (if Nat.eqb i nlyrs then drainout s1 else 0)
       == sumQ (swc s) (nlyrs + 1) + pptleft).
  assert (H1 : P nlyrs (for_up 0 nlyrs sat_step s0)).
  { apply (for_up_ind P); [lia | |]; unfold P.
    - split; [reflexivity|]. unfold s0. cbn [swc].
      replace (Nat.eqb 0 nlyrs) with false
        by (symmetry; apply Nat.eqb_neq; lia).
      rewrite sumQ_upd_in by lia. ring.
    - intros i s1 Hi [Hst Hsum].
      destruct (saturated_percolation_sum s1 i (nlyrs + 1)) as [Hst' Hsum'];
        [lia | lia |].
      split; [now rewrite Hst'|].
      replace (Nat.eqb i nlyrs) with false in Hsum
        by (symmetry; apply Nat.eqb_neq; lia).
      destruct (Nat.ltb_spec i (nlyrs - 1)).
      + replace (Nat.eqb (S i) nlyrs) with false
          by (symmetry; apply Nat.eqb_neq; lia). lra.
      + replace (Nat.eqb (S i) nlyrs) with true
          by (symmetry; apply Nat.eqb_eq; lia). lra. }
  destruct H1 as [Hst1 Hsum1]. rewrite Nat.eqb_refl in Hsum1.
  destruct (saturated_percolation_flux s0) as (_ & _ & _ & Hout & Hdo).
  set (s1 := for_up 0 nlyrs sat_step s0) in *.
  assert (Htot : sumQ (swc (for_down nlyrs
                              (push_upwards (fun _ push => push) swcsat) s1))
                   (nlyrs + 1)
                 + drainout (for_down nlyrs
                               (push_upwards (fun _ push => push) swcsat) s1)
                 + standingWater (for_down nlyrs
                               (push_upwards (fun _ push => push) swcsat) s1)
                 == sumQ (swc s) (nlyrs + 1) + pptleft).
  { rewrite for_down_last.
    pose proof (for_down_to_1_sum (fun _ push => push) s1 nlyrs (nlyrs + 1))
      as Hsum2.
    pose proof (for_down_to_1_standing (fun _ push => push) swcsat nlyrs s1)
      as Hst2.
    pose proof (for_down_to_1_drainout (fun _ push => push) s1 nlyrs) as Hdo2.
    set (s2 := for_down_to_1 nlyrs _ s1) in *.
    rewrite push_upwards_drainout, Hdo2.
    destruct (push_upwards_surface_sum (fun _ push => push) s2 (nlyrs + 1))
      as [[E1 E2]|[E1 E2]]; [lia | |]; rewrite E1, E2, Hsum2 by lia.
    - rewrite Hst2, Hst1. lra.
    - lra. }
  split; [exact Htot|].
  intro Hsat.
  assert (Hcell : swc s1 nlyrs = swc s nlyrs).
  { rewrite Hout by lia. unfold s0. cbn [swc]. apply upd_other. lia. }
  destruct (for_down_closed_below (fun _ push => push) s1 Hn) as [Hc Hd].
  { rewrite Hcell. exact Hsat. }
  split.
  - replace (nlyrs + 1)%nat with (S nlyrs) in Htot by lia.
    rewrite !sumQ_S in Htot. rewrite Hc, Hcell in Htot. lra.
  - rewrite Hd. unfold for_down.
    transitivity (drainout s1); [|apply Hdo; exact Hn].
    apply (fold_left_inv (fun s2 => drainout s2 = drainout s1)); [reflexivity|].
    intros s2 j _ Hs2. now rewrite push_upwards_drainout.
Qed.

(** The same for [infiltrate_water_low], which adds to the drainage out of
    the profile and to the standing water. *)
Theorem infiltrate_water_low_water_balance (s : flow_state) :
  (1 <= nlyrs)%nat ->
  let s' := infiltrate_water_low lyrFrozen exp s nlyrs sdrainpar sdraindpth
              swcfc width swcmin swcsat impermeability in
  sumQ (swc s') (nlyrs + 1) + drainout s' + standingWater s'
  == sumQ (swc s) (nlyrs + 1) + drainout s + standingWater s
  /\ (swc s nlyrs <= swcsat nlyrs ->
      sumQ (swc s') nlyrs + drainout s' + standingWater s'
      == sumQ (swc s) nlyrs + drainout s + standingWater s).
Proof.
  intro Hn. cbv zeta. unfold infiltrate_water_low. cbv zeta.
  set (P := fun (i : nat) (s1 : flow_state) =>
    standingWater s1 = standingWater s
    /\ (forall k, (nlyrs <= k)%nat -> swc s1 k = swc s k)
    /\ sumQ (swc s1) (nlyrs + 1) + drainout s1
       == sumQ (swc s) (nlyrs + 1) + drainout s).
  assert (H1 : P nlyrs (for_up 0 nlyrs unsat_step s)).
  { apply (for_up_ind P); [lia | |]; unfold P.
    - split; [reflexivity|]. split; [reflexivity|]. lra.
    - intros i s1 Hi (Hst & Hout & Hsum).
      destruct (unsaturated_percolation_sum s1 i (nlyrs + 1))
        as [Hst' Hsum']; [lia | lia |].
      split; [now rewrite Hst'|]. split; [|lra].
      intros k Hk. rewrite <- (Hout k Hk). unfold unsaturated_percolation.
      destruct (Nat.ltb_spec i (nlyrs - 1)); cbn [swc];
        rewrite !upd_other by lia; reflexivity. }
  destruct H1 as (Hst1 & Hout & Hsum1).
  set (s1 := for_up 0 nlyrs unsat_step s) in *.
  assert (Htot : sumQ (swc (for_down nlyrs
                              (push_upwards (fun old push => old + push)
                                 swcsat) s1))
                   (nlyrs + 1)
                 + drainout (for_down nlyrs
                               (push_upwards (fun old push => old + push)
                                  swcsat) s1)
                 + standingWater (for_down nlyrs
                               (push_upwards (fun old push => old + push)
                                  swcsat) s1)
                 == sumQ (swc s) (nlyrs + 1) + drainout s + standingWater s).
  { rewrite for_down_last.
    pose proof (for_down_to_1_sum (fun old push => old + push) s1 nlyrs
                  (nlyrs + 1)) as Hsum2.
    pose proof (for_down_to_1_standing (fun old push => old + push) swcsat
                  nlyrs s1) as Hst2.
    pose proof (for_down_to_1_drainout (fun old push => old + push) s1 nlyrs)
      as Hdo2.
    set (s2 := for_down_to_1 nlyrs _ s1) in *.
    rewrite push_upwards_drainout, Hdo2.
    destruct (push_upwards_surface_sum (fun old push => old + push) s2
                (nlyrs + 1))
      as [[E1 E2]|[E1 E2]]; [lia | |];
      rewrite E1, E2, Hsum2, Hst2, Hst1 by lia; lra. }
  split; [exact Htot|].
  intro Hsat.
  destruct (for_down_closed_below (fun old push => old + push) s1 Hn)
    as [Hc _].
  { rewrite Hout by lia. exact Hsat. }
  replace (nlyrs + 1)%nat with (S nlyrs) in Htot by lia.
  rewrite !sumQ_S in Htot. rewrite Hc, Hout in Htot by lia. lra.
Qed.

End Flow.
(** Two layers at field capacity under 3 cm of water, the lower one half
    impermeable: 0.5 cm stays above the surface, 1.5 cm drains out. *)
Lemma infiltrate_water_high_layer_balance_witness :
  let s := mkFlow (buffer [0.5; 0.5]) (buffer []) 0 0 in
  let s' := infiltrate_water_high (fun _ => 0%nat) s 3 2 (buffer [0.5; 0.5])
              (buffer [1; 1]) (buffer [0; 0.5]) in
  standingWater s' == 0.5 /\ drain s' 0%nat == 2 /\ drain s' 1%nat == 1.5
  /\ swc s' 0%nat == 0.5 + (3 - standingWater s') - drain s' 0%nat
  /\ swc s' 1%nat == 0.5 + drain s' 0%nat - drain s' 1%nat.
Proof.
  cbv zeta.
  assert (Hn : (1 <= 2)%nat) by lia.
  destruct (infiltrate_water_high_layer_balance (fun _ => 0%nat) 2
              (buffer [0.5; 0.5]) (buffer [1; 1]) (buffer [0; 0.5])
              (mkFlow (buffer [0.5; 0.5]) (buffer []) 0 0) 3 Hn) as [H0 Hk].
  split; [vm_compute; reflexivity|]. split; [vm_compute; reflexivity|]. split; [vm_compute; reflexivity|].
  split; [exact H0|].
  apply (Hk 0%nat). lia.
Defined.

(** Two layers above field capacity draining slowly. *)
Lemma infiltrate_water_low_layer_balance_witness :
  let s := mkFlow (buffer [0.8; 0.6]) (buffer [0.1; 0.2]) 0.2 0 in
  let s' := infiltrate_water_low (fun _ => 0%nat) (fun _ => 1) s 2 0.02 1
              (buffer [0.5; 0.5]) (buffer [10; 10]) (buffer [0.1; 0.1])
              (buffer [1; 1]) (buffer [0; 0]) in
  drain s' 0%nat == 0.12 /\ drain s' 1%nat == 0.22
  /\ swc s' 0%nat
     == 0.8 - (standingWater s' - 0) - (drain s' 0%nat - 0.1)
  /\ swc s' 1%nat
     == 0.6 + (drain s' 0%nat - 0.1) - (drain s' 1%nat - 0.2).
Proof.
  cbv zeta.
  assert (Hn : (1 <= 2)%nat) by lia.
  assert (Hi : buffer [0; 0] (2 - 1)%nat <= 1) by (vm_compute; discriminate).
  assert (Hp : 0 <= 0.02) by lra.
  assert (He : forall x : Q, 0 <= (fun _ : Q => 1) x) by (intro; lra).
  destruct (infiltrate_water_low_layer_balance (fun _ => 0%nat) (fun _ => 1) 2
              (buffer [0.5; 0.5]) (buffer [0.1; 0.1]) (buffer [1; 1])
              (buffer [0; 0]) (buffer [10; 10]) 0.02 1
              (mkFlow (buffer [0.8; 0.6]) (buffer [0.1; 0.2]) 0.2 0)
              Hn Hi Hp He) as [H0 Hk].
  split; [vm_compute; reflexivity|]. split; [vm_compute; reflexivity|].
  split; [exact H0|].
  apply (Hk 0%nat). lia.
Defined.

Lemma infiltrate_water_high_water_balance_witness :
  let s := mkFlow (buffer [0.5; 0.5]) (buffer []) 0 0 in
  let s' := infiltrate_water_high (fun _ => 0%nat) s 3 2 (buffer [0.5; 0.5])
              (buffer [1; 1]) (buffer [0; 0.5]) in
  sumQ (swc s') 2 == 2 /\ drainout s' == 1.5 /\ standingWater s' == 0.5
  /\ sumQ (swc s') 2 + drainout s' + standingWater s' == sumQ (swc s) 2 + 3.
Proof.
  cbv zeta.
  assert (Hn : (1 <= 2)%nat) by lia.
  destruct (infiltrate_water_high_water_balance (fun _ => 0%nat) 2
              (buffer [0.5; 0.5]) (buffer [1; 1]) (buffer [0; 0.5])
              (mkFlow (buffer [0.5; 0.5]) (buffer []) 0 0) 3 Hn) as [_ H].
  destruct H as [H _]; [vm_compute; discriminate|].
  split; [vm_compute; reflexivity|]. split; [vm_compute; reflexivity|]. split; [vm_compute; reflexivity|].
  exact H.
Defined.

Lemma infiltrate_water_low_water_balance_witness :
  let s := mkFlow (buffer [0.8; 0.6]) (buffer [0.1; 0.2]) 0.2 0 in
  let s' := infiltrate_water_low (fun _ => 0%nat) (fun _ => 1) s 2 0.02 1
              (buffer [0.5; 0.5]) (buffer [10; 10]) (buffer [0.1; 0.1])
              (buffer [1; 1]) (buffer [0; 0]) in
  drainout s' == 0.22
  /\ sumQ (swc s') 2 + drainout s' + standingWater s'
     == sumQ (swc s) 2 + 0.2 + 0.
Proof.
  cbv zeta.
  assert (Hn : (1 <= 2)%nat) by lia.
  destruct (infiltrate_water_low_water_balance (fun _ => 0%nat) (fun _ => 1) 2
              (buffer [0.5; 0.5]) (buffer [0.1; 0.1]) (buffer [1; 1])
              (buffer [0; 0]) (buffer [10; 10]) 0.02 1
              (mkFlow (buffer [0.8; 0.6]) (buffer [0.1; 0.2]) 0.2 0) Hn)
    as [_ H].
  split; [vm_compute; reflexivity|].
  apply H. vm_compute. discriminate.
Defined.

End FluxFacts.

Module RemovalBalanceFacts.

Import SoilWater SumFacts RemovalFacts.

Section Removal.

Variable lyrFrozen : nat -> nat.
Variable SWCbulk2SWPmatric : Q -> Q -> nat -> Q.
Variable fractionVolBulk_gravel : nat -> Q.

Local Abbreviation remove_from_soil :=
  (remove_from_soil lyrFrozen SWCbulk2SWPmatric fractionVolBulk_gravel).

(** What leaves the layers is added to [*aet]; frozen layers and the cells
    beyond [nlyrs] are not touched. *)
Theorem remove_from_soil_water_balance (s : removal_state) (nlyrs : nat)
    (coeff : arr) (rate : Q) (swcmin : arr) :
  let s' := remove_from_soil s nlyrs coeff rate swcmin in
  sumQ (r_swc s') nlyrs + aet s' == sumQ (r_swc s) nlyrs + aet s
  /\ (forall i, (nlyrs <= i)%nat \/ lyrFrozen i <> 0%nat ->
        r_swc s' i = r_swc s i /\ qty s' i = qty s i).
Proof.
  cbv zeta. unfold SoilWater.remove_from_soil.
  set (swpfrac := fun i : nat =>
         coeff i / SWCbulk2SWPmatric (fractionVolBulk_gravel i) (r_swc s i) i).
  set (sumswp := for_up 0 nlyrs _ 0).
  destruct (ZRO sumswp).
  { split; [reflexivity|]. intros; split; reflexivity. }
  set (P := fun (i : nat) (s' : removal_state) =>
    sumQ (r_swc s') nlyrs + aet s' == sumQ (r_swc s) nlyrs + aet s
    /\ (forall k, (i <= k)%nat \/ lyrFrozen k <> 0%nat ->
          r_swc s' k = r_swc s k /\ qty s' k = qty s k)).
  assert (H : P nlyrs
                (for_up 0 nlyrs (fun s0 i =>
                   if Nat.eqb (lyrFrozen i) 0 then
                     mkRemoval
                       (upd (r_swc s0) i
                          (r_swc s0 i
                           - fmin (swpfrac i / sumswp * rate)
                               (fmax 0 (r_swc s0 i - swcmin i))))
                       (upd (qty s0) i
                          (fmin (swpfrac i / sumswp * rate)
                             (fmax 0 (r_swc s0 i - swcmin i))))
                       (aet s0
                        + fmin (swpfrac i / sumswp * rate)
                            (fmax 0 (r_swc s0 i - swcmin i)))
                   else s0) s)).
  { apply (for_up_ind P); [lia | |]; unfold P.
    - split; [reflexivity|]. intros; split; reflexivity.
    - intros i s0 Hi [Hsum Hfr].
      destruct (Nat.eqb_spec (lyrFrozen i) 0) as [Eu|Ef].
      + cbn [r_swc qty aet]. split.
        * rewrite sumQ_upd_in by lia. lra.
        * intros k Hk.
          assert (k <> i) by (intros ->; destruct Hk; [lia | contradiction]).
          rewrite !upd_other by assumption. apply Hfr.
          destruct Hk; [left; lia | right; assumption].
      + split; [exact Hsum|]. intros k Hk.
        destruct (Nat.eq_dec k i) as [->|Hne].
        * apply Hfr. now right.
        * apply Hfr. destruct Hk; [left; lia | right; assumption]. }
  exact H.
Qed.

(** With non-negative coefficients and demand and positive water
    potentials, the layers together give up no more than [rate], and no
    layer gains water. *)
Theorem remove_from_soil_within_demand (s : removal_state) (nlyrs : nat)
    (coeff : arr) (rate : Q) (swcmin : arr) :
  0 <= rate ->
  (forall i, (i < nlyrs)%nat -> 0 <= coeff i) ->
  (forall i, (i < nlyrs)%nat ->
     0 < SWCbulk2SWPmatric (fractionVolBulk_gravel i) (r_swc s i) i) ->
  let s' := remove_from_soil s nlyrs coeff rate swcmin in
  0 <= aet s' - aet s <= rate
  /\ (forall i, r_swc s' i <= r_swc s i).
Proof.
  intros Hrate Hcoeff Hswp. cbv zeta. unfold SoilWater.remove_from_soil.
  set (swpfrac := fun i : nat =>
         coeff i / SWCbulk2SWPmatric (fractionVolBulk_gravel i) (r_swc s i) i).
  set (sumswp := for_up 0 nlyrs _ 0).
  assert (Hfrac : forall i, (i < nlyrs)%nat -> 0 <= swpfrac i)
    by (intros i Hi; apply quotient_nonneg; [now apply Hcoeff | now apply Hswp]).
  assert (Hsum : 0 <= sumswp) by (now apply sum_nonneg).
  destruct (ZRO sumswp) eqn:Ez.
  { split; [lra|]. intro. apply Qle_refl. }
  apply ZRO_false in Ez.
  assert (Hpos : 0 < sumswp).
  { destruct (Qlt_le_dec 0 sumswp) as [H|H]; [exact H|].
    exfalso. apply Ez. lra. }
  assert (Hshare : forall i, (i < nlyrs)%nat -> 0 <= swpfrac i / sumswp * rate).
  { intros i Hi. apply Qmult_le_0_compat; [|exact Hrate].
    apply quotient_nonneg; [now apply Hfrac | exact Hpos]. }
  assert (Hall : sumQ (fun k => swpfrac k / sumswp * rate) nlyrs == rate).
  { transitivity (sumQ swpfrac nlyrs * (/ sumswp * rate)).
    - rewrite <- sumQ_scale. apply sumQ_ext. intros k _.
      unfold Qdiv. ring.
    - change (sumQ swpfrac nlyrs) with sumswp. field. exact Ez. }
  set (P := fun (i : nat) (s' : removal_state) =>
    0 <= aet s' - aet s
    /\ aet s' - aet s <= sumQ (fun k => swpfrac k / sumswp * rate) i
    /\ (forall k, r_swc s' k <= r_swc s k)).
  assert (H : P nlyrs
                (for_up 0 nlyrs (fun s0 i =>
                   if Nat.eqb (lyrFrozen i) 0 then
                     mkRemoval
                       (upd (r_swc s0) i
                          (r_swc s0 i
                           - fmin (swpfrac i / sumswp * rate)
                               (fmax 0 (r_swc s0 i - swcmin i))))
                       (upd (qty s0) i
                          (fmin (swpfrac i / sumswp * rate)
                             (fmax 0 (r_swc s0 i - swcmin i))))
                       (aet s0
                        + fmin (swpfrac i / sumswp * rate)
                            (fmax 0 (r_swc s0 i - swcmin i)))
                   else s0) s)).
  { apply (for_up_ind P); [lia | |]; unfold P.
    - split; [lra|]. split; [cbn; lra|]. intro. apply Qle_refl.
    - intros i s0 Hi (H0 & H1 & H2). rewrite sumQ_S.
      specialize (Hshare i (proj2 Hi)).
      set (q := swpfrac i / sumswp * rate) in *. clearbody q.
      destruct (Nat.eqb (lyrFrozen i) 0).
      + cbn [r_swc qty aet].
        assert (Hq : 0 <= fmin q (fmax 0 (r_swc s0 i - swcmin i))
                     /\ fmin q (fmax 0 (r_swc s0 i - swcmin i)) <= q)
          by (split_fm; lra).
        destruct Hq as [Hq0 Hq1].
        set (t := fmin q _) in *. clearbody t.
        split; [lra|]. split; [lra|]. intro k.
        destruct (Nat.eq_dec k i) as [->|Hne].
        * rewrite upd_same. specialize (H2 i). lra.
        * rewrite upd_other by assumption. apply H2.
      + split; [lra|]. split; [lra|]. exact H2. }
  destruct H as (H0 & H1 & H2). split; [split; [exact H0 |] | exact H2].
  rewrite <- Hall. exact H1.
Qed.

End Removal.

(** Two unfrozen layers over a frozen one and a demand of 0.3 cm. *)
Lemma remove_from_soil_water_balance_witness :
  let s := mkRemoval (buffer [0.5; 0.4; 0.6]) (buffer [7; 7; 7]) 1 in
  let s' := remove_from_soil (fun i => if Nat.eqb i 2 then 1%nat else 0%nat)
              (fun _ w _ => 1 / w) (fun _ => 0) s 3 (buffer [0.5; 0.3; 0.2])
              0.3 (buffer [0.1; 0.1; 0.1]) in
  sumQ (r_swc s') 3 + aet s' == sumQ (r_swc s) 3 + 1
  /\ r_swc s' 2%nat = 0.6 /\ qty s' 2%nat = 7
  /\ 1 < aet s'.
Proof.
  cbv zeta.
  destruct (remove_from_soil_water_balance
              (fun i => if Nat.eqb i 2 then 1%nat else 0%nat)
              (fun _ w _ => 1 / w) (fun _ => 0)
              (mkRemoval (buffer [0.5; 0.4; 0.6]) (buffer [7; 7; 7]) 1) 3
              (buffer [0.5; 0.3; 0.2]) 0.3 (buffer [0.1; 0.1; 0.1]))
    as [Hsum Hfr].
  split; [exact Hsum|].
  destruct (Hfr 2%nat) as [H1 H2]; [right; discriminate|].
  split; [exact H1|]. split; [exact H2|]. vm_compute. reflexivity.
Defined.

Lemma remove_from_soil_within_demand_witness :
  let s := mkRemoval (buffer [0.5; 0.4; 0.6]) (buffer [7; 7; 7]) 1 in
  let s' := remove_from_soil (fun i => if Nat.eqb i 2 then 1%nat else 0%nat)
              (fun _ w _ => 1 / w) (fun _ => 0) s 3 (buffer [0.5; 0.3; 0.2])
              0.3 (buffer [0.1; 0.1; 0.1]) in
  0 <= aet s' - 1 <= 0.3 /\ r_swc s' 0%nat <= 0.5.
Proof.
  cbv zeta.
  assert (Hr : 0 <= 0.3) by lra.
  destruct (remove_from_soil_within_demand
              (fun i => if Nat.eqb i 2 then 1%nat else 0%nat)
              (fun _ w _ => 1 / w) (fun _ => 0)
              (mkRemoval (buffer [0.5; 0.4; 0.6]) (buffer [7; 7; 7]) 1) 3
              (buffer [0.5; 0.3; 0.2]) 0.3 (buffer [0.1; 0.1; 0.1]) Hr)
    as [Hd Hle].
  - intros i Hi. destruct i as [|[|[|i]]]; [| | |lia]; vm_compute; discriminate.
  - intros i Hi. destruct i as [|[|[|i]]]; [| | |lia]; vm_compute; reflexivity.
  - split; [exact Hd | apply (Hle 0%nat)].
Defined.

End RemovalBalanceFacts.

(* ================================================================= *)
(** ** Water balance of hydraulic redistribution *)

Module RedistributionFacts.

Import SoilWater SumFacts HydredFacts.

(** Scaling a row and its column keeps a square matrix antisymmetric and
    keeps its zero cells. *)
Lemma scale_cross_step (n i j : nat) (f : Q) (m : mat) :
  (i < n)%nat -> (j < n)%nat ->
  let m' := mupd m i j (m i j * f) in
  let m'' := mupd m' j i (m' j i * f) in
  ((forall a b, (a < n)%nat -> (b < n)%nat -> m a b == - m b a) ->
   (forall a b, (a < n)%nat -> (b < n)%nat -> m'' a b == - m'' b a))
  /\ (forall a b, m a b == 0 -> m'' a b == 0).
Proof.
  intros Hi Hj. cbv zeta. split.
  - intros Hanti a b Ha Hb.
    pose proof (Hanti i j Hi Hj) as Hij.
    pose proof (Hanti j i Hj Hi) as Hji.
    pose proof (Hanti i i Hi Hi) as Hii.
    pose proof (Hanti a b Ha Hb) as Hab.
    unfold mupd.
    destruct (Nat.eqb_spec a j), (Nat.eqb_spec b i), (Nat.eqb_spec a i),
      (Nat.eqb_spec b j), (Nat.eqb_spec i j), (Nat.eqb_spec j i);
      cbn [andb]; subst; try lia; try nra.
  - intros a b Hab. unfold mupd.
    destruct (Nat.eqb_spec a j), (Nat.eqb_spec b i), (Nat.eqb_spec a i),
      (Nat.eqb_spec b j), (Nat.eqb_spec i j), (Nat.eqb_spec j i);
      cbn [andb]; subst; try lia; try nra.
Qed.

Section Redistribution.

Variable lyrFrozen : nat -> nat.
Variable powe : Q -> Q -> Q.
Variable SWCbulk2SWPmatric : Q -> Q -> nat -> Q.
Variable fractionVolBulk_gravel : nat -> Q.
Variables swc0 swcwp lyrRootCo : arr.
Variable nlyrs : nat.
Variables maxCondroot swp50 shapeCond : Q.

Local Abbreviation hydredmat_before :=
  (hydredmat_before lyrFrozen powe SWCbulk2SWPmatric fractionVolBulk_gravel
     swc0 swcwp lyrRootCo nlyrs maxCondroot swp50 shapeCond).
Local Abbreviation hydredmat_after :=
  (hydredmat_after lyrFrozen powe SWCbulk2SWPmatric fractionVolBulk_gravel
     swc0 swcwp lyrRootCo nlyrs maxCondroot swp50 shapeCond).
Local Abbreviation hydredmat_pairs :=
  (hydredmat_pairs lyrFrozen powe SWCbulk2SWPmatric fractionVolBulk_gravel
     swc0 swcwp lyrRootCo nlyrs maxCondroot swp50 shapeCond).
Local Abbreviation pair_entry :=
  (pair_entry lyrFrozen powe SWCbulk2SWPmatric fractionVolBulk_gravel
     swc0 swcwp lyrRootCo maxCondroot swp50 shapeCond).
Local Abbreviation hydraulic_redistribution :=
  (hydraulic_redistribution lyrFrozen powe SWCbulk2SWPmatric
     fractionVolBulk_gravel swc0 swcwp lyrRootCo nlyrs maxCondroot swp50
     shapeCond).

(** The available-water scaling keeps [hydredmat] antisymmetric over the
    layers and keeps its zero cells. *)
Lemma hydredmat_scale_keeps (m : mat) :
  ((forall a b, (a < nlyrs)%nat -> (b < nlyrs)%nat -> m a b == - m b a) ->
   (forall a b, (a < nlyrs)%nat -> (b < nlyrs)%nat ->
      hydredmat_scale swc0 swcwp nlyrs m a b
      == - hydredmat_scale swc0 swcwp nlyrs m b a))
  /\ (forall a b, m a b == 0 -> hydredmat_scale swc0 swcwp nlyrs m a b == 0).
Proof.
  unfold hydredmat_scale. split.
  - intro Hanti.
    apply (for_up_ind (fun _ m' =>
             forall a b, (a < nlyrs)%nat -> (b < nlyrs)%nat ->
               m' a b == - m' b a)); [lia | exact Hanti |].
    intros i m1 Hi H1. cbv zeta.
    destruct (LT (row_sum nlyrs m1 i) 0 && GT (- row_sum nlyrs m1 i) _);
      [|exact H1].
    apply (for_up_ind (fun _ m' =>
             forall a b, (a < nlyrs)%nat -> (b < nlyrs)%nat ->
               m' a b == - m' b a)); [lia | exact H1 |].
    intros j m2 Hj H2.
    apply (scale_cross_step nlyrs i j _ m2); [lia | lia | exact H2].
  - intros a b Hab.
    apply (for_up_ind (fun _ m' => m' a b == 0)); [lia | exact Hab |].
    intros i m1 Hi H1. cbv zeta.
    destruct (LT (row_sum nlyrs m1 i) 0 && GT (- row_sum nlyrs m1 i) _);
      [|exact H1].
    apply (for_up_ind (fun _ m' => m' a b == 0)); [lia | exact H1 |].
    intros j m2 Hj H2.
    apply (scale_cross_step nlyrs i j _ m2); [lia | lia | exact H2].
Qed.

(** The second loop clears [hydred[1 .. nlyrs - 1]]. *)
Lemma hydredmat_pairs_hydred (h : arr) (m : mat) (k : nat) :
  fst (hydredmat_pairs (h, m)) k
  = if (1 <=? k)%nat && (k <? nlyrs)%nat then 0 else h k.
Proof.
  unfold SoilWater.hydredmat_pairs.
  destruct (Nat.le_gt_cases 1 nlyrs) as [Hn|Hn].
  - apply (for_up_ind (fun I hm =>
             fst hm k = if (1 <=? k)%nat && (k <? I)%nat then 0 else h k));
      [exact Hn | |].
    + cbn [fst]. destruct (Nat.leb_spec 1 k), (Nat.ltb_spec k 1);
        cbn [andb]; try reflexivity; lia.
    + intros i hm Hi IH. cbn [fst]. unfold upd.
      destruct (Nat.eqb_spec k i) as [->|Hne].
      * destruct (Nat.leb_spec 1 i), (Nat.ltb_spec i (S i));
          cbn [andb]; try reflexivity; lia.
      * etransitivity; [exact IH|].
        destruct (Nat.leb_spec 1 k), (Nat.ltb_spec k i), (Nat.ltb_spec k (S i));
          cbn [andb]; try reflexivity; lia.
  - rewrite for_up_empty by lia. cbn [fst].
    destruct (Nat.leb_spec 1 k), (Nat.ltb_spec k nlyrs);
      cbn [andb]; try reflexivity; lia.
Qed.

(** The accumulation of one row into [hydred[i]]. *)
Lemma hydred_row (m : mat) (scale : Q) (i : nat) (h : arr) (n : nat) :
  for_up 0 n (fun h j => upd h i (h i + m i j * scale)) h i
  == h i + sumQ (fun j => m i j * scale) n
  /\ (forall k, k <> i ->
        for_up 0 n (fun h j => upd h i (h i + m i j * scale)) h k = h k).
Proof.
  induction n as [|n [IH1 IH2]].
  - split; [cbn; ring | reflexivity].
  - rewrite for_up_S by lia. rewrite sumQ_S. split.
    + rewrite upd_same, IH1. ring.
    + intros k Hk. rewrite upd_other by assumption. now apply IH2.
Qed.

(** The last loop: every layer receives the sum of its row, scaled. *)
Lemma hydred_apply (m : mat) (scale : Q) (h : arr) (k : nat) :
  let r := for_up 0 nlyrs (fun sh i =>
             let hydred1 :=
               for_up 0 nlyrs (fun h j => upd h i (h i + m i j * scale))
                 (snd sh) in
             (upd (fst sh) i (fst sh i + hydred1 i), hydred1)) (swc0, h) in
  (k < nlyrs)%nat ->
  snd r k == h k + sumQ (fun j => m k j * scale) nlyrs
  /\ fst r k == swc0 k + snd r k.
Proof.
  cbv zeta. intro Hk.
  set (P := fun (I : nat) (sh : arr * arr) =>
    (forall k, (k < I)%nat ->
       snd sh k == h k + sumQ (fun j => m k j * scale) nlyrs
       /\ fst sh k == swc0 k + snd sh k)
    /\ (forall k, (I <= k)%nat -> snd sh k = h k /\ fst sh k = swc0 k)).
  assert (H : P nlyrs
                (for_up 0 nlyrs (fun sh i =>
                   let hydred1 :=
                     for_up 0 nlyrs (fun h j => upd h i (h i + m i j * scale))
                       (snd sh) in
                   (upd (fst sh) i (fst sh i + hydred1 i), hydred1))
                   (swc0, h))).
  { apply (for_up_ind P); [lia | |]; unfold P.
    - split; [intros; lia | intros; split; reflexivity].
    - intros i sh Hi [Hlo Hhi]. cbv zeta. cbn [fst snd].
      destruct (hydred_row m scale i (snd sh) nlyrs) as [Hr1 Hr2].
      destruct (Hhi i (Nat.le_refl i)) as [Hh Hs].
      split.
      + intros k' Hk'. destruct (Nat.eq_dec k' i) as [->|Hne].
        * rewrite upd_same. rewrite Hr1, Hh, Hs. split; ring.
        * rewrite upd_other by assumption. rewrite (Hr2 k' Hne).
          apply Hlo. lia.
      + intros k' Hk'. rewrite upd_other by lia. rewrite Hr2 by lia.
        apply Hhi. lia. }
  destruct H as [Hlo _]. apply Hlo. exact Hk.
Qed.

(** The amounts written to [hydred[]] are the scaled row sums of
    [hydredmat] as the available-water scaling leaves it. *)
Lemma hydraulic_redistribution_rows (hydredmat0 : mat) (hydred : arr)
    (scale : Q) (k : nat) :
  (k < nlyrs)%nat ->
  let r := hydraulic_redistribution hydredmat0 hydred scale in
  snd r k == sumQ (fun j => hydredmat_after hydredmat0 hydred k j * scale) nlyrs
  /\ fst r k == swc0 k + snd r k.
Proof.
  intro Hk. cbv zeta. unfold SoilWater.hydraulic_redistribution. cbv zeta.
  destruct (hydred_apply
              (hydredmat_scale swc0 swcwp nlyrs
                 (snd (hydredmat_pairs
                         (upd hydred 0 0, hydredmat_top nlyrs hydredmat0))))
              scale
              (fst (hydredmat_pairs
                      (upd hydred 0 0, hydredmat_top nlyrs hydredmat0)))
              k Hk) as [H1 H2].
  split; [|exact H2].
  rewrite H1, hydredmat_pairs_hydred.
  assert (E : (if (1 <=? k)%nat && (k <? nlyrs)%nat then 0
               else upd hydred 0 0 k) = 0).
  { destruct (Nat.leb_spec 1 k), (Nat.ltb_spec k nlyrs); cbn [andb];
      try reflexivity; try lia.
    replace k with 0%nat by lia. apply upd_same. }
  rewrite E. unfold SoilWater.hydredmat_after, SoilWater.hydredmat_before.
  ring.
Qed.

(** Where no layer holds all the roots (so that no flux divides by zero),
    hydraulic redistribution moves water between layers only: the
    amounts written to [hydred[]] add up to zero, each layer changes by
    its amount, and the water in the profile stays the same. *)
Theorem hydraulic_redistribution_conserves_water (hydredmat0 : mat)
    (hydred : arr) (scale : Q) :
  (forall i, (i < nlyrs)%nat -> ~ lyrRootCo i == 1) ->
  let r := hydraulic_redistribution hydredmat0 hydred scale in
  sumQ (snd r) nlyrs == 0
  /\ sumQ (fst r) nlyrs == sumQ swc0 nlyrs
  /\ (forall i, (i < nlyrs)%nat -> fst r i == swc0 i + snd r i).
Proof.
  intros _. cbv zeta.
  assert (Hanti : forall a b, (a < nlyrs)%nat -> (b < nlyrs)%nat ->
            hydredmat_after hydredmat0 hydred a b
            == - hydredmat_after hydredmat0 hydred b a).
  { unfold SoilWater.hydredmat_after.
    apply (proj1 (hydredmat_scale_keeps _)).
    apply (hydredmat_before_zero_sum lyrFrozen powe SWCbulk2SWPmatric
             fractionVolBulk_gravel swc0 swcwp lyrRootCo nlyrs maxCondroot
             swp50 shapeCond hydredmat0 hydred). }
  assert (H0 : sumQ (snd (hydraulic_redistribution hydredmat0 hydred scale))
                 nlyrs == 0).
  { rewrite (sumQ_ext _
               (fun k => sumQ (hydredmat_after hydredmat0 hydred k) nlyrs
                         * scale)).
    - rewrite sumQ_scale.
      rewrite (antisymmetric_total _ nlyrs Hanti). ring.
    - intros k Hk.
      rewrite (proj1 (hydraulic_redistribution_rows hydredmat0 hydred scale
                        k Hk)).
      apply sumQ_scale. }
  split; [exact H0|]. split.
  - rewrite (sumQ_ext _
               (fun k => swc0 k
                         + snd (hydraulic_redistribution hydredmat0 hydred
                                  scale) k)).
    + rewrite sumQ_plus, H0. ring.
    + intros k Hk.
      apply (proj2 (hydraulic_redistribution_rows hydredmat0 hydred scale
                      k Hk)).
  - intros i Hi.
    apply (proj2 (hydraulic_redistribution_rows hydredmat0 hydred scale
                    i Hi)).
Qed.

(** The top layer and the frozen layers take no part: nothing is written
    to their [hydred] cell but 0 and their water content stays. *)
Theorem hydraulic_redistribution_skips_top_and_frozen (hydredmat0 : mat)
    (hydred : arr) (scale : Q) (i : nat) :
  (i < nlyrs)%nat -> i = 0%nat \/ lyrFrozen i <> 0%nat ->
  let r := hydraulic_redistribution hydredmat0 hydred scale in
  snd r i == 0 /\ fst r i == swc0 i.
Proof.
  intros Hi Hskip. cbv zeta.
  destruct (hydraulic_redistribution_rows hydredmat0 hydred scale i Hi)
    as [H1 H2].
  assert (Hrow : forall j, (j < nlyrs)%nat ->
            hydredmat_after hydredmat0 hydred i j == 0).
  { intros j Hj. unfold SoilWater.hydredmat_after.
    apply (proj2 (hydredmat_scale_keeps _)).
    rewrite (hydredmat_before_cell lyrFrozen powe SWCbulk2SWPmatric
               fractionVolBulk_gravel swc0 swcwp lyrRootCo nlyrs maxCondroot
               swp50 shapeCond hydredmat0 hydred i j Hi Hj).
    unfold SoilWater.pair_entry.
    destruct Hskip as [->|Hfr]; [reflexivity|].
    assert (Ef : Nat.eqb (lyrFrozen i) 0 = false) by (now apply Nat.eqb_neq).
    unfold pair_active. rewrite Ef.
    destruct (Nat.eqb i 0 || Nat.eqb j 0 || Nat.eqb i j); [reflexivity|].
    destruct (i <? j)%nat; rewrite ?andb_false_r; cbn [andb]; reflexivity. }
  assert (H0 : snd (hydraulic_redistribution hydredmat0 hydred scale) i == 0).
  { rewrite H1. apply sumQ_zero. intros j Hj. rewrite (Hrow j Hj). ring. }
  split; [exact H0|]. rewrite H2, H0. ring.
Qed.

End Redistribution.

(** Four layers with water potential [1 / swc], the third one frozen. *)
Lemma hydraulic_redistribution_conserves_water_witness :
  let swc0 := buffer [1; 1; 2; 1 # 2] in
  let r := hydraulic_redistribution (fun _ => 0%nat) (fun x _ => x)
             (fun _ w _ => 1 / w) (fun _ => 0) swc0
             (buffer [1 # 2; 99 # 100; 1; 49 # 100])
             (buffer [0; 1 # 2; 1 # 4; 1 # 4]) 4 (12 # 5) 1 1
             (fun _ _ => 7) (buffer [7; 7; 7; 7]) 1 in
  sumQ (fst r) 4 == 4.5 /\ sumQ (snd r) 4 == 0
  /\ fst r 1%nat == 1 + snd r 1%nat /\ snd r 1%nat < 0.
Proof.
  cbv zeta.
  destruct (hydraulic_redistribution_conserves_water (fun _ => 0%nat)
              (fun x _ => x) (fun _ w _ => 1 / w) (fun _ => 0)
              (buffer [1; 1; 2; 1 # 2])
              (buffer [1 # 2; 99 # 100; 1; 49 # 100])
              (buffer [0; 1 # 2; 1 # 4; 1 # 4]) 4 (12 # 5) 1 1
              (fun _ _ => 7) (buffer [7; 7; 7; 7]) 1) as (H0 & H1 & H2).
  { intros i Hi. destruct i as [|[|[|[|i]]]]; [| | | |lia];
      vm_compute; discriminate. }
  split; [rewrite H1; reflexivity|]. split; [exact H0|].
  split; [apply (H2 1%nat); lia | vm_compute; reflexivity].
Defined.

Lemma hydraulic_redistribution_skips_top_and_frozen_witness :
  let frozen := fun i => if Nat.eqb i 2 then 1%nat else 0%nat in
  let r := hydraulic_redistribution frozen (fun x _ => x)
             (fun _ w _ => 1 / w) (fun _ => 0) (buffer [1; 1; 2; 1 # 2])
             (buffer [1 # 2; 99 # 100; 1; 49 # 100])
             (buffer [0; 1 # 2; 1 # 4; 1 # 4]) 4 (12 # 5) 1 1
             (fun _ _ => 7) (buffer [7; 7; 7; 7]) 1 in
  (snd r 0%nat == 0 /\ fst r 0%nat == 1)
  /\ (snd r 2%nat == 0 /\ fst r 2%nat == 2)
  /\ ~ snd r 1%nat == 0.
Proof.
  cbv zeta.
  assert (H0 : (0 < 4)%nat) by lia. assert (H2 : (2 < 4)%nat) by lia.
  split; [|split].
  - apply (hydraulic_redistribution_skips_top_and_frozen
             (fun i => if Nat.eqb i 2 then 1%nat else 0%nat) (fun x _ => x)
             (fun _ w _ => 1 / w) (fun _ => 0) (buffer [1; 1; 2; 1 # 2])
             (buffer [1 # 2; 99 # 100; 1; 49 # 100])
             (buffer [0; 1 # 2; 1 # 4; 1 # 4]) 4 (12 # 5) 1 1
             (fun _ _ => 7) (buffer [7; 7; 7; 7]) 1 0 H0).
    left. reflexivity.
  - apply (hydraulic_redistribution_skips_top_and_frozen
             (fun i => if Nat.eqb i 2 then 1%nat else 0%nat) (fun x _ => x)
             (fun _ w _ => 1 / w) (fun _ => 0) (buffer [1; 1; 2; 1 # 2])
             (buffer [1 # 2; 99 # 100; 1; 49 # 100])
             (buffer [0; 1 # 2; 1 # 4; 1 # 4]) 4 (12 # 5) 1 1
             (fun _ _ => 7) (buffer [7; 7; 7; 7]) 1 2 H2).
    right. discriminate.
  - intro H. vm_compute in H. discriminate H.
Defined.

End RedistributionFacts.

(* ================================================================= *)
(** ** The temperature profile *)

Module ProfileFacts.

Import SoilTemperature HeatFacts.

Section Grid.

Variable uninit : nat -> arr.
Variable st : ST_RGR_VALUES.
Variables deltaX csParam1 csParam2 shParam : Q.
Variable vwcR : arr.

Local Abbreviation parts :=
  (stability_parts st deltaX csParam1 csParam2 shParam vwcR).
Local Abbreviation heat_profile :=
  (heat_profile uninit st deltaX csParam1 csParam2 shParam vwcR).

(** With every coefficient [parts] within [[0, 1/2]] the explicit step is
    an average: the new temperatures of the bands stay within any range
    that holds the surface temperature and yesterday's temperatures, and
    the error flag is left as it was. *)
Theorem heat_profile_within_extremes (nRgr : nat) (T1 : Q) (err : nat)
    (lo hi : Q) :
  lo <= T1 <= hi ->
  (forall i, (1 <= i <= nRgr + 1)%nat -> lo <= oldsTempR st i <= hi) ->
  (forall k, (k < nRgr)%nat -> 0 <= parts k <= 1 # 2) ->
  (forall i, (i <= nRgr)%nat -> lo <= fst (heat_profile nRgr T1 err) i <= hi)
  /\ snd (heat_profile nRgr T1 err) = err.
Proof.
  intros HT Hold Hparts. split.
  - destruct (heat_profile_temps uninit st deltaX csParam1 csParam2 shParam
                vwcR nRgr T1 err) as [H0 Hrec].
    set (T := fst (heat_profile nRgr T1 err)) in *.
    induction i as [|i IH]; intro Hi.
    + rewrite H0. exact HT.
    + rewrite (Hrec (S i)) by lia.
      replace (S i - 1)%nat with i by lia.
      assert (Hprev : lo <= T i <= hi) by (apply IH; lia).
      assert (Hp : 0 <= parts i <= 1 # 2) by (apply Hparts; lia).
      assert (Ho : lo <= oldsTempR st (S i) <= hi) by (apply Hold; lia).
      assert (Hn : lo <= oldsTempR st (S i + 1)%nat <= hi) by (apply Hold; lia).
      set (p := parts i) in *. set (a := T i) in *.
      set (b := oldsTempR st (S i)) in *.
      set (c := oldsTempR st (S i + 1)%nat) in *.
      clearbody p a b c. split; nra.
  - rewrite heat_profile_flag.
    replace (unstable st deltaX csParam1 csParam2 shParam vwcR nRgr) with false;
      [reflexivity|].
    symmetry. apply unstable_false. intros k Hk.
    specialize (Hparts k Hk). lra.
Qed.

End Grid.

Section Day.

Variable interpolation : Q -> Q -> Q -> Q -> Q -> Q.
Variable uninit : nat -> arr.
Variable tSoilAvg0 : Q.
Variables Yesterday Today : nat.

Lemma soil_temperature_init_latch (fuel : nat) (bDensity width : arr)
    (surfaceTemp : Q) (oldsTemp : arr) (meanAirTemp : Q) (nlyrs : nat)
    (fc wp : arr) (deltaX theMaxDepth : Q) (nRgr : nat) (g g' : globals) :
  soil_temperature_init interpolation uninit fuel bDensity width surfaceTemp
    oldsTemp meanAirTemp nlyrs fc wp deltaX theMaxDepth nRgr g = Some g' ->
  soil_temp_init g' = 1%nat /\ fusion_pool_init g' = fusion_pool_init g.
Proof.
  unfold soil_temperature_init. cbv zeta.
  set (g0 := soil_temperature_init_reset width nlyrs deltaX nRgr g).
  assert (H0 : soil_temp_init g0 = 1%nat /\ fusion_pool_init g0 = fusion_pool_init g)
    by (split; reflexivity).
  clearbody g0. destruct H0 as [H0 H1].
  destruct (LT theMaxDepth _).
  - intro H. injection H as <-.
    destruct (Nat.eqb (soil_temp_error g0) 0); cbn; auto.
  - destruct (soil_temperature_init_cor _ _ _ _ _ _ _); [|discriminate].
    destruct (lyrSoil_to_lyrTemp _ _ _ _ _ _ _ _); [|discriminate].
    destruct (lyrSoil_to_lyrTemp_temperature _ _ _ _ _ _ _ _ _ _ _);
      [|discriminate].
    destruct (lyrSoil_to_lyrTemp _ _ _ _ _ _ _ _); [|discriminate].
    destruct (lyrSoil_to_lyrTemp _ _ _ _ _ _ _ _); [|discriminate].
    intro H. injection H as <-. cbn. auto.
Qed.

(** The grid is set up once.  A call that returns leaves both latches
    set, and a call that finds [soil_temp_init] set leaves the geometry of
    the grid and the soil properties projected on it alone. *)
Theorem soil_temperature_initialises_once (fuel : nat)
    (airTemp pet aet biomass : Q)
    (swc swc_sat bDensity width oldsTemp sTemp surfaceTemp : arr)
    (nlyrs : nat) (fc wp : arr)
    (bmLimiter t1Param1 t1Param2 t1Param3 csParam1 csParam2 shParam
     snowdepth meanAirTemp deltaX theMaxDepth : Q) (nRgr : nat) (snow : Q)
    (g : globals) (r : temperature_result) :
  soil_temperature interpolation uninit tSoilAvg0 Yesterday Today
    fuel airTemp pet aet biomass swc swc_sat bDensity width oldsTemp sTemp
    surfaceTemp nlyrs fc wp bmLimiter t1Param1 t1Param2 t1Param3
    csParam1 csParam2 shParam snowdepth meanAirTemp deltaX theMaxDepth
    nRgr snow g = Some r ->
  let st := stValues g in
  let st' := stValues (globals_out r) in
  soil_temp_init (globals_out r) <> 0%nat
  /\ fusion_pool_init (globals_out r) <> 0%nat
  /\ (soil_temp_init g <> 0%nat ->
      soil_temp_init (globals_out r) = soil_temp_init g
      /\ depths st' = depths st /\ depthsR st' = depthsR st
      /\ tlyrs_by_slyrs st' = tlyrs_by_slyrs st
      /\ fcR st' = fcR st /\ wpR st' = wpR st /\ bDensityR st' = bDensityR st).
Proof.
  unfold soil_temperature. cbv zeta.
  destruct (soil_temperature_first_call _ _ _ _ _ _ _ _ _ _ _ _ _ _ _ _ _ _ _)
    as [[sT g1]|] eqn:Efirst; [|discriminate].
  destruct (lyrSoil_to_lyrTemp _ _ _ _ _ _ _ _); [|discriminate].
  destruct (lyrTemp_to_lyrSoil_temperature _ _ _ _ _ _ _ _ _ _); [|discriminate].
  unfold adjust_Tsoil_by_freezing_and_thawing. cbn [Nat.eqb].
  intro H. injection H as <-. cbn [globals_out].
  assert (Hg1 : soil_temp_init g1 <> 0%nat
                /\ (soil_temp_init g <> 0%nat -> g1 = g)).
  { unfold soil_temperature_first_call in Efirst. cbv zeta in Efirst.
    destruct (Nat.eqb_spec (soil_temp_init g) 0) as [E0|E0].
    - destruct (soil_temperature_init _ _ _ _ _ _ _ _ _ _ _ _ _ _ _) as [g2|]
        eqn:Einit; [|discriminate].
      injection Efirst as _ <-.
      apply soil_temperature_init_latch in Einit. destruct Einit as [-> _].
      split; [discriminate | intro; contradiction].
    - injection Efirst as _ <-. split; [exact E0 | reflexivity]. }
  destruct Hg1 as [Hlatch Hsame].
  split; [|split].
  - destruct (Nat.eqb (fusion_pool_init _) 0); cbn; exact Hlatch.
  - match goal with
    | |- context [Nat.eqb ?x 0] => destruct (Nat.eqb_spec x 0) as [E|E]
    end; cbn.
    + discriminate.
    + exact E.
  - intro Hset. rewrite (Hsame Hset).
    destruct (Nat.eqb (fusion_pool_init _) 0); cbn; repeat split; reflexivity.
Qed.

End Day.

(** Two bands of 30 cm in a loam at 20 percent water: the coefficient is
    about 0.16, and the new temperatures stay between 6 and 12 degrees. *)
Lemma heat_profile_within_extremes_witness :
  let st := mkST (fun _ => 0) (fun _ => 0) (fun _ => 0.3) (fun _ => 0.1)
              (fun _ => 1.5) (fun _ => 0) (buffer [0; 10; 8; 6])
              (fun _ => 0%nat) (fun _ _ => 0) in
  let r := heat_profile (fun _ _ => 0) st 30 0.0007 0.0003 0.18
             (fun _ => 0.2) 2 12 0 in
  (forall i, (i <= 2)%nat -> 6 <= fst r i <= 12) /\ snd r = 0%nat.
Proof.
  cbv zeta.
  apply (heat_profile_within_extremes (fun _ _ => 0)
           (mkST (fun _ => 0) (fun _ => 0) (fun _ => 0.3) (fun _ => 0.1)
              (fun _ => 1.5) (fun _ => 0) (buffer [0; 10; 8; 6])
              (fun _ => 0%nat) (fun _ _ => 0))
           30 0.0007 0.0003 0.18 (fun _ => 0.2) 2 12 0 6 12).
  - lra.
  - intros i Hi. destruct i as [|[|[|[|i]]]]; [lia| | | |lia];
      vm_compute; split; discriminate.
  - intros k Hk. vm_compute. split; discriminate.
Defined.

(** The first and the second day of a site with one 20 cm layer under a
    two-band grid: the first call sets the latches, the second keeps the
    grid. *)
Lemma soil_temperature_initialises_once_witness :
  match
    soil_temperature linear_interpolation (fun _ _ => 0) 0 0 1
      20 10 (3 # 10) (1 # 10) 100 (buffer [4]) (buffer [8]) (buffer [3 # 2])
      (buffer [20]) (buffer [1]) (buffer [0]) (buffer [0; 0])
      1 (buffer [5]) (buffer [2]) 300 15 (- (4)) 600 (7 # 10000) (3 # 10000)
      (18 # 100) 0 4 15 30 1 0 globals_zero
  with
  | Some r1 =>
      soil_temp_init (globals_out r1) <> 0%nat
      /\ fusion_pool_init (globals_out r1) <> 0%nat
      /\ match
           soil_temperature linear_interpolation (fun _ _ => 0) 0 0 1
             20 12 (3 # 10) (1 # 10) 100 (buffer [4]) (buffer [8])
             (buffer [3 # 2]) (buffer [20]) (buffer [1]) (sTemp_out r1)
             (surfaceTemp_out r1) 1 (buffer [5]) (buffer [2]) 300 15 (- (4))
             600 (7 # 10000) (3 # 10000) (18 # 100) 0 4 15 30 1 0
             (globals_out r1)
         with
         | Some r2 =>
             depthsR (stValues (globals_out r2))
             = depthsR (stValues (globals_out r1))
             /\ bDensityR (stValues (globals_out r2))
                = bDensityR (stValues (globals_out r1))
         | None => False
         end
  | None => False
  end.
Proof.
  destruct (soil_temperature linear_interpolation (fun _ _ => 0) 0 0 1
      20 10 (3 # 10) (1 # 10) 100 (buffer [4]) (buffer [8]) (buffer [3 # 2])
      (buffer [20]) (buffer [1]) (buffer [0]) (buffer [0; 0])
      1 (buffer [5]) (buffer [2]) 300 15 (- (4)) 600 (7 # 10000) (3 # 10000)
      (18 # 100) 0 4 15 30 1 0 globals_zero) as [r1|] eqn:E1;
    [|vm_compute in E1; discriminate E1].
  destruct (soil_temperature_initialises_once _ _ _ _ _ _ _ _ _ _ _ _ _ _ _
              _ _ _ _ _ _ _ _ _ _ _ _ _ _ _ _ _ _ _ _ E1) as (Hi & Hf & _).
  split; [exact Hi|]. split; [exact Hf|].
  destruct (soil_temperature linear_interpolation (fun _ _ => 0) 0 0 1
             20 12 (3 # 10) (1 # 10) 100 (buffer [4]) (buffer [8])
             (buffer [3 # 2]) (buffer [20]) (buffer [1]) (sTemp_out r1)
             (surfaceTemp_out r1) 1 (buffer [5]) (buffer [2]) 300 15 (- (4))
             600 (7 # 10000) (3 # 10000) (18 # 100) 0 4 15 30 1 0
             (globals_out r1)) as [r2|] eqn:E2.
  - destruct (soil_temperature_initialises_once _ _ _ _ _ _ _ _ _ _ _ _ _ _
                _ _ _ _ _ _ _ _ _ _ _ _ _ _ _ _ _ _ _ _ _ E2)
      as (_ & _ & Hkeep).
    destruct (Hkeep Hi) as (_ & _ & HdR & _ & _ & _ & Hbd).
    split; [exact HdR | exact Hbd].
  - vm_compute in E1. injection E1 as <-.
    vm_compute in E2. discriminate E2.
Defined.

End ProfileFacts.

(* ================================================================= *)
(** ** The projections between soil layers and temperature bands return *)

Module ProjectionFacts.

Import SoilTemperature FuelFacts.

(** A loop that makes progress on a measure whenever it goes on. *)
Lemma while_measure {S : Type} (cond : S -> bool) (body : S -> S)
    (mu : S -> nat) :
  (forall s, cond s = true -> cond (body s) = true -> (mu (body s) < mu s)%nat) ->
  forall fuel s, (mu s < fuel)%nat ->
    exists r, while fuel cond body s = Some r.
Proof.
  intros Hmu. induction fuel as [|fuel IH]; intros s Hs; [lia|].
  cbn [while]. destruct (cond s) eqn:Ec.
  - destruct (cond (body s)) eqn:Eb.
    + apply IH. specialize (Hmu s Ec Eb). lia.
    + exists (body s). destruct fuel; cbn [while]; now rewrite Eb.
  - exists s. reflexivity.
Qed.

(** A counting loop [while (c(j) && j + 1 < N) j++]. *)
Lemma while_count (c : nat -> bool) (N fuel j0 : nat) :
  (N < fuel)%nat ->
  exists j, while fuel (fun j => c j && (j + 1 <? N)%nat)
              (fun j => (j + 1)%nat) j0 = Some j.
Proof.
  intro Hf.
  apply (while_measure _ _ (fun j => (N - (j + 1))%nat)); [|lia].
  intros s Hs _. apply andb_true_iff in Hs. destruct Hs as [_ Hs].
  apply Nat.ltb_lt in Hs. lia.
Qed.

Lemma for_each_opt_returns {S : Type} (l : list nat)
    (body : S -> nat -> option S) (s : S) :
  (forall s i, exists s', body s i = Some s') ->
  exists r, for_each_opt l body s = Some r.
Proof.
  intro Hb. revert s. induction l as [|i l IH]; intro s.
  - exists s. reflexivity.
  - cbn [for_each_opt]. destruct (Hb s i) as [s' ->]. apply IH.
Qed.

Lemma for_each_opt_inv {S : Type} (P : S -> Prop) (l : list nat)
    (body : S -> nat -> option S) (s r : S) :
  P s ->
  (forall s i s', In i l -> P s -> body s i = Some s' -> P s') ->
  for_each_opt l body s = Some r -> P r.
Proof.
  revert s. induction l as [|i l IH]; intros s H0 Hstep H.
  - injection H as <-. exact H0.
  - cbn [for_each_opt] in H. destruct (body s i) as [s'|] eqn:E; [|discriminate].
    apply (IH s'); [| |exact H].
    + apply (Hstep s i s'); [now left | exact H0 | exact E].
    + intros s1 i1 s1' Hi. apply Hstep. now right.
Qed.

(** A turn of the loop of [lyrTemp_to_lyrSoil_temperature] that does not
    end it moves on to the next band. *)
Lemma t2l_turn_advances (interpolation : Q -> Q -> Q -> Q -> Q -> Q)
    (cor : mat) (nlyrTemp : nat)
    (depth_Temp sTempR depth_Soil width_Soil : arr) (j : nat) (w : t2l_state) :
  t2l_cond nlyrTemp width_Soil j w = true ->
  t2l_cond nlyrTemp width_Soil j
    (t2l_step interpolation cor depth_Temp sTempR depth_Soil width_Soil j w)
  = true ->
  (nlyrTemp + 2
   - t2l_i (t2l_step interpolation cor depth_Temp sTempR depth_Soil
              width_Soil j w)
   < nlyrTemp + 2 - t2l_i w)%nat.
Proof.
  unfold t2l_cond. intros Hc Hc'.
  apply andb_true_iff in Hc. destruct Hc as [Hc Hi].
  apply andb_true_iff in Hc. destruct Hc as [_ Hacc].
  apply Nat.leb_le in Hi.
  apply andb_true_iff in Hc'. destruct Hc' as [Hc' _].
  apply andb_true_iff in Hc'. destruct Hc' as [Hbr Hacc'].
  revert Hbr Hacc'. unfold t2l_step. cbv zeta.
  destruct (EQ (cor (t2l_i w) j) 0) eqn:E0.
  - destruct (GT (cor (t2l_i w + 1)%nat j) 0).
    + cbn [t2l_i t2l_break t2l_acc]. intros _ _.
      match goal with
      | |- context [if ?c then _ else _] => destruct c
      end; lia.
    + destruct (LT (cor (t2l_i w + 1)%nat j) 0);
        cbn [t2l_i t2l_break t2l_acc]; intros; [discriminate | lia].
  - destruct (GT (cor (t2l_i w) j) 0) eqn:Eg.
    + cbn [t2l_i t2l_break t2l_acc]. intros _ Hacc'.
      rewrite Hacc'. lia.
    + destruct (LT (cor (t2l_i w) j) 0) eqn:El;
        cbn [t2l_i t2l_break t2l_acc]; intros; [discriminate|].
      exfalso. apply EQ_false in E0. apply GT_false in Eg.
      apply LT_false in El. apply E0. lra.
Qed.

Section Grid.

Variable interpolation : Q -> Q -> Q -> Q -> Q -> Q.
Variable uninit : nat -> arr.

(** The projection of the soil-layer temperatures onto the bands returns
    for all inputs: its two searches stop within [nlyrSoil] steps.  It
    writes the bands [1 .. nlyrTemp] and the lower boundary
    [sTempR[nlyrTemp + 1] = endTemp], and nothing else. *)
Theorem lyrSoil_to_lyrTemp_temperature_returns (fuel : nat) (nlyrSoil : nat)
    (depth_Soil sTemp : arr) (endTemp : Q) (nlyrTemp : nat)
    (depth_Temp : arr) (maxTempDepth : Q) (sTempR : arr) :
  (nlyrSoil + 2 <= fuel)%nat ->
  exists r,
    lyrSoil_to_lyrTemp_temperature interpolation uninit fuel nlyrSoil
      depth_Soil sTemp endTemp nlyrTemp depth_Temp maxTempDepth sTempR
    = Some r
    /\ r (nlyrTemp + 1)%nat = endTemp
    /\ (forall k, k = 0%nat \/ (nlyrTemp + 1 < k)%nat -> r k = sTempR k).
Proof.
  intro Hf. unfold lyrSoil_to_lyrTemp_temperature, for_up_opt. cbv zeta.
  set (d2 := upd (for_up 0 nlyrSoil (fun a i => upd a i (depth_Soil i))
                    (uninit 0)) nlyrSoil maxTempDepth).
  set (t2 := upd (for_up 0 nlyrSoil (fun a i => upd a i (sTemp i))
                    (uninit 1)) nlyrSoil endTemp).
  match goal with
  | |- context [for_each_opt ?l ?b ?s] =>
      set (body := b); set (idx := l)
  end.
  assert (Hbody : forall s i, exists s', body s i = Some s').
  { intros s i. unfold body.
    destruct (while_count (fun j1 => LT (d2 (j1 + 1)%nat) (depth_Temp i))
                nlyrSoil fuel (snd s)) as [j1 ->]; [lia|].
    destruct (while_count (fun j2 => LE (d2 (j2 + 1)%nat) (depth_Temp i))
                (nlyrSoil + 1) fuel (j1 + 1)) as [j2 ->]; [lia|].
    eexists. reflexivity. }
  destruct (for_each_opt_returns idx body (sTempR, 0%nat) Hbody) as [rj Hrj].
  rewrite Hrj. eexists. split; [reflexivity|]. split; [apply upd_same|].
  intros k Hk.
  assert (Hfr : fst rj k = sTempR k).
  { apply (for_each_opt_inv (fun s => fst s k = sTempR k) idx body
             (sTempR, 0%nat) rj); [reflexivity | | exact Hrj].
    intros s i s' Hi Hs Hb. unfold body in Hb.
    repeat match type of Hb with
    | match ?X with _ => _ end = _ => destruct X; [|discriminate]
    end.
    injection Hb as <-. cbn [fst].
    apply in_seq in Hi. rewrite upd_other by lia. exact Hs. }
  rewrite upd_other by lia. exact Hfr.
Qed.

(** The projection of the band temperatures back onto the soil layers
    returns for all inputs: every turn of its inner loop either moves on
    to the next band or ends the loop.  It writes [sTemp[0 .. nlyrSoil]],
    one cell more than there are layers. *)
Theorem lyrTemp_to_lyrSoil_temperature_returns (fuel : nat) (cor : mat)
    (nlyrTemp : nat) (depth_Temp sTempR : arr) (nlyrSoil : nat)
    (depth_Soil width_Soil sTemp : arr) :
  (nlyrTemp + 3 <= fuel)%nat ->
  exists r,
    lyrTemp_to_lyrSoil_temperature interpolation fuel cor nlyrTemp depth_Temp
      sTempR nlyrSoil depth_Soil width_Soil sTemp = Some r
    /\ (forall k, (nlyrSoil < k)%nat -> r k = sTemp k).
Proof.
  intro Hf. unfold lyrTemp_to_lyrSoil_temperature, for_up_opt.
  match goal with
  | |- context [for_each_opt ?l ?b ?s] =>
      set (body := b); set (idx := l)
  end.
  assert (Hbody : forall s j, exists s', body s j = Some s').
  { intros s j. unfold body.
    match goal with
    | |- context [while fuel ?cnd ?bdy ?w0] =>
        destruct (while_measure cnd bdy
                    (fun x => (nlyrTemp + 2 - t2l_i x)%nat)) with
          (fuel := fuel) (s := w0) as [r ->]
    end.
    - exact (t2l_turn_advances interpolation cor nlyrTemp depth_Temp sTempR
               depth_Soil width_Soil j).
    - cbn [t2l_i]. lia.
    - eexists. reflexivity. }
  destruct (for_each_opt_returns idx body (sTemp, 0%nat) Hbody) as [rj Hrj].
  rewrite Hrj. cbn [option_map]. eexists. split; [reflexivity|].
  intros k Hk.
  apply (for_each_opt_inv (fun s => fst s k = sTemp k) idx body
           (sTemp, 0%nat) rj); [reflexivity | | exact Hrj].
  intros s j s' Hj Hs Hb. unfold body in Hb.
  match type of Hb with
  | match ?X with _ => _ end = _ => destruct X; [|discriminate]
  end.
  injection Hb as <-. cbn [fst].
  apply in_seq in Hj. rewrite upd_other by lia. exact Hs.
Qed.

End Grid.

(** One soil layer of 20 cm projected on two bands of 15 cm, with the
    least fuel the theorem asks for. *)
Lemma lyrSoil_to_lyrTemp_temperature_returns_witness :
  exists r,
    lyrSoil_to_lyrTemp_temperature linear_interpolation (fun _ _ => 0) 3 1
      (buffer [20]) (buffer [8]) 4 2 (buffer [15; 30]) 45 (buffer [9; 9; 9; 9; 9])
    = Some r
    /\ r 3%nat = 4 /\ r 0%nat = 9 /\ r 4%nat = 9.
Proof.
  assert (Hf : (1 + 2 <= 3)%nat) by lia.
  destruct (lyrSoil_to_lyrTemp_temperature_returns linear_interpolation
              (fun _ _ => 0) 3 1 (buffer [20]) (buffer [8]) 4 2
              (buffer [15; 30]) 45 (buffer [9; 9; 9; 9; 9]) Hf)
    as (r & Hr & Hend & Hout).
  exists r. split; [exact Hr|]. split; [exact Hend|].
  split; [rewrite (Hout 0%nat) | rewrite (Hout 4%nat)];
    first [reflexivity | left; reflexivity | right; lia].
Defined.

(** Two bands of 15 cm projected back on one soil layer of 20 cm. *)
Lemma lyrTemp_to_lyrSoil_temperature_returns_witness :
  exists r,
    lyrTemp_to_lyrSoil_temperature linear_interpolation 5
      (fun i j => if Nat.eqb j 0 then (if Nat.eqb i 0 then 15 else 5) else 0)
      2 (buffer [15; 30]) (buffer [12; 10; 8; 4]) 1 (buffer [20])
      (buffer [20]) (buffer [0; 7; 7])
    = Some r
    /\ r 2%nat = 7.
Proof.
  assert (Hf : (2 + 3 <= 5)%nat) by lia.
  destruct (lyrTemp_to_lyrSoil_temperature_returns linear_interpolation 5
              (fun i j => if Nat.eqb j 0 then (if Nat.eqb i 0 then 15 else 5)
                          else 0)
              2 (buffer [15; 30]) (buffer [12; 10; 8; 4]) 1 (buffer [20])
              (buffer [20]) (buffer [0; 7; 7]) Hf) as (r & Hr & Hout).
  exists r. split; [exact Hr|].
  rewrite (Hout 2%nat); [reflexivity | lia].
Defined.

End ProjectionFacts.

(* ================================================================= *)
(** ** The day of soil temperature returns *)

Module ReturnFacts.

Import SoilTemperature FuelFacts ProjectionFacts.

Lemma while_stop {S : Type} (cond : S -> bool) (body : S -> S) (s : S) :
  cond s = false -> exists fuel r, while fuel cond body s = Some r.
Proof. intro H. exists 0%nat, s. cbn [while]. now rewrite H. Qed.

Lemma while_turn {S : Type} (cond : S -> bool) (body : S -> S) (s : S) :
  (exists fuel r, while fuel cond body (body s) = Some r) ->
  exists fuel r, while fuel cond body s = Some r.
Proof.
  intros (fuel & r & H). destruct (cond s) eqn:E.
  - exists (Datatypes.S fuel), r. cbn [while]. now rewrite E.
  - now apply while_stop.
Qed.

(** Every number is passed by the multiples of a positive one. *)
Lemma multiples_unbounded (x y : Q) :
  0 < y -> exists k : nat, x <= inject_Z (Z.of_nat k) * y.
Proof.
  intro Hy. exists (Z.to_nat (Qceiling (x / y))).
  assert (H : x / y <= inject_Z (Z.of_nat (Z.to_nat (Qceiling (x / y))))).
  { eapply Qle_trans; [apply Qle_ceiling|].
    rewrite <- Zle_Qle. lia. }
  apply (Qmult_le_compat_r _ _ y) in H; [|lra].
  eapply Qle_trans; [|exact H].
  assert (E : x / y * y == x) by (field; lra). rewrite E. apply Qle_refl.
Qed.

Lemma inject_S (k : nat) :
  inject_Z (Z.of_nat (S k)) == inject_Z (Z.of_nat k) + 1.
Proof.
  rewrite Nat2Z.inj_succ, <- Z.add_1_r, inject_Z_plus. reflexivity.
Qed.

Lemma returns_of_some {A : Type} (f : nat -> option A) (fuel : nat) (r : A) :
  (forall n n' x, (n <= n')%nat -> f n = Some x -> f n' = Some x) ->
  f fuel = Some r -> returns f r.
Proof. intros Hm H. exists fuel. intros n Hn. now apply (Hm fuel n). Qed.

Lemma returns_unique {A : Type} (f : nat -> option A) (r r' : A) :
  returns f r -> returns f r' -> r = r'.
Proof.
  intros [n H] [n' H'].
  specialize (H (Nat.max n n') (Nat.le_max_l _ _)).
  specialize (H' (Nat.max n n') (Nat.le_max_r _ _)).
  congruence.
Qed.

Lemma returns_within {A : Type} (f : nat -> option A) (m : nat) (r : A) :
  (forall n n' x, (n <= n')%nat -> f n = Some x -> f n' = Some x) ->
  returns f r -> f m <> None -> f m = Some r.
Proof.
  intros Hm [n Hn] Hsome. destruct (f m) as [x|] eqn:E; [|contradiction].
  specialize (Hn (Nat.max n m) (Nat.le_max_l _ _)).
  rewrite (Hm m (Nat.max n m) x (Nat.le_max_r _ _) E) in Hn. exact Hn.
Qed.

(** A [for] loop over [while] loops that all end. *)
Lemma for_each_opt_while {S W : Type} (cond : nat -> W -> bool)
    (step : nat -> W -> W) (init : S -> W) (fin : S -> nat -> W -> S)
    (l : list nat) :
  (forall s i, exists fuel w, while fuel (cond i) (step i) (init s) = Some w) ->
  forall s, exists fuel r,
    for_each_opt l
      (fun s i =>
         match while fuel (cond i) (step i) (init s) with
         | None => None
         | Some w => Some (fin s i w)
         end) s = Some r.
Proof.
  intro Hw. induction l as [|i l IH]; intro s.
  - exists 0%nat, s. reflexivity.
  - destruct (Hw s i) as (f1 & w & H1).
    destruct (IH (fin s i w)) as (f2 & r & H2).
    exists (Nat.max f1 f2), r. cbn [for_each_opt].
    rewrite (while_more_fuel _ _ f1 (Nat.max f1 f2) _ _ (Nat.le_max_l _ _) H1).
    eapply for_each_opt_more; [|exact H2].
    intros s' i' r' Hb. cbv beta in *.
    destruct (while f2 _ _ _) eqn:E; [|discriminate].
    now rewrite (while_more_fuel _ _ f2 (Nat.max f1 f2) _ _
                   (Nat.le_max_r _ _) E).
Qed.

(** *** The loop of [lyrSoil_to_lyrTemp] *)

Section L2T.

Variable cor : mat.
Variables width_Soil var : arr.
Variable nlyrSoil : nat.
Variable width_Temp : Q.
Variable i : nat.

Local Abbreviation cond := (l2t_cond nlyrSoil width_Temp).
Local Abbreviation step := (l2t_step cor width_Soil var width_Temp i).

(** Below the profile the loop adds [- cor] to [acc] until it reaches
    the width of the band. *)
Lemma l2t_below_profile (j k : nat) :
  cor i j < 0 ->
  forall w, l2t_j w = j ->
    width_Temp - l2t_acc w <= inject_Z (Z.of_nat k) * - cor i j ->
    exists fuel r, while fuel cond step w = Some r.
Proof.
  intro Hneg. induction k as [|k IH]; intros w Hj Hk.
  - apply while_stop. unfold l2t_cond.
    change (inject_Z (Z.of_nat 0)) with 0 in Hk.
    replace (LT (l2t_acc w) width_Temp) with false; [reflexivity|].
    symmetry. apply LT_false. lra.
  - apply while_turn. apply IH.
    + unfold l2t_step. cbv zeta. rewrite Hj.
      replace (GE (cor i j) 0) with false
        by (symmetry; apply Qle_bool_false; lra).
      replace (LT (cor i j) 0) with true by (symmetry; apply LT_true; lra).
      reflexivity.
    + unfold l2t_step. cbv zeta. rewrite Hj.
      replace (GE (cor i j) 0) with false
        by (symmetry; apply Qle_bool_false; lra).
      replace (LT (cor i j) 0) with true by (symmetry; apply LT_true; lra).
      cbn [l2t_acc]. rewrite inject_S in Hk. lra.
Qed.

Lemma l2t_loop_ends (w : l2t_state) :
  exists fuel r, while fuel cond step w = Some r.
Proof.
  assert (H : forall n w, (nlyrSoil + 1 - l2t_j w <= n)%nat ->
            exists fuel r, while fuel cond step w = Some r).
  { clear w. induction n as [|n IH]; intros w Hn.
    - apply while_stop. unfold l2t_cond.
      replace (l2t_j w <? nlyrSoil + 1)%nat with false
        by (symmetry; apply Nat.ltb_ge; lia).
      apply andb_false_r.
    - destruct (GE (cor i (l2t_j w)) 0) eqn:Eg.
      + apply while_turn. unfold l2t_step. cbv zeta. rewrite Eg.
        destruct (LT (l2t_acc w + cor i (l2t_j w)) width_Temp) eqn:El.
        * apply IH. cbn [l2t_j]. lia.
        * apply while_stop. unfold l2t_cond. cbn [l2t_acc]. now rewrite El.
      + apply Qle_bool_false in Eg.
        destruct (multiples_unbounded (width_Temp - l2t_acc w)
                    (- cor i (l2t_j w))) as [k Hk]; [lra|].
        apply (l2t_below_profile (l2t_j w) k); [exact Eg | reflexivity | exact Hk]. }
  apply (H (nlyrSoil + 1 - l2t_j w)%nat). lia.
Qed.

End L2T.

(** *** The loop of [soil_temperature_init_cor] *)

Section Cor.

Variable width : arr.
Variable nlyrs : nat.
Variable deltaX : Q.
Variable st : ST_RGR_VALUES.
Variable i : nat.

Local Abbreviation cond := (cor_cond nlyrs deltaX).
Local Abbreviation step := (cor_step width deltaX st i).

Lemma cor_loop_ends (c : cor_state) :
  0 < deltaX -> exists fuel r, while fuel cond step c = Some r.
Proof.
  intro Hd.
  assert (H : forall n c, (nlyrs - c_x2 c <= n)%nat ->
            exists fuel r, while fuel cond step c = Some r).
  { clear c. induction n as [|n IH]; intros c Hn.
    - apply while_stop. unfold cor_cond.
      replace (c_x2 c <? nlyrs)%nat with false
        by (symmetry; apply Nat.ltb_ge; lia).
      reflexivity.
    - (* a layer that spans several bands is used up band by band *)
      assert (Hprev : forall k c, (nlyrs - c_x2 c <= S n)%nat ->
                0 < c_d1 c -> c_d1 c <= inject_Z (Z.of_nat k) * deltaX ->
                exists fuel r, while fuel cond step c = Some r).
      { clear c Hn. induction k as [|k IHk]; intros c Hn Hpos Hk.
        - change (inject_Z (Z.of_nat 0)) with 0 in Hk. lra.
        - apply while_turn. unfold cor_step. cbv zeta.
          replace (GT (c_d1 c) 0) with true by (symmetry; apply GT_true; lra).
          destruct (GT (c_d1 c) deltaX) eqn:Eg.
          + apply GT_true in Eg. apply IHk; cbn [c_x2 c_d1].
            * exact Hn.
            * lra.
            * rewrite inject_S in Hk. lra.
          + apply IH. cbn [c_x2]. lia. }
      destruct (GT (c_d1 c) 0) eqn:E1.
      + apply GT_true in E1.
        destruct (multiples_unbounded (c_d1 c) deltaX Hd) as [k Hk].
        apply (Hprev k); assumption.
      + apply while_turn. unfold cor_step. cbv zeta. rewrite E1.
        destruct (LT (depthsR st i) (depths st (c_x2 c))) eqn:E2.
        * apply while_stop. unfold cor_cond. cbn [c_acc c_d2 c_x2].
          replace (Qltb (c_acc c + fmax (deltaX - c_acc c) 0) deltaX)
            with false; [apply andb_false_r|].
          symmetry. apply LT_false.
          pose proof (fmax_ge_l (deltaX - c_acc c) 0). lra.
        * apply IH. cbn [c_x2]. lia. }
  apply (H (nlyrs - c_x2 c)%nat). lia.
Qed.

End Cor.


(** *** The routines return *)

Section Grid.

Variable interpolation : Q -> Q -> Q -> Q -> Q -> Q.
Variable uninit : nat -> arr.
Variable tSoilAvg0 : Q.
Variables Yesterday Today : nat.

Lemma returns_here {A : Type} (x : A) : returns (fun _ : nat => Some x) x.
Proof. exists 0%nat. reflexivity. Qed.

Lemma returns_then {A B : Type} (f : nat -> option A)
    (g : A -> nat -> option B) :
  (exists a, returns f a) ->
  (forall a, exists b, returns (g a) b) ->
  exists b,
    returns (fun fuel => match f fuel with
                         | None => None
                         | Some a => g a fuel
                         end) b.
Proof.
  intros (a & n & Ha) Hg. destruct (Hg a) as (b & n' & Hb).
  exists b, (Nat.max n n'). intros fuel Hf.
  rewrite Ha by lia. apply Hb. lia.
Qed.

Lemma lyrSoil_to_lyrTemp_returns (cor : mat) (nlyrSoil : nat)
    (width_Soil var : arr) (nlyrTemp : nat) (width_Temp : Q) (res : arr) :
  exists r,
    returns (fun fuel => lyrSoil_to_lyrTemp fuel cor nlyrSoil width_Soil var
                           nlyrTemp width_Temp res) r.
Proof.
  destruct (for_each_opt_while
              (fun _ => l2t_cond nlyrSoil width_Temp)
              (l2t_step cor width_Soil var width_Temp)
              (fun rj : arr * nat => mkL2T 0 0 0 (snd rj))
              (fun rj i w => (upd (fst rj) i (l2t_res w / l2t_sum w), l2t_j w))
              (seq 0 (nlyrTemp + 1 - 0))
              (fun s i => l2t_loop_ends cor width_Soil var nlyrSoil
                            width_Temp i _)
              (res, 0%nat)) as (fuel & r & H).
  exists (fst r). apply (returns_of_some _ fuel).
  - intros n n' x Hn. now apply lyrSoil_to_lyrTemp_more.
  - exact (f_equal (option_map fst) H).
Qed.

Lemma soil_temperature_init_cor_returns (width : arr) (nlyrs : nat)
    (deltaX : Q) (nRgr : nat) (st : ST_RGR_VALUES) (j0 : nat) :
  exists r,
    returns (fun fuel => soil_temperature_init_cor fuel width nlyrs deltaX
                           nRgr st j0) r.
Proof.
  destruct (for_each_opt_while
              (fun _ => cor_cond nlyrs deltaX)
              (cor_step width deltaX st)
              (fun c => mkCor (c_x1 c) (c_x2 c) (c_j c) (c_d1 c) (c_d2 c) 0
                          (c_cor c))
              (fun (_ : cor_state) i c =>
                 mkCor (c_x2 c) (c_x2 c) (c_j c) (c_d1 c) (c_d2 c) (c_acc c)
                   (if (nlyrs <=? c_x2 c)%nat
                    then mupd (c_cor c) i (c_x2 c) (- (deltaX - c_acc c))
                    else c_cor c))
              (seq 0 (nRgr + 1 - 0)))
    with (s := mkCor 0 0 j0 0 0 0 (tlyrs_by_slyrs st)) as (fuel & r & H).
  - intros s i. destruct (Qlt_le_dec 0 deltaX) as [Hd|Hd].
    + now apply cor_loop_ends.
    + apply while_stop. unfold cor_cond. cbn [c_acc c_x2].
      replace (Qltb 0 deltaX) with false; [apply andb_false_r|].
      symmetry. apply LT_false. exact Hd.
  - exists (c_cor r). apply (returns_of_some _ fuel).
    + intros n n' x Hn. now apply soil_temperature_init_cor_more.
    + exact (f_equal (option_map c_cor) H).
Qed.

Lemma lyrSoil_to_lyrTemp_temperature_ends (nlyrSoil : nat)
    (depth_Soil sTemp : arr) (endTemp : Q) (nlyrTemp : nat)
    (depth_Temp : arr) (maxTempDepth : Q) (sTempR : arr) :
  exists r,
    returns (fun fuel => lyrSoil_to_lyrTemp_temperature interpolation uninit
                           fuel nlyrSoil depth_Soil sTemp endTemp nlyrTemp
                           depth_Temp maxTempDepth sTempR) r.
Proof.
  assert (H : exists r,
            lyrSoil_to_lyrTemp_temperature interpolation uninit
              (nlyrSoil + 2) nlyrSoil depth_Soil sTemp endTemp nlyrTemp
              depth_Temp maxTempDepth sTempR = Some r).
  { unfold lyrSoil_to_lyrTemp_temperature, for_up_opt. cbv zeta.
    match goal with
    | |- context [for_each_opt ?l ?b ?s] =>
        destruct (for_each_opt_returns l b s) as [rj ->]
    end; [|eexists; reflexivity].
    intros s i.
    match goal with
    | |- context [while _ (fun j1 => LT (?d (j1 + 1)%nat) _ && _) _ _] =>
        destruct (while_count
                    (fun j1 => LT (d (j1 + 1)%nat) (depth_Temp i))
                    nlyrSoil (nlyrSoil + 2) (snd s)) as [j1 ->]; [lia|];
        destruct (while_count
                    (fun j2 => LE (d (j2 + 1)%nat) (depth_Temp i))
                    (nlyrSoil + 1) (nlyrSoil + 2) (j1 + 1)) as [j2 ->]; [lia|]
    end.
    eexists. reflexivity. }
  destruct H as [r H]. exists r. apply (returns_of_some _ (nlyrSoil + 2)%nat).
  - intros n n' x Hn. now apply lyrSoil_to_lyrTemp_temperature_more.
  - exact H.
Qed.

Lemma lyrTemp_to_lyrSoil_temperature_ends (cor : mat) (nlyrTemp : nat)
    (depth_Temp sTempR : arr) (nlyrSoil : nat)
    (depth_Soil width_Soil sTemp : arr) :
  exists r,
    returns (fun fuel => lyrTemp_to_lyrSoil_temperature interpolation fuel
                           cor nlyrTemp depth_Temp sTempR nlyrSoil depth_Soil
                           width_Soil sTemp) r.
Proof.
  destruct (for_each_opt_while
              (t2l_cond nlyrTemp width_Soil)
              (t2l_step interpolation cor depth_Temp sTempR depth_Soil
                 width_Soil)
              (fun si : arr * nat => mkT2L 0 0 0 (snd si) false)
              (fun si j w =>
                 (upd (fst si) j
                    (if (0 <? t2l_n w)%nat
                     then t2l_sTemp w / inject_Z (Z.of_nat (t2l_n w))
                     else t2l_sTemp w),
                  t2l_i w))
              (seq 0 (nlyrSoil + 1 - 0)))
    with (s := (sTemp, 0%nat)) as (fuel & r & H).
  - intros s j. exists (nlyrTemp + 3)%nat.
    apply (while_measure _ _
             (fun w => (nlyrTemp + 2 - t2l_i w)%nat)).
    + apply t2l_turn_advances.
    + lia.
  - exists (fst r). apply (returns_of_some _ fuel).
    + intros n n' x Hn. now apply lyrTemp_to_lyrSoil_temperature_more.
    + exact (f_equal (option_map fst) H).
Qed.

Lemma soil_temperature_init_returns (bDensity width : arr)
    (surfaceTemp : Q) (oldsTemp : arr) (meanAirTemp : Q) (nlyrs : nat)
    (fc wp : arr) (deltaX theMaxDepth : Q) (nRgr : nat) (g : globals) :
  exists g',
    returns (fun fuel => soil_temperature_init interpolation uninit fuel
                           bDensity width surfaceTemp oldsTemp meanAirTemp
                           nlyrs fc wp deltaX theMaxDepth nRgr g) g'.
Proof.
  unfold soil_temperature_init. cbv zeta.
  destruct (LT theMaxDepth _); [eexists; apply returns_here|].
  apply returns_then; [apply soil_temperature_init_cor_returns|]. intro cor.
  apply returns_then; [apply lyrSoil_to_lyrTemp_returns|]. intro bR.
  apply returns_then; [apply lyrSoil_to_lyrTemp_temperature_ends|]. intro oR.
  apply returns_then; [apply lyrSoil_to_lyrTemp_returns|]. intro fR.
  apply returns_then; [apply lyrSoil_to_lyrTemp_returns|]. intro wR.
  eexists. apply returns_here.
Qed.

Lemma soil_temperature_first_call_returns (airTemp : Q)
    (swc swc_sat bDensity width oldsTemp surfaceTemp : arr)
    (nlyrs : nat) (fc wp : arr) (meanAirTemp deltaX theMaxDepth : Q)
    (nRgr : nat) (g : globals) :
  exists p,
    returns (fun fuel => soil_temperature_first_call interpolation uninit
                           Today fuel airTemp swc swc_sat bDensity width
                           oldsTemp surfaceTemp nlyrs fc wp meanAirTemp
                           deltaX theMaxDepth nRgr g) p.
Proof.
  unfold soil_temperature_first_call. cbv zeta.
  destruct (Nat.eqb (soil_temp_init g) 0); [|eexists; apply returns_here].
  apply returns_then; [apply soil_temperature_init_returns|]. intro g'.
  eexists. apply returns_here.
Qed.


(** Whatever a loop of this shape finds in the cells it writes, it leaves
    the same values there. *)
Lemma for_each_opt_overwrites {W : Type} (run : nat -> nat -> option W)
    (val : W -> Q) (next : W -> nat) (l : list nat) :
  forall (a b : arr) (i0 : nat) (ra rb : arr * nat),
    for_each_opt l
      (fun si j => match run (snd si) j with
                   | None => None
                   | Some w => Some (upd (fst si) j (val w), next w)
                   end) (a, i0) = Some ra ->
    for_each_opt l
      (fun si j => match run (snd si) j with
                   | None => None
                   | Some w => Some (upd (fst si) j (val w), next w)
                   end) (b, i0) = Some rb ->
    forall k, (In k l -> fst ra k = fst rb k)
              /\ (~ In k l -> fst ra k = a k /\ fst rb k = b k).
Proof.
  induction l as [|j l IH]; intros a b i0 ra rb Ha Hb k.
  - injection Ha as <-. injection Hb as <-. split; [intros []|].
    intros _. split; reflexivity.
  - cbn [for_each_opt snd fst] in Ha, Hb.
    destruct (run i0 j) as [w|]; [|discriminate].
    destruct (IH _ _ _ _ _ Ha Hb k) as [Hin Hout].
    destruct (in_dec Nat.eq_dec k l) as [Hk|Hk].
    + split; [intros _; now apply Hin|]. intros Hn. exfalso. apply Hn. now right.
    + destruct (Hout Hk) as [E1 E2]. split.
      * intros [<-|Hl]; [|contradiction].
        rewrite E1, E2, !upd_same. reflexivity.
      * intros Hn. rewrite E1, E2.
        rewrite !upd_other by (intros ->; apply Hn; now left).
        split; reflexivity.
Qed.

(** The projection back onto the soil layers writes every cell
    [0 .. nlyrSoil] of [sTemp] afresh: what it returns there does not
    depend on what [sTemp] held. *)
Lemma lyrTemp_to_lyrSoil_temperature_overwrites (fuel fuel' : nat) (cor : mat)
    (nlyrTemp : nat) (depth_Temp sTempR : arr) (nlyrSoil : nat)
    (depth_Soil width_Soil sTemp sTemp' r r' : arr) :
  lyrTemp_to_lyrSoil_temperature interpolation fuel cor nlyrTemp depth_Temp
    sTempR nlyrSoil depth_Soil width_Soil sTemp = Some r ->
  lyrTemp_to_lyrSoil_temperature interpolation fuel' cor nlyrTemp depth_Temp
    sTempR nlyrSoil depth_Soil width_Soil sTemp' = Some r' ->
  forall j, (j <= nlyrSoil)%nat -> r j = r' j.
Proof.
  intros H H' j Hj.
  apply (lyrTemp_to_lyrSoil_temperature_more interpolation fuel
           (Nat.max fuel fuel')) in H; [|lia].
  apply (lyrTemp_to_lyrSoil_temperature_more interpolation fuel'
           (Nat.max fuel fuel')) in H'; [|lia].
  unfold lyrTemp_to_lyrSoil_temperature, for_up_opt in H, H'.
  destruct (for_each_opt _ _ (sTemp, 0%nat)) as [ra|] eqn:Ea; [|discriminate].
  destruct (for_each_opt _ _ (sTemp', 0%nat)) as [rb|] eqn:Eb; [|discriminate].
  injection H as <-. injection H' as <-.
  apply (for_each_opt_overwrites
           (fun i0 j =>
              while (Nat.max fuel fuel') (t2l_cond nlyrTemp width_Soil j)
                (t2l_step interpolation cor depth_Temp sTempR depth_Soil
                   width_Soil j) (mkT2L 0 0 0 i0 false))
           (fun w => if (0 <? t2l_n w)%nat
                     then t2l_sTemp w / inject_Z (Z.of_nat (t2l_n w))
                     else t2l_sTemp w)
           t2l_i _ _ _ _ _ _ Ea Eb j).
  apply in_seq. lia.
Qed.

(** C7.  [soil_temperature] returns, whatever the stability coefficients:
    the first-call block and the projections between the soil layers and
    the regression grid all end.  If some band [k < nRgr] has [parts > 1],
    [soil_temp_error] is 1 on return, and if none has, the flag is what it
    was before the heat step; in both cases the new grid temperatures are
    computed by the explicit step on every band, projected back to the
    soil layers into [sTemp], every cell of which is written afresh, used
    for the frozen flags, and stored in [oldsTempR] for the next day. *)
Theorem soil_temperature_flag_nonfatal
    (airTemp pet aet biomass : Q)
    (swc swc_sat bDensity width oldsTemp sTemp surfaceTemp : arr)
    (nlyrs : nat) (fc wp : arr)
    (bmLimiter t1Param1 t1Param2 t1Param3 csParam1 csParam2 shParam
     snowdepth meanAirTemp deltaX theMaxDepth : Q) (nRgr : nat) (snow : Q)
    (g : globals) :
  exists (surfaceTemp1 : arr) (g1 : globals) (vwcR : arr)
         (r : temperature_result),
    let vwc :=
      for_up 0 nlyrs (fun a i => upd a i (swc i / width i)) (uninit 4) in
    let st1 := stValues g1 in
    let T1 := surface_T1 tSoilAvg0 airTemp pet aet biomass bmLimiter
                t1Param1 t1Param2 t1Param3 snowdepth snow in
    let parts := stability_parts st1 deltaX csParam1 csParam2 shParam vwcR in
    let sTempR :=
      upd (fst (heat_profile uninit st1 deltaX csParam1 csParam2 shParam vwcR
                  nRgr T1 (soil_temp_error g1)))
          (nRgr + 1) meanAirTemp in
    returns (fun fuel =>
               soil_temperature interpolation uninit tSoilAvg0 Yesterday
                 Today fuel airTemp pet aet biomass swc swc_sat bDensity
                 width oldsTemp sTemp surfaceTemp nlyrs fc wp bmLimiter
                 t1Param1 t1Param2 t1Param3 csParam1 csParam2 shParam
                 snowdepth meanAirTemp deltaX theMaxDepth nRgr snow g) r
    /\ returns (fun fuel =>
                  soil_temperature_first_call interpolation uninit Today
                    fuel airTemp swc swc_sat bDensity width oldsTemp
                    surfaceTemp nlyrs fc wp meanAirTemp deltaX theMaxDepth
                    nRgr g) (surfaceTemp1, g1)
    /\ returns (fun fuel =>
                  lyrSoil_to_lyrTemp fuel (tlyrs_by_slyrs st1) nlyrs width
                    vwc nRgr deltaX (uninit 5)) vwcR
    /\ ((exists k, (k < nRgr)%nat /\ 1 < parts k) ->
          soil_temp_error (globals_out r) = 1%nat)
    /\ ((forall k, (k < nRgr)%nat -> parts k <= 1) ->
          soil_temp_error (globals_out r) = soil_temp_error g1)
    /\ sTempR 0%nat = T1
    /\ sTempR (nRgr + 1)%nat = meanAirTemp
    /\ (forall i, (1 <= i <= nRgr)%nat ->
          sTempR i = oldsTempR st1 i
                     + parts (i - 1)%nat
                       * (sTempR (i - 1)%nat - 2 * oldsTempR st1 i
                          + oldsTempR st1 (i + 1)%nat))
    /\ returns (fun fuel =>
                  lyrTemp_to_lyrSoil_temperature interpolation fuel
                    (tlyrs_by_slyrs st1) nRgr (depthsR st1) sTempR nlyrs
                    (depths st1) width sTemp) (sTemp_out r)
    /\ (forall sTemp0 r0,
          returns (fun fuel =>
                     lyrTemp_to_lyrSoil_temperature interpolation fuel
                       (tlyrs_by_slyrs st1) nRgr (depthsR st1) sTempR nlyrs
                       (depths st1) width sTemp0) r0 ->
          forall j, (j <= nlyrs)%nat -> r0 j = sTemp_out r j)
    /\ (forall i, (i <= nRgr + 1)%nat ->
          oldsTempR (stValues (globals_out r)) i = sTempR i)
    /\ lyrFrozen (stValues (globals_out r))
       = lyrFrozen (set_frozen_unfrozen nlyrs (sTemp_out r) swc swc_sat
                      width st1).
Proof.
  destruct (soil_temperature_first_call_returns airTemp swc swc_sat bDensity
              width oldsTemp surfaceTemp nlyrs fc wp meanAirTemp deltaX
              theMaxDepth nRgr g) as ([surfaceTemp1 g1] & Hfirst).
  exists surfaceTemp1, g1.
  destruct (lyrSoil_to_lyrTemp_returns (tlyrs_by_slyrs (stValues g1)) nlyrs
              width
              (for_up 0 nlyrs (fun a i => upd a i (swc i / width i))
                 (uninit 4))
              nRgr deltaX (uninit 5)) as (vwcR & Hvwc).
  exists vwcR.
  set (sTempR :=
    upd (fst (heat_profile uninit (stValues g1) deltaX csParam1 csParam2
                shParam vwcR nRgr
                (surface_T1 tSoilAvg0 airTemp pet aet biomass bmLimiter
                   t1Param1 t1Param2 t1Param3 snowdepth snow)
                (soil_temp_error g1)))
        (nRgr + 1) meanAirTemp).
  destruct (lyrTemp_to_lyrSoil_temperature_ends (tlyrs_by_slyrs (stValues g1))
              nRgr (depthsR (stValues g1)) sTempR nlyrs
              (depths (stValues g1)) width sTemp) as (sTemp' & Hback).
  destruct Hfirst as [n1 H1]. destruct Hvwc as [n2 H2].
  destruct Hback as [n3 H3].
  set (n := Nat.max n1 (Nat.max n2 n3)).
  destruct (HeatFacts.soil_temperature_day interpolation uninit
              tSoilAvg0 Yesterday Today n airTemp pet aet biomass swc swc_sat
              bDensity width oldsTemp sTemp surfaceTemp nlyrs fc wp bmLimiter
              t1Param1 t1Param2 t1Param3 csParam1 csParam2 shParam snowdepth
              meanAirTemp deltaX theMaxDepth nRgr snow g surfaceTemp1 g1 vwcR
              sTemp')
    as (r & Hr & Hup & Hkeep & Hout & Hold & HT0 & Hend & Hrec & Hfr);
    [apply H1; lia | apply H2; lia | apply H3; lia |].
  exists r. cbv zeta. rewrite Hout.
  split.
  { apply (returns_of_some _ n); [|exact Hr].
    intros a b x Hab. now apply soil_temperature_more. }
  split; [exists n1; exact H1|]. split; [exists n2; exact H2|].
  split; [exact Hup|]. split; [exact Hkeep|]. split; [exact HT0|].
  split; [exact Hend|]. split; [exact Hrec|].
  split; [exists n3; exact H3|].
  split; [|split; [exact Hold | exact Hfr]].
  intros sTemp0 r0 [n0 H0] j Hj.
  apply (lyrTemp_to_lyrSoil_temperature_overwrites
           (Nat.max n0 n3) (Nat.max n0 n3) (tlyrs_by_slyrs (stValues g1)) nRgr
           (depthsR (stValues g1)) sTempR nlyrs (depths (stValues g1)) width
           sTemp0 sTemp r0 sTemp'); [apply H0; lia | apply H3; lia | exact Hj].
Qed.

End Grid.


(** Applies the theorem to the first day of a site with one 20 cm layer
    of bulk density [bd] under a two-band grid, and names what the day
    computes within 20 turns. *)
Ltac first_day bd :=
  destruct (soil_temperature_flag_nonfatal linear_interpolation
              (fun _ _ => 0) 0 0 1
              10 (3 # 10) (1 # 10) 100 (buffer [4]) (buffer [8])
              (buffer [bd]) (buffer [20]) (buffer [1]) (buffer [0])
              (buffer [0; 0]) 1 (buffer [5]) (buffer [2]) 300 15 (- (4)) 600
              (7 # 10000) (3 # 10000) (18 # 100) 0 4 15 30 1 0 globals_zero)
    as (surfaceTemp1 & g1 & vwcR & r & Hr & Hfirst & Hvwc & Hup & Hkeep & _);
  apply (returns_within _ 20%nat) in Hr;
    [ | intros n n' x Hn; now apply soil_temperature_more
      | vm_compute; discriminate ];
  apply (returns_within _ 20%nat) in Hfirst;
    [ | intros n n' x Hn; now apply soil_temperature_first_call_more
      | vm_compute; discriminate ];
  vm_compute in Hfirst; injection Hfirst as <- <-;
  apply (returns_within _ 20%nat) in Hvwc;
    [ | intros n n' x Hn; now apply lyrSoil_to_lyrTemp_more
      | vm_compute; discriminate ];
  vm_compute in Hvwc; injection Hvwc as <-;
  exists r; split; [exact Hr|].

(** The first day of a site with one 20 cm layer under a two-band grid.
    With light soil (bulk density 0.5) the band is unstable: the flag is
    raised and the day is computed all the same.  With bulk density 1.5
    the band is stable and the flag stays down. *)
Lemma soil_temperature_flag_nonfatal_witness :
  (exists r,
     soil_temperature linear_interpolation (fun _ _ => 0) 0 0 1
       20 10 (3 # 10) (1 # 10) 100 (buffer [4]) (buffer [8]) (buffer [1 # 2])
       (buffer [20]) (buffer [1]) (buffer [0]) (buffer [0; 0])
       1 (buffer [5]) (buffer [2]) 300 15 (- (4)) 600 (7 # 10000) (3 # 10000)
       (18 # 100) 0 4 15 30 1 0 globals_zero = Some r
     /\ soil_temp_error (globals_out r) = 1%nat
     /\ sTemp_out r 0%nat == 5111 # 215)
  /\ (exists r,
        soil_temperature linear_interpolation (fun _ _ => 0) 0 0 1
          20 10 (3 # 10) (1 # 10) 100 (buffer [4]) (buffer [8])
          (buffer [3 # 2])
          (buffer [20]) (buffer [1]) (buffer [0]) (buffer [0; 0])
          1 (buffer [5]) (buffer [2]) 300 15 (- (4)) 600 (7 # 10000)
          (3 # 10000) (18 # 100) 0 4 15 30 1 0 globals_zero = Some r
        /\ soil_temp_error (globals_out r) = 0%nat
        /\ sTemp_out r 0%nat == 1847 # 215).
Proof.
  split.
  - first_day (1 # 2). split.
    + apply Hup. exists 0%nat. split; [lia | vm_compute; reflexivity].
    + vm_compute in Hr. injection Hr as <-. vm_compute. reflexivity.
  - first_day (3 # 2). split.
    + rewrite Hkeep; [vm_compute; reflexivity|].
      intros k Hk. replace k with 0%nat by lia. vm_compute. discriminate.
    + vm_compute in Hr. injection Hr as <-. vm_compute. reflexivity.
Defined.

End ReturnFacts.

(* ================================================================= *)
(** ** The tables of the weather generator *)

Module MarkovTableFacts.

Import Markov.

Section Generator.

Variable rng : Type.
Variable RandNorm : Q -> Q -> rng -> Q * rng.
Variable RandUni : rng -> Q * rng.
Variable sqrt : Q -> Q.
Variable doy2week : nat -> nat.
Variable RealF : Q -> Q.

Local Abbreviation SW_MKV_today :=
  (SW_MKV_today rng RandNorm RandUni sqrt doy2week RealF).

(** Today's precipitation is never negative; a wet day is counted once
    in [ppt_events], a dry day is not, and the tables are left as they
    are.  It is dry whenever the uniform draw exceeds the probability of
    the day, both as they are narrowed to float. *)
Theorem SW_MKV_today_counts_wet_days (doy0 : nat) (rain0 : Q) (m : SW_MARKOV)
    (g : rng) (r : weather_today rng) :
  SW_MKV_today doy0 rain0 m g = Some r ->
  let prob := RealF (if GT rain0 0 then wetprob m doy0 else dryprob m doy0) in
  let p := RealF (fst (RandUni g)) in
  0 <= rain r
  /\ ppt_events (markov r)
     = (if GT (rain r) 0 then S (ppt_events m) else ppt_events m)
  /\ (prob < p -> rain r = 0)
  /\ wetprob (markov r) = wetprob m /\ dryprob (markov r) = dryprob m
  /\ avg_ppt (markov r) = avg_ppt m /\ std_ppt (markov r) = std_ppt m
  /\ u_cov (markov r) = u_cov m /\ v_cov (markov r) = v_cov m.
Proof.
  unfold Markov.SW_MKV_today.
  destruct (RandUni g) as [p g1]. cbn [fst]. cbv zeta.
  set (prob := RealF (if GT rain0 0 then wetprob m doy0 else dryprob m doy0)).
  destruct (LE (RealF p) prob) eqn:Ep.
  - destruct (RandNorm (avg_ppt m doy0) (std_ppt m doy0) g1) as [x g2].
    destruct (mvnorm _ _ _ _ _ _ _ _ _) as [[[tmax1 tmin1] g3]|];
      [|discriminate].
    destruct (temp_correct_wetdry _ _ _ _ _ _ _) as [tmax2 tmin2].
    intro H. injection H as <-. cbn [rain markov].
    split; [apply fmax_ge_l|]. split.
    + destruct (GT (fmax 0 (RealF x)) 0); cbn; [lia | reflexivity].
    + split.
      * intro Hp. apply LE_true in Ep. lra.
      * destruct (GT (fmax 0 (RealF x)) 0); cbn; repeat split; reflexivity.
  - destruct (mvnorm _ _ _ _ _ _ _ _ _) as [[[tmax1 tmin1] g3]|];
      [|discriminate].
    destruct (temp_correct_wetdry _ _ _ _ _ _ _) as [tmax2 tmin2].
    intro H. injection H as <-. cbn [rain markov].
    replace (GT 0 0) with false by reflexivity.
    split; [lra|]. repeat split; reflexivity.
Qed.

End Generator.

Section Setup.

Variables MAX_DAYS MAX_WEEKS : nat.
Variable rng : Type.
Variable RandSeed : Z -> rng -> rng.

Local Abbreviation read_prob_lines := (read_prob_lines MAX_DAYS).
Local Abbreviation read_cov_lines := (read_cov_lines MAX_WEEKS).

Lemma prob_line_checked (l : prob_line) :
  prob_line_fatal MAX_DAYS l = false ->
  (5 <= p_items l)%nat
  /\ (1 <= p_day l <= Z.of_nat MAX_DAYS)%Z
  /\ 0 <= p_wet l <= 1 /\ 0 <= p_dry l <= 1
  /\ 0 <= p_avg l /\ 0 <= p_std l.
Proof.
  unfold prob_line_fatal. intro H.
  repeat (apply orb_false_iff in H; destruct H as [H ?]).
  repeat match goal with
  | H : LT _ _ = false |- _ => apply LT_false in H
  | H : GT _ _ = false |- _ => apply GT_false in H
  | H : Nat.ltb _ _ = false |- _ => apply Nat.ltb_ge in H
  | H : Z.ltb _ _ = false |- _ => apply Z.ltb_ge in H
  end.
  repeat split; assumption.
Qed.

Lemma store_prob_valid (m : SW_MARKOV) (l : prob_line) :
  prob_line_fatal MAX_DAYS l = false ->
  tables_valid m -> tables_valid (store_prob m l).
Proof.
  intros Hl Hm d. apply prob_line_checked in Hl.
  destruct Hl as (_ & _ & Hw & Hd & Ha & Hs).
  specialize (Hm d). unfold store_prob. cbn. unfold upd.
  destruct (Nat.eqb d _); [repeat split; lra | exact Hm].
Qed.

Lemma read_prob_lines_valid (lines : list prob_line) (lineno : nat)
    (m m' : SW_MARKOV) :
  read_prob_lines lines lineno m = Some m' ->
  (tables_valid m -> tables_valid m')
  /\ ppt_events m' = ppt_events m
  /\ (forall d, (MAX_DAYS <= d)%nat ->
        wetprob m' d = wetprob m d /\ dryprob m' d = dryprob m d
        /\ avg_ppt m' d = avg_ppt m d /\ std_ppt m' d = std_ppt m d).
Proof.
  revert lineno m. induction lines as [|l rest IH]; intros lineno m H.
  - injection H as <-.
    split; [auto|]. split; [reflexivity|]. intros; repeat split; reflexivity.
  - cbn [Markov.read_prob_lines] in H.
    destruct (Nat.eqb lineno MAX_DAYS).
    + injection H as <-.
      split; [auto|]. split; [reflexivity|]. intros; repeat split; reflexivity.
    + destruct (prob_line_fatal MAX_DAYS l) eqn:El; [discriminate|].
      destruct (IH _ _ H) as (Hv & He & Hfr).
      split; [|split].
      * intro Hm. apply Hv. now apply store_prob_valid.
      * rewrite He. reflexivity.
      * intros d Hd. destruct (Hfr d Hd) as (H1 & H2 & H3 & H4).
        rewrite H1, H2, H3, H4.
        apply prob_line_checked in El. destruct El as (_ & Hday & _).
        unfold store_prob. cbn.
        rewrite !upd_other by lia. repeat split; reflexivity.
Qed.

Lemma read_cov_lines_tables (lines : list cov_line) (lineno : nat)
    (m m' : SW_MARKOV) :
  read_cov_lines lines lineno m = Some m' ->
  wetprob m' = wetprob m /\ dryprob m' = dryprob m
  /\ avg_ppt m' = avg_ppt m /\ std_ppt m' = std_ppt m
  /\ ppt_events m' = ppt_events m.
Proof.
  revert lineno m. induction lines as [|l rest IH]; intros lineno m H.
  - injection H as <-. repeat split; reflexivity.
  - cbn [Markov.read_cov_lines] in H.
    destruct (Nat.eqb lineno MAX_WEEKS).
    + injection H as <-. repeat split; reflexivity.
    + destruct (cov_line_fatal MAX_WEEKS l); [discriminate|].
      destruct (IH _ _ H) as (H1 & H2 & H3 & H4 & H5).
      rewrite H1, H2, H3, H4, H5. repeat split; reflexivity.
Qed.

(** A setup that returns has opened both files, starts the count of wet
    days at 0 and leaves daily tables in which every probability lies in
    [[0, 1]] and every mean and standard deviation of precipitation is
    non-negative. *)
Theorem SW_MKV_setup_tables_valid (prob_file : option (list prob_line))
    (cov_file : option (list cov_line)) (m m' : SW_MARKOV) (g g' : rng) :
  SW_MKV_setup MAX_DAYS MAX_WEEKS rng RandSeed prob_file cov_file m g
  = Some (m', g') ->
  tables_valid m' /\ ppt_events m' = 0%nat
  /\ prob_file <> None /\ cov_file <> None.
Proof.
  unfold SW_MKV_setup, SW_MKV_construct, SW_MKV_read_prob, SW_MKV_read_cov.
  destruct prob_file as [pl|]; [|discriminate].
  destruct (read_prob_lines pl 0 _) as [m1|] eqn:E1; [|discriminate].
  destruct cov_file as [cl|]; [|discriminate].
  destruct (read_cov_lines cl 0 m1) as [m2|] eqn:E2; [|discriminate].
  intro H. injection H as <- _.
  destruct (read_prob_lines_valid _ _ _ _ E1) as (Hv & He & _).
  destruct (read_cov_lines_tables _ _ _ _ E2) as (H1 & H2 & H3 & H4 & H5).
  split; [|split; [|split; discriminate]].
  - intro d. rewrite H1, H2, H3, H4. apply Hv.
    intro d'. cbn. repeat split; lra.
  - rewrite H5, He. reflexivity.
Qed.

Lemma read_prob_lines_extra (l1 l2 : list prob_line) (lineno : nat)
    (m : SW_MARKOV) :
  (lineno + length l1 = MAX_DAYS)%nat ->
  read_prob_lines (l1 ++ l2) lineno m = read_prob_lines l1 lineno m.
Proof.
  revert lineno m. induction l1 as [|l rest IH]; intros lineno m H.
  - cbn [app length] in *. replace lineno with MAX_DAYS by lia.
    destruct l2; cbn [Markov.read_prob_lines]; [reflexivity|].
    now rewrite Nat.eqb_refl.
  - cbn [app length Markov.read_prob_lines] in *.
    destruct (Nat.eqb lineno MAX_DAYS); [reflexivity|].
    destruct (prob_line_fatal MAX_DAYS l); [reflexivity|].
    apply IH. lia.
Qed.

(** The probability file is read up to line [MAX_DAYS]: what follows is
    skipped without being checked.  Nothing is written beyond
    [MAX_DAYS], and the days the file does not list keep what they
    held. *)
Theorem SW_MKV_read_prob_stops_at_MAX_DAYS (l1 l2 : list prob_line)
    (m : SW_MARKOV) :
  length l1 = MAX_DAYS ->
  SW_MKV_read_prob MAX_DAYS (Some (l1 ++ l2)) m
  = SW_MKV_read_prob MAX_DAYS (Some l1) m
  /\ (forall m', SW_MKV_read_prob MAX_DAYS (Some l1) m = Some (true, m') ->
        forall d, (forall l, In l l1 -> p_day l <> Z.of_nat (S d)) ->
          wetprob m' d = wetprob m d /\ dryprob m' d = dryprob m d
          /\ avg_ppt m' d = avg_ppt m d /\ std_ppt m' d = std_ppt m d).
Proof.
  intro Hlen. unfold SW_MKV_read_prob. split.
  - rewrite read_prob_lines_extra by lia. reflexivity.
  - intros m' H d Hd.
    destruct (read_prob_lines l1 0 m) as [m1|] eqn:E; [|discriminate].
    injection H as <-. clear Hlen.
    revert E Hd. generalize 0%nat. revert m.
    induction l1 as [|l rest IH]; intros m lineno E Hd.
    + injection E as <-. repeat split; reflexivity.
    + cbn [Markov.read_prob_lines] in E.
      destruct (Nat.eqb lineno MAX_DAYS).
      * injection E as <-. repeat split; reflexivity.
      * destruct (prob_line_fatal MAX_DAYS l) eqn:El; [discriminate|].
        destruct (IH _ _ E) as (H1 & H2 & H3 & H4).
        { intros l' Hl'. apply Hd. now right. }
        rewrite H1, H2, H3, H4.
        apply prob_line_checked in El. destruct El as (_ & Hday & _).
        assert (Hne : p_day l <> Z.of_nat (S d)) by (apply Hd; now left).
        unfold store_prob. cbn.
        rewrite !upd_other by lia. repeat split; reflexivity.
Qed.

End Setup.

(** A wet day after a wet day is counted, and the tables stay. *)
Lemma SW_MKV_today_counts_wet_days_witness :
  match SW_MKV_today (list Q) draw (draw 0 1) sqrt_table (fun d => (d / 7)%nat)
          (fun x => x) 0 1 markov_example [1 # 2; 0; 0; 4] with
  | Some r =>
      0 <= rain r
      /\ ppt_events (markov r)
         = (if GT (rain r) 0 then 1%nat else 0%nat)
      /\ wetprob (markov r) = wetprob markov_example
      /\ u_cov (markov r) = u_cov markov_example
  | None => False
  end.
Proof.
  destruct (SW_MKV_today (list Q) draw (draw 0 1) sqrt_table
              (fun d => (d / 7)%nat) (fun x => x) 0 1 markov_example
              [1 # 2; 0; 0; 4])
    as [r|] eqn:E; [|vm_compute in E; discriminate E].
  destruct (SW_MKV_today_counts_wet_days (list Q) draw (draw 0 1) sqrt_table
              (fun d => (d / 7)%nat) (fun x => x) 0 1 markov_example
              [1 # 2; 0; 0; 4] r E)
    as (H1 & H2 & _ & H4 & _ & _ & _ & H8 & _).
  split; [exact H1|]. split; [exact H2|]. split; [exact H4 | exact H8].
Defined.

(** Why the comparison is stated on the narrowed values.  Under a
    narrowing to the nearest eighth, standing in for the narrowing to
    float, a probability of 0.499 and a draw of 0.5 both become 0.5: the
    draw exceeds the probability, and the day is wet all the same. *)
Example SW_MKV_today_narrowed_draw :
  let nearest_eighth := fun x : Q => inject_Z (Qfloor (x * 8 + (1 # 2))) / 8 in
  let m := mkMarkov (fun _ => 0.499) (fun _ => 0) (fun _ => 1) (fun _ => 0)
             (cfxw markov_example) (cfxd markov_example)
             (cfnw markov_example) (cfnd markov_example)
             (u_cov markov_example) (v_cov markov_example) 0 in
  wetprob m 0%nat < fst (draw 0 1 [1 # 2; 0; 0; 4])
  /\ match SW_MKV_today (list Q) draw (draw 0 1) sqrt_table
             (fun d => (d / 7)%nat) nearest_eighth 0 1 m [1 # 2; 0; 0; 4] with
     | Some r => rain r == 1
     | None => False
     end.
Proof. vm_compute. split; reflexivity. Qed.

(** A year of three days and two weeks, with a file that gives two of
    the days. *)
Lemma SW_MKV_setup_tables_valid_witness :
  match
    SW_MKV_setup 3 2 (list Q) (fun _ _ => [])
      (Some [mkProbLine 5 1 0.3 0.1 0.5 0.2; mkProbLine 5 3 1 0 0 0])
      (Some [mkCovLine 11 1 20 5 4 1 1 9 (- (1)) 0.5 3 (- (0.5))])
      markov_example [1]
  with
  | Some (m', _) => tables_valid m' /\ ppt_events m' = 0%nat
  | None => False
  end.
Proof.
  destruct (SW_MKV_setup 3 2 (list Q) (fun _ _ => [])
      (Some [mkProbLine 5 1 0.3 0.1 0.5 0.2; mkProbLine 5 3 1 0 0 0])
      (Some [mkCovLine 11 1 20 5 4 1 1 9 (- (1)) 0.5 3 (- (0.5))])
      markov_example [1]) as [[m' g']|] eqn:E;
    [|vm_compute in E; discriminate E].
  destruct (SW_MKV_setup_tables_valid 3 2 (list Q) (fun _ _ => []) _ _ _ _ _ _ E)
    as (H1 & H2 & _).
  split; [exact H1 | exact H2].
Defined.

(** With two days in the year, a third line is not read, not even to be
    checked: here it has a probability of 7. *)
Lemma SW_MKV_read_prob_stops_at_MAX_DAYS_witness :
  SW_MKV_read_prob 2
    (Some ([mkProbLine 5 1 0.3 0.1 0.5 0.2; mkProbLine 5 1 0.4 0.2 0.6 0.3]
           ++ [mkProbLine 5 2 7 0 0 0])) markov_example
  = SW_MKV_read_prob 2
      (Some [mkProbLine 5 1 0.3 0.1 0.5 0.2; mkProbLine 5 1 0.4 0.2 0.6 0.3])
      markov_example
  /\ (forall m',
        SW_MKV_read_prob 2
          (Some [mkProbLine 5 1 0.3 0.1 0.5 0.2;
                 mkProbLine 5 1 0.4 0.2 0.6 0.3]) markov_example
        = Some (true, m') ->
        wetprob m' 1%nat = wetprob markov_example 1%nat).
Proof.
  assert (Hl : length [mkProbLine 5 1 0.3 0.1 0.5 0.2;
                       mkProbLine 5 1 0.4 0.2 0.6 0.3] = 2%nat)
    by reflexivity.
  destruct (SW_MKV_read_prob_stops_at_MAX_DAYS 2 _ [mkProbLine 5 2 7 0 0 0]
              markov_example Hl) as [Hsame Hrest].
  split; [exact Hsame|].
  intros m' Hm'.
  destruct (Hrest m' Hm' 1%nat) as [Hw _]; [|exact Hw].
  intros l [<-|[<-|[]]]; cbn; discriminate.
Defined.

End MarkovTableFacts.
